(** * The full-scan replication engine of btree/replicate.cc

    A shallow embedding of [btree_replicant_t], [slice_walker_t] and
    [branch_walker_t].  The program is callback driven: every slice runs on
    its home CPU, a CPU runs one handler at a time, and the buffer cache and
    the sink (the [store_t::replicant_t] callback) decide whether a request
    completes inside the call or later.  The embedding is an abstract
    machine: each slice carries the stack of synchronous calls of its CPU,
    the walkers suspended on a callback and its two message channels; a
    label picks what happens next. *)

From stdpp Require Import strings list list_numbers.
From Stdlib Require Import ZArith Lia.
From Stdlib Require Strings.Byte.

Local Open Scope Z_scope.

(** ** Data *)

Definition byte := Byte.byte.
Definition store_key := list byte.
(** [block_id_t] and the reference to a large value, both block numbers. *)
Definition block_id := N.
Definition lb_ref_t := N.
(** The address of a [btree_replicant_t]: what [slice->replicants] holds. *)
Definition replicant_id := nat.

(** Modelled from the spec: [btree_value] (btree/node.hpp is not among the
    sources).  The payload is either an inline byte range or a reference to
    a large value; the accessors below are the ones the walker calls. *)
Inductive value_payload :=
  | Inline (data : list byte)
  | LargeRef (ref : lb_ref_t).

Record btree_value := {
  payload : value_payload;
  mcflags : Z;
  exptime : Z;
  cas_field : option Z;
}.

Definition is_large (v : btree_value) : bool :=
  match payload v with LargeRef _ => true | Inline _ => false end.
Definition lb_ref (v : btree_value) : lb_ref_t :=
  match payload v with LargeRef r => r | Inline _ => 0%N end.
Definition value (v : btree_value) : list byte :=
  match payload v with Inline d => d | LargeRef _ => [] end.
Definition value_size (v : btree_value) : nat := length (value v).
Definition has_cas (v : btree_value) : bool :=
  match cas_field v with Some _ => true | None => false end.
Definition cas (v : btree_value) : Z :=
  match cas_field v with Some c => c | None => 0 end.

Record btree_internal_pair := { ip_key : store_key; lnode : block_id }.
Record btree_leaf_pair := { lp_key : store_key; lp_value : btree_value }.

(** A node as [node_handler] classifies it; [npairs] is the length of the
    list and [pair_offsets[i]] is the lookup of index [i]. *)
Inductive node :=
  | internal_node (pairs : list btree_internal_pair)
  | leaf_node (pairs : list btree_leaf_pair).

(** Modelled from the spec: [large_buf_t] (buffer_cache/large_buf.hpp is not
    among the sources).  A large value is a logical byte blob physically
    split into an ordered sequence of segments; the collaborator exposes the
    segment count and the bytes of the segment at an index. *)
Record large_buf := {
  lb_data : list byte;
  lb_sizes : list nat;
}.

Definition get_num_segments (lb : large_buf) : nat := length (lb_sizes lb).

(** Modelled from the spec: [get_segment(i, &size)] gives the size of
    segment [i] and the memory it starts at. *)
Definition get_segment (lb : large_buf) (i : nat) : nat * list byte :=
  let size := default 0%nat (lb_sizes lb !! i) in
  (size, take size (drop (sum_list (take i (lb_sizes lb))) (lb_data lb))).

(** Modelled from the spec: [const_buffer_group_t], a sequence of contiguous
    byte ranges, each a (size, data) buffer. *)
Record buffer := { b_size : nat; b_data : list byte }.
Definition const_buffer_group := list buffer.

Definition add_buffer (size : nat) (data : list byte)
    (g : const_buffer_group) : const_buffer_group :=
  g ++ [{| b_size := size; b_data := data |}].

(** The bytes a reader of the group sees. *)
Definition group_bytes (g : const_buffer_group) : list byte :=
  concat (map (fun b => take (b_size b) (b_data b)) g).

(** What a read transaction on a slice sees: the superblock's root (None
    stands for NULL_BLOCK_ID), the blocks and the large buffers. *)
Record btree_slice := {
  root_block : option block_id;
  blocks : block_id -> node;
  large_bufs : lb_ref_t -> large_buf;
}.

(** ** Walkers, frames and messages *)

Record branch_walker := {
  bw_id : nat;                      (* the identity of the object *)
  buf : option block_id;            (* unset until on_block_available *)
  current_pair : Z;
  current_key : option store_key;
  current_value : option btree_value;
  large_value : option lb_ref_t;
  buffers : const_buffer_group;
}.

Definition set_buf (b : option block_id) (w : branch_walker) :=
  {| bw_id := bw_id w; buf := b; current_pair := current_pair w;
     current_key := current_key w; current_value := current_value w;
     large_value := large_value w; buffers := buffers w |}.
Definition set_current_pair (p : Z) (w : branch_walker) :=
  {| bw_id := bw_id w; buf := buf w; current_pair := p;
     current_key := current_key w; current_value := current_value w;
     large_value := large_value w; buffers := buffers w |}.
Definition set_current (k : store_key) (v : btree_value) (w : branch_walker) :=
  {| bw_id := bw_id w; buf := buf w; current_pair := current_pair w;
     current_key := Some k; current_value := Some v;
     large_value := large_value w; buffers := buffers w |}.
Definition set_large_value (l : option lb_ref_t) (w : branch_walker) :=
  {| bw_id := bw_id w; buf := buf w; current_pair := current_pair w;
     current_key := current_key w; current_value := current_value w;
     large_value := l; buffers := buffers w |}.
Definition set_buffers (g : const_buffer_group) (w : branch_walker) :=
  {| bw_id := bw_id w; buf := buf w; current_pair := current_pair w;
     current_key := current_key w; current_value := current_value w;
     large_value := large_value w; buffers := g |}.

(** What a suspended walker waits for. *)
Inductive wait :=
  | WBlock (b : block_id)   (* txn->acquire returned NULL *)
  | WLarge                  (* large_value->acquire has not called back *)
  | WDone.                  (* the sink has not called the done callback *)

(** Messages sent with do_on_cpu. *)
Inductive slice_msg := MStart | MInstall | MUninstall.
Inductive home_msg := HReport | HUninstalled.

(** A pending call on a slice's CPU.  [FLoop w i] is the for loop of
    [branch_walker_t::on_block_available] about to test index [i];
    [FReleaseSuper] is the rest of [slice_walker_t::on_block_available]. *)
Inductive frame :=
  | FSuperblock
  | FReleaseSuper
  | FBlock (w : branch_walker) (b : block_id)
  | FLoop (w : branch_walker) (i : nat)
  | FLarge (w : branch_walker)
  | FCopied (w : branch_walker).

(** What the sink is handed by [value()]. *)
Record delivery := {
  d_key : store_key;
  d_buffers : const_buffer_group;
  d_mcflags : Z;
  d_exptime : Z;
  d_cas : Z;
}.

(** The observable steps of the walkers of one slice, newest first.
    [EvConstruct w p b]: walker [w] is constructed for block [b] (the counter
    goes up), by the loop of walker [p] or, for the root, by the slice
    walker; [EvBlock w]: its work starts; [EvAdvance w i]: it moves on to
    pair [i]; [EvDone w]: the sink calls its done callback. *)
Inductive event :=
  | EvConstruct (w : nat) (parent : option nat) (b : block_id)
  | EvBlock (w : nat)
  | EvDestroy (w : nat)
  | EvAdvance (w : nat) (i : Z)
  | EvAcquireLarge (w : nat) (r : lb_ref_t)
  | EvReleaseLarge (w : nat) (r : lb_ref_t)
  | EvDeliver (w : nat) (k : store_key)
  | EvDone (w : nat).

Inductive error :=
  | AssertionFailed (what : string)
  | Fatal (msg : string)
  | UseAfterFree
  | UninitRead
  | BadNode
  | OutOfBounds.

Inductive outcome (A : Type) :=
  | Next (a : A)
  | Crash (e : error)
  | Disabled.
Arguments Next {A} a.
Arguments Crash {A} e.
Arguments Disabled {A}.

Inductive txn_state := TxnNone | TxnOpen | TxnCommitted.

(** One slice: the slice itself ([tree], [replicants]), its
    [slice_walker_t] ([sw_alive], [active_branch_walkers], [txn]), its CPU
    ([queue]: the messages sent to it from the home CPU, in order; [outbox]:
    those it sent back; [stack]: the synchronous calls under way, innermost
    first; [suspended], [awaiting_super]: who waits for a callback) and what
    the sink has been handed on this CPU. *)
Record slice_state := {
  tree : btree_slice;
  replicants : list replicant_id;
  queue : list slice_msg;
  outbox : list home_msg;
  stack : list frame;
  suspended : list (branch_walker * wait);
  awaiting_super : bool;
  sw_alive : bool;
  active_branch_walkers : Z;
  txn : txn_state;
  next_id : nat;
  delivered : list delivery;
  trace : list event;
}.

(** Field updates. *)
Definition set_replicants (v : list replicant_id) (sl : slice_state) : slice_state :=
  {| tree := tree sl; replicants := v; queue := queue sl; outbox := outbox sl; stack := stack sl; suspended := suspended sl; awaiting_super := awaiting_super sl; sw_alive := sw_alive sl; active_branch_walkers := active_branch_walkers sl; txn := txn sl; next_id := next_id sl; delivered := delivered sl; trace := trace sl |}.
Definition set_queue (v : list slice_msg) (sl : slice_state) : slice_state :=
  {| tree := tree sl; replicants := replicants sl; queue := v; outbox := outbox sl; stack := stack sl; suspended := suspended sl; awaiting_super := awaiting_super sl; sw_alive := sw_alive sl; active_branch_walkers := active_branch_walkers sl; txn := txn sl; next_id := next_id sl; delivered := delivered sl; trace := trace sl |}.
Definition set_outbox (v : list home_msg) (sl : slice_state) : slice_state :=
  {| tree := tree sl; replicants := replicants sl; queue := queue sl; outbox := v; stack := stack sl; suspended := suspended sl; awaiting_super := awaiting_super sl; sw_alive := sw_alive sl; active_branch_walkers := active_branch_walkers sl; txn := txn sl; next_id := next_id sl; delivered := delivered sl; trace := trace sl |}.
Definition set_stack (v : list frame) (sl : slice_state) : slice_state :=
  {| tree := tree sl; replicants := replicants sl; queue := queue sl; outbox := outbox sl; stack := v; suspended := suspended sl; awaiting_super := awaiting_super sl; sw_alive := sw_alive sl; active_branch_walkers := active_branch_walkers sl; txn := txn sl; next_id := next_id sl; delivered := delivered sl; trace := trace sl |}.
Definition set_suspended (v : list (branch_walker * wait)) (sl : slice_state) : slice_state :=
  {| tree := tree sl; replicants := replicants sl; queue := queue sl; outbox := outbox sl; stack := stack sl; suspended := v; awaiting_super := awaiting_super sl; sw_alive := sw_alive sl; active_branch_walkers := active_branch_walkers sl; txn := txn sl; next_id := next_id sl; delivered := delivered sl; trace := trace sl |}.
Definition set_awaiting_super (v : bool) (sl : slice_state) : slice_state :=
  {| tree := tree sl; replicants := replicants sl; queue := queue sl; outbox := outbox sl; stack := stack sl; suspended := suspended sl; awaiting_super := v; sw_alive := sw_alive sl; active_branch_walkers := active_branch_walkers sl; txn := txn sl; next_id := next_id sl; delivered := delivered sl; trace := trace sl |}.
Definition set_sw_alive (v : bool) (sl : slice_state) : slice_state :=
  {| tree := tree sl; replicants := replicants sl; queue := queue sl; outbox := outbox sl; stack := stack sl; suspended := suspended sl; awaiting_super := awaiting_super sl; sw_alive := v; active_branch_walkers := active_branch_walkers sl; txn := txn sl; next_id := next_id sl; delivered := delivered sl; trace := trace sl |}.
Definition set_active_branch_walkers (v : Z) (sl : slice_state) : slice_state :=
  {| tree := tree sl; replicants := replicants sl; queue := queue sl; outbox := outbox sl; stack := stack sl; suspended := suspended sl; awaiting_super := awaiting_super sl; sw_alive := sw_alive sl; active_branch_walkers := v; txn := txn sl; next_id := next_id sl; delivered := delivered sl; trace := trace sl |}.
Definition set_txn (v : txn_state) (sl : slice_state) : slice_state :=
  {| tree := tree sl; replicants := replicants sl; queue := queue sl; outbox := outbox sl; stack := stack sl; suspended := suspended sl; awaiting_super := awaiting_super sl; sw_alive := sw_alive sl; active_branch_walkers := active_branch_walkers sl; txn := v; next_id := next_id sl; delivered := delivered sl; trace := trace sl |}.
Definition set_next_id (v : nat) (sl : slice_state) : slice_state :=
  {| tree := tree sl; replicants := replicants sl; queue := queue sl; outbox := outbox sl; stack := stack sl; suspended := suspended sl; awaiting_super := awaiting_super sl; sw_alive := sw_alive sl; active_branch_walkers := active_branch_walkers sl; txn := txn sl; next_id := v; delivered := delivered sl; trace := trace sl |}.
Definition set_delivered (v : list delivery) (sl : slice_state) : slice_state :=
  {| tree := tree sl; replicants := replicants sl; queue := queue sl; outbox := outbox sl; stack := stack sl; suspended := suspended sl; awaiting_super := awaiting_super sl; sw_alive := sw_alive sl; active_branch_walkers := active_branch_walkers sl; txn := txn sl; next_id := next_id sl; delivered := v; trace := trace sl |}.
Definition set_trace (v : list event) (sl : slice_state) : slice_state :=
  {| tree := tree sl; replicants := replicants sl; queue := queue sl; outbox := outbox sl; stack := stack sl; suspended := suspended sl; awaiting_super := awaiting_super sl; sw_alive := sw_alive sl; active_branch_walkers := active_branch_walkers sl; txn := txn sl; next_id := next_id sl; delivered := delivered sl; trace := v |}.

Definition push (f : frame) (sl : slice_state) : slice_state :=
  set_stack (f :: stack sl) sl.
Definition suspend (w : branch_walker) (wt : wait) (sl : slice_state) : slice_state :=
  set_suspended (suspended sl ++ [(w, wt)]) sl.
Definition emit (e : event) (sl : slice_state) : slice_state :=
  set_trace (e :: trace sl) sl.
Definition send_home (m : home_msg) (sl : slice_state) : slice_state :=
  set_outbox (outbox sl ++ [m]) sl.

(** The call a suspended walker is resumed with. *)
Definition resume (w : branch_walker) (wt : wait) : frame :=
  match wt with
  | WBlock b => FBlock w b
  | WLarge => FLarge w
  | WDone => FCopied w
  end.

(** The callback of walker [w] is invoked; the sink invoking the done
    callback is an observable step. *)
Definition called_back (w : branch_walker) (wt : wait) (sl : slice_state) : slice_state :=
  match wt with
  | WDone => emit (EvDone (bw_id w)) sl
  | _ => sl
  end.

(** Walker [w] asks the cache for a block or a large buffer, or hands a value
    to the sink, with itself as the callback: the callee calls back before it
    returns ([sync]), or it returns and the walker stays suspended until the
    callback comes. *)
Definition request (w : branch_walker) (wt : wait) (sync : bool) (sl : slice_state)
    : slice_state :=
  if sync then push (resume w wt) (called_back w wt sl) else suspend w wt sl.

(** ** slice_walker_t *)

Module slice_walker_t.

(** [done()]: the commit must succeed, then [report] is sent to the home
    CPU. *)
Definition done (sl : slice_state) : outcome slice_state :=
  match txn sl with
  | TxnOpen => Next (send_home HReport (set_txn TxnCommitted sl))
  | _ => Crash (AssertionFailed "committed"%string)
  end.

(** [start()]: the read transaction begins right away; the superblock is
    there at once ([sync]) or the walker is called back. *)
Definition start (sync : bool) (sl : slice_state) : outcome slice_state :=
  let sl := set_txn TxnOpen sl in
  Next (if sync then push FSuperblock sl else set_awaiting_super true sl).

End slice_walker_t.

(** ** branch_walker_t *)

Module branch_walker_t.

(** The constructor ([walk_branch]): the counter of the slice walker goes up
    before the block is asked for. *)
Definition new (parent : option nat) (block : block_id) (sync : bool)
    (sl : slice_state) : slice_state :=
  let w := {| bw_id := next_id sl; buf := None; current_pair := 0;
              current_key := None; current_value := None;
              large_value := None; buffers := [] |} in
  let sl := set_next_id (S (next_id sl)) sl in
  let sl := set_active_branch_walkers (active_branch_walkers sl + 1) sl in
  let sl := emit (EvConstruct (bw_id w) parent block) sl in
  request w (WBlock block) sync sl.

(** The destructor ([delete this]). *)
Definition delete (w : branch_walker) (sl : slice_state) : outcome slice_state :=
  match buf w with
  | None => Crash UninitRead
  | Some _ =>
      let sl := set_active_branch_walkers (active_branch_walkers sl - 1) sl in
      let sl := emit (EvDestroy (bw_id w)) sl in
      if active_branch_walkers sl =? 0 then slice_walker_t.done sl else Next sl
  end.

(** [deliver_value()]: the sink is handed the key and the buffer group with
    the walker as done callback; it calls back at once ([sync]) or later. *)
Definition deliver_value (w : branch_walker) (sync : bool) (sl : slice_state)
    : outcome slice_state :=
  match current_key w, current_value w with
  | Some k, Some v =>
      let d := {| d_key := k; d_buffers := buffers w; d_mcflags := mcflags v;
                  d_exptime := exptime v;
                  d_cas := if has_cas v then cas v else 0 |} in
      let sl := set_delivered (delivered sl ++ [d]) sl in
      let sl := emit (EvDeliver (bw_id w) k) sl in
      Next (request w WDone sync sl)
  | _, _ => Crash UninitRead
  end.

(** [have_copied_value()]. *)
Definition have_copied_value (w : branch_walker) (sync : bool) (sl : slice_state)
    : outcome slice_state :=
  let sl := match large_value w with
            | Some r => emit (EvReleaseLarge (bw_id w) r) sl
            | None => sl
            end in
  let w := set_current_pair (current_pair w + 1) w in
  let sl := emit (EvAdvance (bw_id w) (current_pair w)) sl in
  match buf w with
  | None => Crash UninitRead
  | Some b =>
      match blocks (tree sl) b with
      | internal_node _ => Crash BadNode
      | leaf_node pairs =>
          if current_pair w =? Z.of_nat (length pairs) then delete w sl
          else if current_pair w <? 0 then Crash OutOfBounds
          else match pairs !! Z.to_nat (current_pair w) with
               | None => Crash OutOfBounds
               | Some p =>
                   let v := lp_value p in
                   let w := set_current (lp_key p) v w in
                   if is_large v then
                     let w := set_large_value (Some (lb_ref v)) w in
                     let sl := emit (EvAcquireLarge (bw_id w) (lb_ref v)) sl in
                     Next (request w WLarge sync sl)
                   else
                     let w := set_large_value None w in
                     let w := set_buffers (add_buffer (value_size v) (value v) []) w in
                     deliver_value w sync sl
               end
      end
  end.

(** The loop of [on_large_buf_available]: segments 0 to [n - 1] are added
    to the cleared group in index order. *)
Definition segment_buffers (lb : large_buf) : const_buffer_group :=
  fold_left (fun g i => let '(size, data) := get_segment lb i in add_buffer size data g)
            (seq 0 (get_num_segments lb)) [].

Definition on_large_buf_available (w : branch_walker) (sync : bool) (sl : slice_state)
    : outcome slice_state :=
  match large_value w with
  | None => Crash UninitRead
  | Some r =>
      deliver_value (set_buffers (segment_buffers (large_bufs (tree sl) r)) w) sync sl
  end.

(** [on_block_available(b)]: an internal node enters the loop over its
    pairs, a leaf starts with the pair before the first. *)
Definition on_block_available (w : branch_walker) (b : block_id) (sync : bool)
    (sl : slice_state) : outcome slice_state :=
  let w := set_buf (Some b) w in
  let sl := emit (EvBlock (bw_id w)) sl in
  match blocks (tree sl) b with
  | internal_node _ => Next (push (FLoop w 0) sl)
  | leaf_node _ =>
      have_copied_value (set_large_value None (set_current_pair (-1) w)) sync sl
  end.

(** One turn of the loop of [on_block_available]: [walk_branch] on pair [i]
    while [i < npairs], then [delete this]. *)
Definition loop (w : branch_walker) (i : nat) (sync : bool) (sl : slice_state)
    : outcome slice_state :=
  match buf w with
  | None => Crash UninitRead
  | Some b =>
      match blocks (tree sl) b with
      | leaf_node _ => Crash BadNode
      | internal_node pairs =>
          match pairs !! i with
          | Some p => Next (new (Some (bw_id w)) (lnode p) sync (push (FLoop w (S i)) sl))
          | None => delete w sl
          end
      end
  end.

End branch_walker_t.

(** [slice_walker_t::on_block_available]: the superblock is read; the
    release of its buffer stays behind as [FReleaseSuper]. *)
Definition superblock_available (sync : bool) (sl : slice_state) : outcome slice_state :=
  let sl := push FReleaseSuper sl in
  match root_block (tree sl) with
  | Some root => Next (branch_walker_t.new None root sync sl)
  | None => slice_walker_t.done sl
  end.

(** ** The trigger registry: install and uninstall on the slice's CPU *)

(** The iterator loop of [uninstall]: the index of the first entry equal to
    [this]. *)
Fixpoint find_replicant (this : replicant_id) (l : list replicant_id) : option nat :=
  match l with
  | [] => None
  | x :: l => if decide (x = this) then Some 0%nat else S <$> find_replicant this l
  end.

Definition install (this : replicant_id) (sl : slice_state) : slice_state :=
  set_replicants (replicants sl ++ [this]) sl.

Definition uninstall (this : replicant_id) (stopping : bool) (sl : slice_state)
    : outcome slice_state :=
  if negb stopping then Crash (AssertionFailed "stopping"%string)
  else match find_replicant this (replicants sl) with
       | Some i => Next (send_home HUninstalled (set_replicants (delete i (replicants sl)) sl))
       | None => Crash (Fatal "We were never installed on this slice."%string)
       end.

(** ** One slice's CPU *)

Inductive slice_label :=
  | SMsg (sync : bool)      (* the next do_on_cpu message runs *)
  | SSuper                  (* the cache calls back with the superblock *)
  | SCallback (k : nat)     (* the cache or the sink calls back walker k *)
  | SRun (sync : bool).     (* the innermost pending call runs *)

Definition run_msg (this : replicant_id) (stopping : bool) (m : slice_msg) (sync : bool)
    (sl : slice_state) : outcome slice_state :=
  match m with
  | MStart => slice_walker_t.start sync sl
  | MInstall => Next (install this sl)
  | MUninstall => uninstall this stopping sl
  end.

Definition run_frame (f : frame) (sync : bool) (sl : slice_state) : outcome slice_state :=
  match f with
  | FSuperblock => superblock_available sync sl
  | FReleaseSuper => Next sl
  | FBlock w b => branch_walker_t.on_block_available w b sync sl
  | FLoop w i => branch_walker_t.loop w i sync sl
  | FLarge w => branch_walker_t.on_large_buf_available w sync sl
  | FCopied w => branch_walker_t.have_copied_value w sync sl
  end.

Definition slice_exec (this : replicant_id) (stopping : bool) (a : slice_label)
    (sl : slice_state) : outcome slice_state :=
  match a, stack sl with
  | SRun sync, f :: rest => run_frame f sync (set_stack rest sl)
  | SMsg sync, [] =>
      match queue sl with
      | m :: q => run_msg this stopping m sync (set_queue q sl)
      | [] => Disabled
      end
  | SSuper, [] =>
      if awaiting_super sl then Next (push FSuperblock (set_awaiting_super false sl))
      else Disabled
  | SCallback k, [] =>
      match suspended sl !! k with
      | Some (w, wt) =>
          let sl := set_suspended (delete k (suspended sl)) sl in
          Next (push (resume w wt) (called_back w wt sl))
      | None => Disabled
      end
  | _, _ => Disabled
  end.

(** ** btree_replicant_t and the whole machine *)

Record state := {
  this_id : replicant_id;
  r_alive : bool;
  stopping : bool;
  active_slice_walkers : Z;
  active_uninstallations : option Z;   (* None: not yet assigned *)
  slices : list slice_state;
  stopped_calls : nat;                 (* calls of callback->stopped() *)
}.

Definition set_r_alive (v : bool) (s : state) : state :=
  {| this_id := this_id s; r_alive := v; stopping := stopping s;
     active_slice_walkers := active_slice_walkers s;
     active_uninstallations := active_uninstallations s; slices := slices s;
     stopped_calls := stopped_calls s |}.
Definition set_stopping (v : bool) (s : state) : state :=
  {| this_id := this_id s; r_alive := r_alive s; stopping := v;
     active_slice_walkers := active_slice_walkers s;
     active_uninstallations := active_uninstallations s; slices := slices s;
     stopped_calls := stopped_calls s |}.
Definition set_active_slice_walkers (v : Z) (s : state) : state :=
  {| this_id := this_id s; r_alive := r_alive s; stopping := stopping s;
     active_slice_walkers := v;
     active_uninstallations := active_uninstallations s; slices := slices s;
     stopped_calls := stopped_calls s |}.
Definition set_active_uninstallations (v : option Z) (s : state) : state :=
  {| this_id := this_id s; r_alive := r_alive s; stopping := stopping s;
     active_slice_walkers := active_slice_walkers s;
     active_uninstallations := v; slices := slices s;
     stopped_calls := stopped_calls s |}.
Definition set_slices (v : list slice_state) (s : state) : state :=
  {| this_id := this_id s; r_alive := r_alive s; stopping := stopping s;
     active_slice_walkers := active_slice_walkers s;
     active_uninstallations := active_uninstallations s; slices := v;
     stopped_calls := stopped_calls s |}.
Definition set_stopped_calls (v : nat) (s : state) : state :=
  {| this_id := this_id s; r_alive := r_alive s; stopping := stopping s;
     active_slice_walkers := active_slice_walkers s;
     active_uninstallations := active_uninstallations s; slices := slices s;
     stopped_calls := v |}.

(** [do_on_cpu(slice->home_cpu, this, &btree_replicant_t::uninstall, slice)]. *)
Definition enqueue_uninstall (sl : slice_state) : slice_state :=
  set_queue (queue sl ++ [MUninstall]) sl.

Module btree_replicant_t.

(** [done()]. *)
Definition done (s : state) : outcome state :=
  if stopping s then
    Next (set_r_alive false (set_stopped_calls (S (stopped_calls s)) s))
  else Crash (AssertionFailed "stopping"%string).

(** [slice_walker_done()]: the condition is evaluated left to right, so
    [active_uninstallations] is read only when the two tests before it
    hold. *)
Definition slice_walker_done (s : state) : outcome state :=
  if negb (r_alive s) then Crash UseAfterFree else
  let s := set_active_slice_walkers (active_slice_walkers s - 1) s in
  if active_slice_walkers s <? 0 then Crash (AssertionFailed "active_slice_walkers >= 0"%string)
  else if stopping s then
    if active_slice_walkers s =? 0 then
      match active_uninstallations s with
      | None => Crash UninitRead
      | Some u => if u =? 0 then done s else Next s
      end
    else Next s
  else Next s.

(** [have_uninstalled()]. *)
Definition have_uninstalled (s : state) : outcome state :=
  if negb (r_alive s) then Crash UseAfterFree else
  if negb (stopping s) then Crash (AssertionFailed "stopping"%string) else
  match active_uninstallations s with
  | None => Crash UninitRead
  | Some u =>
      let s := set_active_uninstallations (Some (u - 1)) s in
      if u - 1 <? 0 then Crash (AssertionFailed "active_uninstallations >= 0"%string)
      else if (u - 1 =? 0) && (active_slice_walkers s =? 0) then done s
      else Next s
  end.

(** [stop()]: one uninstall request per slice, sent to its home CPU. *)
Definition stop (s : state) : outcome state :=
  if negb (r_alive s) then Crash UseAfterFree else
  let s := set_stopping true s in
  let s := set_active_uninstallations (Some (Z.of_nat (length (slices s)))) s in
  Next (set_slices (map enqueue_uninstall (slices s)) s).

(** The constructor: a slice walker per slice, whose [start] is sent to the
    slice's CPU, then an install request per slice.  [store] gives what each
    slice's transaction will see and [registry] what its trigger registry
    holds at this time. *)
Definition new_slice (sl : btree_slice * list replicant_id) : slice_state :=
  {| tree := sl.1; replicants := sl.2; queue := [MStart; MInstall]; outbox := [];
     stack := []; suspended := []; awaiting_super := false; sw_alive := true;
     active_branch_walkers := 0; txn := TxnNone; next_id := 0;
     delivered := []; trace := [] |}.

Definition new (this : replicant_id) (store : list (btree_slice * list replicant_id)) : state :=
  {| this_id := this; r_alive := true; stopping := false;
     active_slice_walkers := Z.of_nat (length store);
     active_uninstallations := None;
     slices := map new_slice store; stopped_calls := 0 |}.

End btree_replicant_t.

(** [slice_walker_t::report()], on the home CPU: the replicant is told, then
    the slice walker deletes itself. *)
Definition report (i : nat) (s : state) : outcome state :=
  match btree_replicant_t.slice_walker_done s with
  | Next s =>
      match slices s !! i with
      | Some sl => Next (set_slices (<[i := set_sw_alive false sl]> (slices s)) s)
      | None => Crash OutOfBounds
      end
  | o => o
  end.

Inductive label :=
  | LStop                             (* the user calls stop() *)
  | LHome (i : nat)                   (* the home CPU takes slice i's next message *)
  | LSlice (i : nat) (a : slice_label).

Definition exec (l : label) (s : state) : outcome state :=
  match l with
  | LStop => btree_replicant_t.stop s
  | LHome i =>
      match slices s !! i with
      | Some sl =>
          match outbox sl with
          | m :: ob =>
              let s := set_slices (<[i := set_outbox ob sl]> (slices s)) s in
              match m with
              | HReport => report i s
              | HUninstalled => btree_replicant_t.have_uninstalled s
              end
          | [] => Disabled
          end
      | None => Disabled
      end
  | LSlice i a =>
      match slices s !! i with
      | Some sl =>
          match slice_exec (this_id s) (stopping s) a sl with
          | Next sl => Next (set_slices (<[i := sl]> (slices s)) s)
          | Crash e => Crash e
          | Disabled => Disabled
          end
      | None => Disabled
      end
  end.

(** The user of a replicant calls [stop()] once. *)
Definition legal (l : label) (s : state) : bool :=
  match l with LStop => negb (stopping s) | _ => true end.

Definition step (l : label) (s : state) : outcome state :=
  if legal l s then exec l s else Disabled.

Fixpoint run (ls : list label) (s : state) : outcome state :=
  match ls with
  | [] => Next s
  | l :: ls => match step l s with Next s => run ls s | o => o end
  end.

(** ** What the theorems are stated with *)

(** The blocks under [b] form a tree of height at most [h]. *)
Fixpoint tree_within (t : btree_slice) (h : nat) (b : block_id) : Prop :=
  match blocks t b with
  | leaf_node _ => True
  | internal_node ps =>
      match h with
      | O => False
      | S h => Forall (fun p => tree_within t h (lnode p)) ps
      end
  end.

(** A fold over the tree under [b], down to depth [h]. *)
Fixpoint subtree_fold {A} (leaf : list btree_leaf_pair -> A) (internal : list A -> A)
    (t : btree_slice) (h : nat) (b : block_id) : A :=
  match blocks t b with
  | leaf_node es => leaf es
  | internal_node ps =>
      match h with
      | O => internal []
      | S h => internal (map (fun p => subtree_fold leaf internal t h (lnode p)) ps)
      end
  end.

(** The leaf pairs under [b], leaves from left to right. *)
Definition entries (t : btree_slice) (h : nat) (b : block_id) : list btree_leaf_pair :=
  subtree_fold (fun es => es) (fun l => concat l) t h b.

Definition root_entries (t : btree_slice) (h : nat) : list btree_leaf_pair :=
  match root_block t with Some r => entries t h r | None => [] end.

Definition root_within (h : nat) (t : btree_slice) : Prop :=
  match root_block t with Some r => tree_within t h r | None => True end.

(** The segments of a large buffer tile its bytes. *)
Definition segments_tile (lb : large_buf) : Prop :=
  sum_list (lb_sizes lb) = length (lb_data lb).

(** The bytes stored for a value. *)
Definition stored_bytes (t : btree_slice) (v : btree_value) : list byte :=
  match payload v with
  | Inline d => d
  | LargeRef r => lb_data (large_bufs t r)
  end.

(** What a delivery shows the sink, and what a stored pair should show. *)
Definition view : Type := store_key * list byte * Z * Z * Z.

Definition delivery_view (d : delivery) : view :=
  (d_key d, group_bytes (d_buffers d), d_mcflags d, d_exptime d, d_cas d).

Definition stored_view (t : btree_slice) (p : btree_leaf_pair) : view :=
  let v := lp_value p in
  (lp_key p, stored_bytes t v, mcflags v, exptime v, if has_cas v then cas v else 0).

(** The walkers alive on a slice and the messages it has not handled. *)
Definition frame_walker (f : frame) : option branch_walker :=
  match f with
  | FBlock w _ | FLoop w _ | FLarge w | FCopied w => Some w
  | _ => None
  end.

Fixpoint stack_walkers (st : list frame) : list branch_walker :=
  match st with
  | [] => []
  | f :: st =>
      match frame_walker f with
      | Some w => w :: stack_walkers st
      | None => stack_walkers st
      end
  end.

Definition live_walkers (sl : slice_state) : list branch_walker :=
  stack_walkers (stack sl) ++ map fst (suspended sl).


Definition is_construct (e : event) : bool :=
  match e with EvConstruct _ _ _ => true | _ => false end.
Definition is_destroy (e : event) : bool :=
  match e with EvDestroy _ => true | _ => false end.

Definition count_if {A} (p : A -> bool) (l : list A) : nat :=
  length (List.filter p l).

Definition constructions (sl : slice_state) : nat := count_if is_construct (trace sl).
Definition destructions (sl : slice_state) : nat := count_if is_destroy (trace sl).

Definition is_report (m : home_msg) : bool :=
  match m with HReport => true | HUninstalled => false end.
Definition is_uninstalled (m : home_msg) : bool :=
  match m with HUninstalled => true | HReport => false end.
Definition is_super (f : frame) : bool :=
  match f with FSuperblock => true | _ => false end.

(** The superblock the slice walker still waits for or is about to read. *)
Definition supers (sl : slice_state) : nat :=
  (count_if is_super (stack sl) + if awaiting_super sl then 1 else 0)%nat.

(** What the home CPU has sent to a slice, in order. *)
Definition msgs_sent (stopping : bool) : list slice_msg :=
  MStart :: MInstall :: (if stopping then [MUninstall] else []).

(** ** Invariants of a slice *)

(** The counter of the slice walker counts the walkers alive, and every
    construction is matched by the walker being alive or by its
    destruction. *)
Definition counter_inv (sl : slice_state) : Prop :=
  active_branch_walkers sl = Z.of_nat (length (live_walkers sl)) /\
  constructions sl = (destructions sl + length (live_walkers sl))%nat.

(** Where a slice is in its life: its queue is what is left of the messages
    sent to it after [n] of them ran; the coordinator is in the registry
    between its install and its uninstall; an uninstall is acknowledged at
    most once; and the scan is in one place only, the start message, the
    superblock, the live walkers, or the report to the home CPU. *)
Definition slice_inv (this : replicant_id) (stopping : bool) (sl : slice_state) : Prop :=
  exists n : nat,
    queue sl = drop n (msgs_sent stopping) /\
    (n <= length (msgs_sent stopping))%nat /\
    (n = 2%nat -> this ∈ replicants sl) /\
    (n <> 3%nat -> count_if is_uninstalled (outbox sl) = 0%nat) /\
    (count_if is_uninstalled (outbox sl) <= 1)%nat /\
    match txn sl with
    | TxnNone =>
        n = 0%nat /\ supers sl = 0%nat /\ length (live_walkers sl) = 0%nat /\
        count_if is_report (outbox sl) = 0%nat /\ sw_alive sl = true
    | TxnOpen =>
        n <> 0%nat /\
        ((supers sl = 1%nat /\ length (live_walkers sl) = 0%nat) \/
         (supers sl = 0%nat /\ (0 < length (live_walkers sl))%nat)) /\
        count_if is_report (outbox sl) = 0%nat /\ sw_alive sl = true
    | TxnCommitted =>
        n <> 0%nat /\ supers sl = 0%nat /\ length (live_walkers sl) = 0%nat /\
        count_if is_report (outbox sl) = (if sw_alive sl then 1 else 0)%nat
    end.

(** Every pending call and every suspended walker is in a state its handler
    can run in: the block it holds is of the kind it iterates over and its
    pair index is within the leaf. *)
Definition frame_ok (t : btree_slice) (f : frame) : Prop :=
  match f with
  | FSuperblock | FReleaseSuper | FBlock _ _ => True
  | FLoop w i => exists b ps, buf w = Some b /\ blocks t b = internal_node ps
  | FLarge w =>
      exists b es p,
        buf w = Some b /\ blocks t b = leaf_node es /\
        0 <= current_pair w /\ es !! Z.to_nat (current_pair w) = Some p /\
        current_key w = Some (lp_key p) /\ current_value w = Some (lp_value p) /\
        is_large (lp_value p) = true /\ large_value w = Some (lb_ref (lp_value p))
  | FCopied w =>
      exists b es,
        buf w = Some b /\ blocks t b = leaf_node es /\
        0 <= current_pair w < Z.of_nat (length es)
  end.

Definition walkers_ok (sl : slice_state) : Prop :=
  Forall (frame_ok (tree sl)) (stack sl) /\
  Forall (fun x => frame_ok (tree sl) (resume x.1 x.2)) (suspended sl).

(** What a walker has still to visit is a tree of height at most [h]. *)
Definition frame_within (h : nat) (t : btree_slice) (f : frame) : Prop :=
  match f with
  | FBlock w b => tree_within t h b
  | FLoop w i => exists b, buf w = Some b /\ tree_within t h b
  | _ => True
  end.

Definition walkers_within (h : nat) (sl : slice_state) : Prop :=
  Forall (frame_within h (tree sl)) (stack sl) /\
  Forall (fun x => frame_within h (tree sl) (resume x.1 x.2)) (suspended sl) /\
  root_within h (tree sl).

(** ** Invariants of the whole machine *)

(** Every slice's tree has height at most [h]. *)
Definition within (h : nat) (s : state) : Prop :=
  Forall (walkers_within h) (slices s).

Definition is_uninstall (m : slice_msg) : bool :=
  match m with MUninstall => true | _ => false end.

(** A slice whose walker has not reported, and the uninstall of a slice
    that the coordinator has not been told of. *)
Definition scanning (sl : slice_state) : nat := if sw_alive sl then 1 else 0.
Definition uninstalling (sl : slice_state) : nat :=
  (count_if is_uninstall (queue sl) + count_if is_uninstalled (outbox sl))%nat.

Definition total (f : slice_state -> nat) (s : state) : nat :=
  sum_list (map f (slices s)).

Definition state_inv (s : state) : Prop :=
  Forall (fun sl => counter_inv sl /\ slice_inv (this_id s) (stopping s) sl /\ walkers_ok sl)
         (slices s) /\
  active_slice_walkers s = Z.of_nat (total scanning s) /\
  (if stopping s
   then active_uninstallations s = Some (Z.of_nat (total uninstalling s))
   else active_uninstallations s = None /\ r_alive s = true /\ total uninstalling s = 0%nat) /\
  (if r_alive s
   then stopped_calls s = 0%nat /\
        (stopping s = true -> slices s <> [] ->
         (0 < total scanning s + total uninstalling s)%nat)
   else stopped_calls s = 1%nat /\ stopping s = true /\
        total scanning s = 0%nat /\ total uninstalling s = 0%nat).

(** ** What is left to deliver *)

(** The pairs of its leaf from index [i] on. *)
Definition leaf_rest (t : btree_slice) (w : branch_walker) (i : Z) : list btree_leaf_pair :=
  match buf w with
  | Some b =>
      match blocks t b with
      | leaf_node es => drop (Z.to_nat i) es
      | internal_node _ => []
      end
  | None => []
  end.

(** The pairs a pending call will still hand to the sink, itself or
    through the walkers it starts. *)
Definition frame_todo (t : btree_slice) (h : nat) (f : frame) : list btree_leaf_pair :=
  match f with
  | FSuperblock => root_entries t h
  | FReleaseSuper => []
  | FBlock w b => entries t h b
  | FLoop w i =>
      match buf w with
      | Some b =>
          match blocks t b with
          | internal_node ps => concat (map (fun p => entries t h (lnode p)) (drop i ps))
          | leaf_node _ => []
          end
      | None => []
      end
  | FLarge w => leaf_rest t w (current_pair w)
  | FCopied w => leaf_rest t w (current_pair w + 1)
  end.

Definition slice_todo (h : nat) (sl : slice_state) : list btree_leaf_pair :=
  (match txn sl with TxnNone => root_entries (tree sl) h | _ => [] end) ++
  (if awaiting_super sl then root_entries (tree sl) h else []) ++
  concat (map (frame_todo (tree sl) h) (stack sl)) ++
  concat (map (fun x => frame_todo (tree sl) h (resume x.1 x.2)) (suspended sl)).

(** What the sink has been shown and what it will still be shown make up
    the pairs of the tree. *)
Definition seen (h : nat) (sl : slice_state) : list view :=
  map delivery_view (delivered sl) ++ map (stored_view (tree sl)) (slice_todo h sl).

Definition scan_inv (h : nat) (sl : slice_state) : Prop :=
  seen h sl ≡ₚ map (stored_view (tree sl)) (root_entries (tree sl) h).

(** The segments of every large value of the slice tile its bytes. *)
Definition larges_tile (t : btree_slice) : Prop :=
  forall r, segments_tile (large_bufs t r).

(** ** How much is left to do

    A bound on the number of steps the machine can still take: every step
    makes it smaller. *)

Definition leaf_cost (es : list btree_leaf_pair) : nat := 2 + 4 * length es.
Definition internal_cost (cs : list nat) : nat :=
  3 + sum_list (map (fun c => 2 + c)%nat cs).

Definition block_cost (t : btree_slice) (h : nat) (b : block_id) : nat :=
  subtree_fold leaf_cost internal_cost t h b.

(** The pairs of its leaf that a walker has not moved on to. *)
Definition pairs_left (t : btree_slice) (w : branch_walker) : nat :=
  match buf w with
  | Some b =>
      match blocks t b with
      | leaf_node es => length es - Z.to_nat (current_pair w + 1)
      | internal_node _ => 0
      end
  | None => 0
  end.

Definition children_cost (t : btree_slice) (h : nat) (ps : list btree_internal_pair) : nat :=
  sum_list (map (fun p => 2 + block_cost t h (lnode p))%nat ps).

Definition superblock_cost (t : btree_slice) (h : nat) : nat :=
  3 + match root_block t with Some r => 1 + block_cost t h r | None => 0 end.

Definition frame_cost (t : btree_slice) (h : nat) (f : frame) : nat :=
  match f with
  | FSuperblock => superblock_cost t h
  | FReleaseSuper => 1
  | FBlock w b => block_cost t h b
  | FLoop w i =>
      2 + match buf w with
          | Some b =>
              match blocks t b with
              | internal_node ps => children_cost t h (drop i ps)
              | leaf_node _ => 0
              end
          | None => 0
          end
  | FLarge w => 4 + 4 * pairs_left t w
  | FCopied w => 2 + 4 * pairs_left t w
  end.

Definition msg_cost (t : btree_slice) (h : nat) (m : slice_msg) : nat :=
  match m with
  | MStart => 2 + superblock_cost t h
  | MInstall => 1
  | MUninstall => 2
  end.

Definition slice_cost (h : nat) (sl : slice_state) : nat :=
  sum_list (map (msg_cost (tree sl) h) (queue sl)) +
  length (outbox sl) +
  sum_list (map (frame_cost (tree sl) h) (stack sl)) +
  sum_list (map (fun x => 1 + frame_cost (tree sl) h (resume x.1 x.2))%nat (suspended sl)) +
  (if awaiting_super sl then 1 + superblock_cost (tree sl) h else 0).

Definition cost (h : nat) (s : state) : nat :=
  (if stopping s then 0 else 1 + 3 * length (slices s)) +
  sum_list (map (slice_cost h) (slices s)).

(** ** The steps of a slice as rules

    The same steps as [slice_exec], one rule per path through the handlers;
    [slice_exec_step] below shows that every step of [slice_exec] is one of
    them. *)

(** [delete this] in a branch walker. *)
Inductive delete_step (w : branch_walker) (sl : slice_state) : slice_state -> Prop :=
  | delete_more b :
      buf w = Some b ->
      active_branch_walkers sl - 1 <> 0 ->
      delete_step w sl
        (emit (EvDestroy (bw_id w))
           (set_active_branch_walkers (active_branch_walkers sl - 1) sl))
  | delete_last b :
      buf w = Some b ->
      active_branch_walkers sl - 1 = 0 ->
      txn sl = TxnOpen ->
      delete_step w sl
        (send_home HReport (set_txn TxnCommitted
           (emit (EvDestroy (bw_id w))
              (set_active_branch_walkers (active_branch_walkers sl - 1) sl)))).

(** The release of the large value of the pair before. *)
Definition release_large (w : branch_walker) (sl : slice_state) : slice_state :=
  match large_value w with
  | Some r => emit (EvReleaseLarge (bw_id w) r) sl
  | None => sl
  end.

(** [have_copied_value] of a walker whose pair index is [current_pair w]. *)
Inductive copied_step (w : branch_walker) (sync : bool) (sl : slice_state)
    : slice_state -> Prop :=
  | copied_end b es sl' :
      buf w = Some b -> blocks (tree sl) b = leaf_node es ->
      current_pair w + 1 = Z.of_nat (length es) ->
      delete_step (set_current_pair (current_pair w + 1) w)
        (emit (EvAdvance (bw_id w) (current_pair w + 1)) (release_large w sl)) sl' ->
      copied_step w sync sl sl'
  | copied_large b es p :
      buf w = Some b -> blocks (tree sl) b = leaf_node es ->
      0 <= current_pair w + 1 ->
      es !! Z.to_nat (current_pair w + 1) = Some p ->
      is_large (lp_value p) = true ->
      copied_step w sync sl
        (request
           (set_large_value (Some (lb_ref (lp_value p)))
              (set_current (lp_key p) (lp_value p)
                 (set_current_pair (current_pair w + 1) w)))
           WLarge sync
           (emit (EvAcquireLarge (bw_id w) (lb_ref (lp_value p)))
              (emit (EvAdvance (bw_id w) (current_pair w + 1)) (release_large w sl))))
  | copied_inline b es p :
      buf w = Some b -> blocks (tree sl) b = leaf_node es ->
      0 <= current_pair w + 1 ->
      es !! Z.to_nat (current_pair w + 1) = Some p ->
      is_large (lp_value p) = false ->
      let v := lp_value p in
      let w' := set_buffers (add_buffer (value_size v) (value v) [])
                  (set_large_value None
                     (set_current (lp_key p) v
                        (set_current_pair (current_pair w + 1) w))) in
      let sl1 := emit (EvAdvance (bw_id w) (current_pair w + 1)) (release_large w sl) in
      copied_step w sync sl
        (request w' WDone sync
           (emit (EvDeliver (bw_id w) (lp_key p))
              (set_delivered
                 (delivered sl ++
                    [{| d_key := lp_key p; d_buffers := buffers w';
                        d_mcflags := mcflags v; d_exptime := exptime v;
                        d_cas := if has_cas v then cas v else 0 |}])
                 sl1))).

(** The next message runs on an idle CPU. *)
Inductive msg_step (this : replicant_id) (stopping : bool) (sync : bool)
    (sl : slice_state) : slice_msg -> slice_state -> Prop :=
  | run_start :
      msg_step this stopping sync sl MStart
        (if sync then push FSuperblock (set_txn TxnOpen sl)
         else set_awaiting_super true (set_txn TxnOpen sl))
  | run_install :
      msg_step this stopping sync sl MInstall (install this sl)
  | run_uninstall i :
      stopping = true ->
      find_replicant this (replicants sl) = Some i ->
      msg_step this stopping sync sl MUninstall
        (send_home HUninstalled (set_replicants (delete i (replicants sl)) sl)).

(** The innermost pending call [f] runs on a slice whose stack holds the
    calls around it. *)
Inductive frame_step (sync : bool) (sl : slice_state) : frame -> slice_state -> Prop :=
  | run_super_root root :
      root_block (tree sl) = Some root ->
      frame_step sync sl FSuperblock
        (branch_walker_t.new None root sync (push FReleaseSuper sl))
  | run_super_empty :
      root_block (tree sl) = None ->
      txn sl = TxnOpen ->
      frame_step sync sl FSuperblock
        (send_home HReport (set_txn TxnCommitted (push FReleaseSuper sl)))
  | run_release_super :
      frame_step sync sl FReleaseSuper sl
  | run_block_internal w b ps :
      blocks (tree sl) b = internal_node ps ->
      frame_step sync sl (FBlock w b)
        (push (FLoop (set_buf (Some b) w) 0) (emit (EvBlock (bw_id w)) sl))
  | run_block_leaf w b es sl' :
      blocks (tree sl) b = leaf_node es ->
      copied_step (set_large_value None (set_current_pair (-1) (set_buf (Some b) w)))
        sync (emit (EvBlock (bw_id w)) sl) sl' ->
      frame_step sync sl (FBlock w b) sl'
  | run_loop_spawn w i b ps p :
      buf w = Some b -> blocks (tree sl) b = internal_node ps ->
      ps !! i = Some p ->
      frame_step sync sl (FLoop w i)
        (branch_walker_t.new (Some (bw_id w)) (lnode p) sync (push (FLoop w (S i)) sl))
  | run_loop_end w i b ps sl' :
      buf w = Some b -> blocks (tree sl) b = internal_node ps ->
      ps !! i = None ->
      delete_step w sl sl' ->
      frame_step sync sl (FLoop w i) sl'
  | run_large w r k v :
      large_value w = Some r -> current_key w = Some k -> current_value w = Some v ->
      let w' := set_buffers (branch_walker_t.segment_buffers (large_bufs (tree sl) r)) w in
      frame_step sync sl (FLarge w)
        (request w' WDone sync
           (emit (EvDeliver (bw_id w) k)
              (set_delivered
                 (delivered sl ++
                    [{| d_key := k; d_buffers := buffers w';
                        d_mcflags := mcflags v; d_exptime := exptime v;
                        d_cas := if has_cas v then cas v else 0 |}])
                 sl)))
  | run_copied w sl' :
      copied_step w sync sl sl' ->
      frame_step sync sl (FCopied w) sl'.

Inductive slice_step (this : replicant_id) (stopping : bool) (sl : slice_state)
    : slice_label -> slice_state -> Prop :=
  | step_msg sync m q sl' :
      stack sl = [] -> queue sl = m :: q ->
      msg_step this stopping sync (set_queue q sl) m sl' ->
      slice_step this stopping sl (SMsg sync) sl'
  | step_super :
      stack sl = [] -> awaiting_super sl = true ->
      slice_step this stopping sl SSuper (push FSuperblock (set_awaiting_super false sl))
  | step_callback k w wt :
      stack sl = [] -> suspended sl !! k = Some (w, wt) ->
      slice_step this stopping sl (SCallback k)
        (push (resume w wt) (called_back w wt (set_suspended (delete k (suspended sl)) sl)))
  | step_run sync f rest sl' :
      stack sl = f :: rest ->
      frame_step sync (set_stack rest sl) f sl' ->
      slice_step this stopping sl (SRun sync) sl'.

(** ** The segments of a large value *)

(** The bytes of [data] cut into pieces of the given sizes. *)
Fixpoint chunks (sizes : list nat) (data : list byte) : list (list byte) :=
  match sizes with
  | [] => []
  | n :: sizes => take n data :: chunks sizes (drop n data)
  end.

(** ** What a step of the machine does to one slice *)

(** A slice is changed by a step of its own CPU, by the home CPU taking a
    message out of its outbox (the walker of the slice is deleted after a
    report), or by [stop()] sending it an uninstall request. *)
Inductive slice_change (this : replicant_id) (stopping : bool) (sl : slice_state)
    : slice_state -> Prop :=
  | change_none : slice_change this stopping sl sl
  | change_step a sl' :
      slice_step this stopping sl a sl' -> slice_change this stopping sl sl'
  | change_report ob :
      outbox sl = HReport :: ob ->
      slice_change this stopping sl (set_sw_alive false (set_outbox ob sl))
  | change_ack ob :
      outbox sl = HUninstalled :: ob ->
      slice_change this stopping sl (set_outbox ob sl)
  | change_stop :
      stopping = false ->
      slice_change this stopping sl (enqueue_uninstall sl).

(** Every slice has delivered what it has visited, and its large values are
    tiled by their segments. *)
Definition scanned (h : nat) (s : state) : Prop :=
  Forall (fun sl => scan_inv h sl /\ larges_tile (tree sl)) (slices s).

(** No walker was ever made on the slice. *)
Definition no_walker (sl : slice_state) : Prop :=
  trace sl = [] /\ next_id sl = 0%nat /\ live_walkers sl = [] /\ delivered sl = [].

(** The reports the slice walker has sent: those in the outbox and the one
    after which it was deleted. *)
Definition reports (sl : slice_state) : nat :=
  (count_if is_report (outbox sl) + if sw_alive sl then 0 else 1)%nat.

(** The kinds of steps. *)
Definition is_stop (l : label) : bool := match l with LStop => true | _ => false end.
Definition is_home (l : label) : bool := match l with LHome _ => true | _ => false end.

(** ** A store to run the machine on *)

(** A slice whose root is an internal node over two leaves, one of them with
    a large value of three segments, and a slice with no root. *)
Definition ex_blocks (b : block_id) : node :=
  match b with
  | 1%N => internal_node [ {| ip_key := [Byte.x62]; lnode := 2%N |};
                           {| ip_key := [Byte.xff]; lnode := 3%N |} ]
  | 2%N => leaf_node
             [ {| lp_key := [Byte.x61];
                  lp_value := {| payload := Inline [Byte.x31]; mcflags := 0;
                                 exptime := 0; cas_field := None |} |};
               {| lp_key := [Byte.x62];
                  lp_value := {| payload := LargeRef 7%N; mcflags := 5;
                                 exptime := 0; cas_field := Some 9 |} |} ]
  | 3%N => leaf_node
             [ {| lp_key := [Byte.x63];
                  lp_value := {| payload := Inline [Byte.x33; Byte.x33]; mcflags := 0;
                                 exptime := 0; cas_field := None |} |} ]
  | _ => leaf_node []
  end.

Definition ex_large (r : lb_ref_t) : large_buf :=
  {| lb_data := [Byte.x41; Byte.x42; Byte.x43; Byte.x44; Byte.x45; Byte.x46];
     lb_sizes := [1; 2; 3]%nat |}.

Definition ex_A : btree_slice :=
  {| root_block := Some 1%N; blocks := ex_blocks; large_bufs := ex_large |}.
Definition ex_B : btree_slice :=
  {| root_block := None; blocks := ex_blocks; large_bufs := ex_large |}.
Definition ex_store : list (btree_slice * list replicant_id) :=
  [(ex_A, [7%nat]); (ex_B, [])].
Definition ex_init : state := btree_replicant_t.new 3%nat ex_store.

(** Every block and every value is there at once: each callback comes
    before the call that asked for it returns. *)
Definition ex_sync_scan : list label :=
  LSlice 0 (SMsg true) :: replicate 12 (LSlice 0 (SRun true)) ++
  [LSlice 0 (SMsg true); LSlice 1 (SMsg true); LSlice 1 (SRun true);
   LSlice 1 (SRun true); LSlice 1 (SMsg true); LHome 0; LHome 1].

Definition ex_shutdown : list label :=
  [LStop; LSlice 0 (SMsg true); LSlice 1 (SMsg true); LHome 0; LHome 1].

Definition ex_sync_run : list label := ex_sync_scan ++ ex_shutdown.

(** Nothing is there at once, and [stop()] is called before the scans
    start. *)
Definition ex_async_run : list label :=
  [LStop;
   LSlice 0 (SMsg false); LSlice 0 (SMsg false); LSlice 0 (SMsg false);
   LSlice 1 (SMsg false); LSlice 1 (SMsg false); LSlice 1 (SMsg false);
   LHome 0;
   LSlice 0 SSuper; LSlice 0 (SRun false); LSlice 0 (SRun false);
   LSlice 1 SSuper; LSlice 1 (SRun false); LSlice 1 (SRun false);
   LSlice 0 (SCallback 0); LSlice 0 (SRun false);
   LSlice 0 (SRun false); LSlice 0 (SRun false);
   LSlice 0 (SRun false); LSlice 0 (SCallback 0);
   LSlice 0 (SRun false); LSlice 0 (SCallback 0);
   LSlice 0 (SRun false); LSlice 0 (SCallback 0);
   LSlice 0 (SRun false); LSlice 0 (SCallback 0);
   LSlice 0 (SRun false); LSlice 0 (SCallback 0);
   LSlice 0 (SRun false); LSlice 0 (SCallback 0);
   LSlice 0 (SRun false); LHome 1; LHome 0; LHome 1].

(** The state a run ends in. *)
Definition after (ls : list label) (s : state) : state :=
  match run ls s with Next s' => s' | _ => s end.

(** Slice [i] of the example after a run. *)
Definition slice_after (ls : list label) (i : nat) : slice_state :=
  default (btree_replicant_t.new_slice (ex_B, [])) (slices (after ls ex_init) !! i).

(** ** The protocol of a walker, read off the trace *)

(** The walker an event is of, and the walker that made it. *)
Definition event_walker (e : event) : nat :=
  match e with
  | EvConstruct w _ _ | EvBlock w | EvDestroy w | EvAdvance w _
  | EvAcquireLarge w _ | EvReleaseLarge w _ | EvDeliver w _ | EvDone w => w
  end.

Definition event_parent (e : event) : option nat :=
  match e with EvConstruct _ parent _ => parent | _ => None end.

(** What the trace says of one walker: the block it was made for, the
    blocks of the children it has made, the large value it holds and whether
    the sink owes it a done callback. *)
Record walker_obs := {
  o_block : option block_id;
  o_kids : list block_id;
  o_held : option lb_ref_t;
  o_awaiting : bool;
}.

Definition unborn : walker_obs :=
  {| o_block := None; o_kids := []; o_held := None; o_awaiting := false |}.
Definition born (b : block_id) : walker_obs :=
  {| o_block := Some b; o_kids := []; o_held := None; o_awaiting := false |}.
Definition set_block (b : option block_id) (o : walker_obs) : walker_obs :=
  {| o_block := b; o_kids := o_kids o; o_held := o_held o; o_awaiting := o_awaiting o |}.
Definition set_kids (k : list block_id) (o : walker_obs) : walker_obs :=
  {| o_block := o_block o; o_kids := k; o_held := o_held o; o_awaiting := o_awaiting o |}.
Definition set_held (r : option lb_ref_t) (o : walker_obs) : walker_obs :=
  {| o_block := o_block o; o_kids := o_kids o; o_held := r; o_awaiting := o_awaiting o |}.
Definition set_awaiting (a : bool) (o : walker_obs) : walker_obs :=
  {| o_block := o_block o; o_kids := o_kids o; o_held := o_held o; o_awaiting := a |}.

(** The pairs of an internal node. *)
Definition internal_pairs (t : btree_slice) (b : option block_id) : list btree_internal_pair :=
  match b with
  | Some b => match blocks t b with internal_node ps => ps | leaf_node _ => [] end
  | None => []
  end.

Definition guard (c : bool) (o : walker_obs) : option walker_obs :=
  if c then Some o else None.

(** What an event of walker [w] does to what is known of [w], and which
    events are out of order: a walker is made once, by another; it works on its block
    only once made; it acquires a large value only while it holds none and
    releases the one it holds; it hands a value to the sink only when the
    sink owes it no callback, and goes to the next pair only then; it is
    destroyed only once made and when it has made a child for every pair of
    its node. *)
Definition own_event (t : btree_slice) (e : event) (o : walker_obs) : option walker_obs :=
  match e with
  | EvConstruct c parent b =>
      guard (bool_decide (o_block o = None) && bool_decide (parent <> Some c))
            (set_block (Some b) o)
  | EvBlock _ => guard (bool_decide (o_block o <> None)) o
  | EvDestroy _ =>
      guard (bool_decide (o_block o <> None) &&
             bool_decide (o_kids o = map lnode (internal_pairs t (o_block o)))) o
  | EvAdvance _ _ => guard (negb (o_awaiting o) && bool_decide (o_held o = None)) o
  | EvAcquireLarge _ r => guard (bool_decide (o_held o = None)) (set_held (Some r) o)
  | EvReleaseLarge _ r => guard (bool_decide (o_held o = Some r)) (set_held None o)
  | EvDeliver _ _ => guard (negb (o_awaiting o)) (set_awaiting true o)
  | EvDone _ => guard (o_awaiting o) (set_awaiting false o)
  end.

(** A child made by [w] is for the pair after those it has made children
    for. *)
Definition child_event (t : btree_slice) (e : event) (o : walker_obs) : option walker_obs :=
  match e with
  | EvConstruct _ _ b =>
      guard (bool_decide (lnode <$> internal_pairs t (o_block o) !! length (o_kids o) = Some b))
            (set_kids (o_kids o ++ [b]) o)
  | _ => Some o
  end.

Definition observe (t : btree_slice) (w : nat) (e : event) (o : walker_obs)
    : option walker_obs :=
  if bool_decide (event_walker e = w) then own_event t e o
  else if bool_decide (event_parent e = Some w) then child_event t e o
  else Some o.

(** The trace has the latest event first. *)
Fixpoint protocol (t : btree_slice) (w : nat) (tr : list event) : option walker_obs :=
  match tr with
  | [] => Some unborn
  | e :: tr =>
      match protocol t w tr with
      | Some o => observe t w e o
      | None => None
      end
  end.

(** The events of a slice in the order they happened. *)
Definition history (sl : slice_state) : list event := rev (trace sl).

(** The blocks of the children that [w] made in a history, the first child
    first. *)
Fixpoint spawned (w : nat) (h : list event) : list block_id :=
  match h with
  | [] => []
  | EvConstruct _ parent b :: h =>
      if bool_decide (parent = Some w) then b :: spawned w h else spawned w h
  | _ :: h => spawned w h
  end.

(** What the trace should say of the walker of a pending call or of a
    suspended walker ([susp]). *)
Definition phase (t : btree_slice) (f : frame) (susp : bool) : list (nat * walker_obs) :=
  match f with
  | FSuperblock | FReleaseSuper => []
  | FBlock w b => [(bw_id w, born b)]
  | FLoop w i =>
      [(bw_id w, {| o_block := buf w; o_kids := map lnode (take i (internal_pairs t (buf w)));
                    o_held := None; o_awaiting := false |})]
  | FLarge w =>
      [(bw_id w, {| o_block := buf w; o_kids := []; o_held := large_value w;
                    o_awaiting := false |})]
  | FCopied w =>
      [(bw_id w, {| o_block := buf w; o_kids := []; o_held := large_value w;
                    o_awaiting := susp |})]
  end.

Definition expected (sl : slice_state) : list (nat * walker_obs) :=
  concat (map (fun f => phase (tree sl) f false) (stack sl)) ++
  concat (map (fun x => phase (tree sl) (resume x.1 x.2) true) (suspended sl)).

(** The trace [tr] follows the protocol, says [ws] of the walkers alive,
    which are distinct, and names walkers below [n] only. *)
Definition follows (t : btree_slice) (tr : list event) (ws : list (nat * walker_obs))
    (n : nat) : Prop :=
  (forall w, is_Some (protocol t w tr)) /\
  Forall (fun x => protocol t x.1 tr = Some x.2) ws /\
  NoDup (map fst ws) /\
  Forall (fun x => (x.1 < n)%nat) ws /\
  Forall (fun e => (event_walker e < n)%nat /\
                   forall p, event_parent e = Some p -> (p < n)%nat) tr.

Definition protocol_inv (sl : slice_state) : Prop :=
  follows (tree sl) (trace sl) (expected sl) (next_id sl).

(** The reading of the spec by its words: all the children of a walker on
    an internal node have been made, and counted, before any of them works
    on its block. *)
Definition spec_counts_all_children_first (sl : slice_state) : Prop :=
  forall w parent b ps c cb h1 h2,
    EvConstruct w parent b ∈ history sl ->
    blocks (tree sl) b = internal_node ps ->
    history sl = h1 ++ EvBlock c :: h2 ->
    EvConstruct c (Some w) cb ∈ h1 ->
    spawned w h1 = map lnode ps.

(** A walker of the example on the second pair of leaf 2, whose large value
    has just arrived, and the slice it walks. *)
Definition ex_walker : branch_walker :=
  {| bw_id := 1; buf := Some 2%N; current_pair := 1;
     current_key := Some [Byte.x62];
     current_value := Some {| payload := LargeRef 7%N; mcflags := 5; exptime := 0;
                              cas_field := Some 9 |};
     large_value := Some 7%N; buffers := [] |}.
Definition ex_slice : slice_state := btree_replicant_t.new_slice (ex_A, [7%nat]).

(** ** Runs under a condition on what the cache and the sink do *)

(** The steps of the slices are those that [ok] allows. *)
Definition label_ok (ok : slice_label -> bool) (l : label) : bool :=
  match l with LSlice _ a => ok a | _ => true end.

Definition any_label (a : slice_label) : bool := true.

(** ** The registry of a slice over the life of the coordinator *)

(** The registry without its first entry equal to [this]. *)
Definition remove_first (this : replicant_id) (l : list replicant_id) : list replicant_id :=
  match find_replicant this l with
  | Some i => delete i l
  | None => l
  end.

(** The registry that held [orig] when the coordinator was made, after the
    slice has run [n] of the messages sent to it. *)
Definition registry_at (n : nat) (this : replicant_id) (orig : list replicant_id)
    : list replicant_id :=
  match n with
  | O | S O => orig
  | S (S O) => orig ++ [this]
  | _ => remove_first this (orig ++ [this])
  end.

Definition registry_inv (this : replicant_id) (stopping : bool)
    (orig : list replicant_id) (sl : slice_state) : Prop :=
  exists n : nat,
    queue sl = drop n (msgs_sent stopping) /\
    (n <= length (msgs_sent stopping))%nat /\
    replicants sl = registry_at n this orig /\
    (n = 0%nat <-> txn sl = TxnNone).

(** The scans of the example are over, [stop()] has been called and the
    first slice has uninstalled the coordinator. *)
Definition ex_stopping_run : list label :=
  ex_sync_scan ++ [LStop; LSlice 0 (SMsg true)].

(** ** Counting what a scan does *)

(** The nodes of the tree under [b]. *)
Definition nodes (t : btree_slice) (h : nat) (b : block_id) : nat :=
  subtree_fold (fun _ => 1%nat) (fun cs => S (sum_list cs)) t h b.

Definition kids_nodes (t : btree_slice) (h : nat) (ps : list btree_internal_pair) : nat :=
  sum_list (map (fun p => nodes t h (lnode p)) ps).

Definition root_nodes (t : btree_slice) (h : nat) : nat :=
  match root_block t with Some r => nodes t h r | None => 0%nat end.

(** The nodes that a pending call will still make walkers for. *)
Definition frame_unmade (t : btree_slice) (h : nat) (f : frame) : nat :=
  match f with
  | FSuperblock => root_nodes t h
  | FBlock w b => Nat.pred (nodes t h b)
  | FLoop w i => kids_nodes t h (drop i (internal_pairs t (buf w)))
  | _ => 0%nat
  end.

Definition slice_unmade (h : nat) (sl : slice_state) : nat :=
  (match txn sl with TxnNone => root_nodes (tree sl) h | _ => 0 end +
   (if awaiting_super sl then root_nodes (tree sl) h else 0) +
   sum_list (map (frame_unmade (tree sl) h) (stack sl)) +
   sum_list (map (fun x => frame_unmade (tree sl) h (resume x.1 x.2)) (suspended sl)))%nat.

Definition is_acquire (e : event) : bool :=
  match e with EvAcquireLarge _ _ => true | _ => false end.
Definition is_release (e : event) : bool :=
  match e with EvReleaseLarge _ _ => true | _ => false end.
Definition is_deliver (e : event) : bool :=
  match e with EvDeliver _ _ => true | _ => false end.
Definition is_done (e : event) : bool :=
  match e with EvDone _ => true | _ => false end.

(** Whether the walker of a pending call holds a large value, and whether
    the sink owes a suspended walker its done callback. *)
Definition holds_large (f : frame) : nat :=
  match f with
  | FLarge w | FCopied w => if large_value w then 1%nat else 0%nat
  | _ => 0%nat
  end.

Definition holding (sl : slice_state) : nat :=
  (sum_list (map holds_large (stack sl)) +
   sum_list (map (fun x => holds_large (resume x.1 x.2)) (suspended sl)))%nat.

Definition owes_done (x : branch_walker * wait) : nat :=
  match x.2 with WDone => 1%nat | _ => 0%nat end.

Definition owed (sl : slice_state) : nat := sum_list (map owes_done (suspended sl)).

(** What the trace of a slice counts: large values acquired and not
    released are held by walkers, values handed over and not called back
    for are owed by the sink, and every value handed over is in
    [delivered]. *)
Definition balance_inv (sl : slice_state) : Prop :=
  count_if is_acquire (trace sl) = (count_if is_release (trace sl) + holding sl)%nat /\
  count_if is_deliver (trace sl) = (count_if is_done (trace sl) + owed sl)%nat /\
  length (delivered sl) = count_if is_deliver (trace sl).

(** Every node of the tree has had its walker made or will have it made by
    a pending call. *)
Definition made_inv (h : nat) (sl : slice_state) : Prop :=
  (constructions sl + slice_unmade h sl = root_nodes (tree sl) h)%nat.

(** ** When every block is at hand and the sink calls back at once *)

(** The steps in which the cache and the sink call back before the request
    returns. *)
Definition sync_label (a : slice_label) : bool :=
  match a with SMsg true | SRun true => true | _ => false end.

(** What the pending calls of a slice will hand to the sink, in the order
    in which they will, when nothing is suspended. *)
Definition ahead (h : nat) (sl : slice_state) : list view :=
  map (stored_view (tree sl)) (concat (map (frame_todo (tree sl) h) (stack sl))).

(** Nothing is suspended, and what the sink was handed, followed by what
    the pending calls will hand it, is the pairs of the tree from left to
    right. *)
Definition in_order (h : nat) (sl : slice_state) : Prop :=
  suspended sl = [] /\ awaiting_super sl = false /\
  match txn sl with
  | TxnNone => stack sl = [] /\ delivered sl = []
  | _ => map delivery_view (delivered sl) ++ ahead h sl =
         map (stored_view (tree sl)) (root_entries (tree sl) h)
  end.

(** ** The course of a walker, read off the trace *)

#[global] Instance byte_eq_decision : EqDecision byte := Byte.byte_eq_dec.

(** The pairs of the leaf in block [b]; an internal node has none. *)
Definition leaf_pairs (t : btree_slice) (b : option block_id) : list btree_leaf_pair :=
  match b with
  | Some b => match blocks t b with leaf_node es => es | internal_node _ => [] end
  | None => []
  end.

(** The large value a walker acquires for a pair. *)
Definition wanted (p : btree_leaf_pair) : option lb_ref_t :=
  if is_large (lp_value p) then Some (lb_ref (lp_value p)) else None.

(** The keys walker [w] handed to the sink in a history, the first one
    first. *)
Fixpoint handed (w : nat) (h : list event) : list store_key :=
  match h with
  | [] => []
  | EvDeliver w' k :: h =>
      if bool_decide (w' = w) then k :: handed w h else handed w h
  | _ :: h => handed w h
  end.

(** What the trace says of the course of one walker: the block it was made
    for, the keys it has handed to the sink, the first one first, the large
    value it holds, whether the sink owes it a done callback and whether it
    has been destroyed. *)
Record course_obs := {
  c_block : option block_id;
  c_handed : list store_key;
  c_held : option lb_ref_t;
  c_awaiting : bool;
  c_dead : bool;
}.

Definition not_made : course_obs :=
  {| c_block := None; c_handed := []; c_held := None; c_awaiting := false;
     c_dead := false |}.
Definition made (b : block_id) : course_obs :=
  {| c_block := Some b; c_handed := []; c_held := None; c_awaiting := false;
     c_dead := false |}.

(** The walker is alive and the sink owes it no callback. *)
Definition idle (o : course_obs) : bool := negb (c_awaiting o) && negb (c_dead o).

(** The pair after those handed to the sink. *)
Definition next_pair (t : btree_slice) (o : course_obs) : option btree_leaf_pair :=
  leaf_pairs t (c_block o) !! length (c_handed o).

Definition check {A} (c : bool) (x : A) : option A := if c then Some x else None.

(** What an event of walker [w] does to its course, and which events are
    off course: the walker moves only while it is alive and the sink owes
    it no callback; it goes to pair [i] when it has handed over the [i]
    pairs before; it acquires the large value of the next pair; it hands
    over the key of the next pair, holding the large value of this pair and
    no other; the sink calls back only a walker it owes a callback; and the
    walker is destroyed when it has handed over every pair of its leaf. *)
Definition course_event (t : btree_slice) (e : event) (o : course_obs) : option course_obs :=
  match e with
  | EvConstruct _ _ b =>
      check (idle o && bool_decide (c_block o = None))
        {| c_block := Some b; c_handed := c_handed o; c_held := c_held o;
           c_awaiting := false; c_dead := false |}
  | EvBlock _ => check (idle o && bool_decide (c_block o <> None)) o
  | EvAdvance _ i => check (idle o && bool_decide (i = Z.of_nat (length (c_handed o)))) o
  | EvAcquireLarge _ r =>
      check (idle o && bool_decide (c_held o = None) &&
             bool_decide (wanted <$> next_pair t o = Some (Some r)))
        {| c_block := c_block o; c_handed := c_handed o; c_held := Some r;
           c_awaiting := false; c_dead := false |}
  | EvReleaseLarge _ r =>
      check (idle o && bool_decide (c_held o = Some r))
        {| c_block := c_block o; c_handed := c_handed o; c_held := None;
           c_awaiting := false; c_dead := false |}
  | EvDeliver _ k =>
      check (idle o &&
             bool_decide ((fun p => (lp_key p, wanted p)) <$> next_pair t o =
                          Some (k, c_held o)))
        {| c_block := c_block o; c_handed := c_handed o ++ [k]; c_held := c_held o;
           c_awaiting := true; c_dead := false |}
  | EvDone _ =>
      check (c_awaiting o && negb (c_dead o))
        {| c_block := c_block o; c_handed := c_handed o; c_held := c_held o;
           c_awaiting := false; c_dead := false |}
  | EvDestroy _ =>
      check (idle o && bool_decide (c_block o <> None) &&
             bool_decide (length (c_handed o) = length (leaf_pairs t (c_block o))))
        {| c_block := c_block o; c_handed := c_handed o; c_held := c_held o;
           c_awaiting := false; c_dead := true |}
  end.

(** A walker makes a child only while it is alive and the sink owes it no
    callback. *)
Definition course_observe (t : btree_slice) (w : nat) (e : event) (o : course_obs)
    : option course_obs :=
  if bool_decide (event_walker e = w) then course_event t e o
  else if bool_decide (event_parent e = Some w) then check (idle o) o
  else Some o.

(** The trace has the latest event first. *)
Fixpoint course (t : btree_slice) (w : nat) (tr : list event) : option course_obs :=
  match tr with
  | [] => Some not_made
  | e :: tr =>
      match course t w tr with
      | Some o => course_observe t w e o
      | None => None
      end
  end.

(** The keys handed over are those of the first pairs of the leaf, and
    those of all its pairs once the walker is destroyed. *)
Definition in_leaf_order (t : btree_slice) (o : course_obs) : Prop :=
  c_handed o = map lp_key (take (length (c_handed o)) (leaf_pairs t (c_block o))) /\
  (c_dead o = true -> length (c_handed o) = length (leaf_pairs t (c_block o))).

(** The keys of the first [i] pairs of the leaf of [w]. *)
Definition keys_before (t : btree_slice) (w : branch_walker) (i : Z) : list store_key :=
  map lp_key (take (Z.to_nat i) (leaf_pairs t (buf w))).

(** A walker that is alive. *)
Definition at_stage (b : option block_id) (hd : list store_key) (r : option lb_ref_t)
    (a : bool) : course_obs :=
  {| c_block := b; c_handed := hd; c_held := r; c_awaiting := a; c_dead := false |}.

(** Where the trace should say the walker of a pending call or of a
    suspended walker ([susp]) is. *)
Definition stage (t : btree_slice) (f : frame) (susp : bool) : list (nat * course_obs) :=
  match f with
  | FSuperblock | FReleaseSuper => []
  | FBlock w b => [(bw_id w, made b)]
  | FLoop w i => [(bw_id w, at_stage (buf w) [] None false)]
  | FLarge w =>
      [(bw_id w, at_stage (buf w) (keys_before t w (current_pair w)) (large_value w) false)]
  | FCopied w =>
      [(bw_id w, at_stage (buf w) (keys_before t w (current_pair w + 1)) (large_value w)
                   susp)]
  end.

Definition staged (sl : slice_state) : list (nat * course_obs) :=
  concat (map (fun f => stage (tree sl) f false) (stack sl)) ++
  concat (map (fun x => stage (tree sl) (resume x.1 x.2) true) (suspended sl)).

(** The trace [tr] keeps every walker on course, says [ws] of the walkers
    alive, which are distinct, and names walkers below [n] only. *)
Definition on_course (t : btree_slice) (tr : list event) (ws : list (nat * course_obs))
    (n : nat) : Prop :=
  (forall w, is_Some (course t w tr)) /\
  Forall (fun x => course t x.1 tr = Some x.2) ws /\
  NoDup (map fst ws) /\
  Forall (fun x => (x.1 < n)%nat) ws /\
  Forall (fun e => (event_walker e < n)%nat /\
                   forall p, event_parent e = Some p -> (p < n)%nat) tr.

Definition course_inv (sl : slice_state) : Prop :=
  on_course (tree sl) (trace sl) (staged sl) (next_id sl).

(** * Proofs *)

(** *** Large values *)

Lemma segment_buffers_map lb :
  branch_walker_t.segment_buffers lb =
  map (fun i => {| b_size := (get_segment lb i).1; b_data := (get_segment lb i).2 |})
      (seq 0 (get_num_segments lb)).
Proof.
  unfold branch_walker_t.segment_buffers.
  generalize (seq 0 (get_num_segments lb)). intros l.
  rewrite <- (app_nil_l (map _ l)). generalize (@nil buffer).
  induction l as [|i l IH]; intros g; simpl.
  - by rewrite app_nil_r.
  - rewrite IH. destruct (get_segment lb i) as [size data]. unfold add_buffer.
    by rewrite <- app_assoc.
Qed.

Lemma segment_chunks sizes data :
  map (fun i => take (default 0%nat (sizes !! i))
                  (take (default 0%nat (sizes !! i))
                     (drop (sum_list (take i sizes)) data)))
      (seq 0 (length sizes)) = chunks sizes data.
Proof.
  revert data. induction sizes as [|n sizes IH]; intros data; simpl; [done|].
  rewrite take_take, Nat.min_id. f_equal.
  rewrite <- fmap_S_seq, <- IH. rewrite <- list_fmap_compose.
  apply list_fmap_ext. intros _ i _. simpl.
  by rewrite drop_drop.
Qed.

Lemma concat_chunks sizes data :
  concat (chunks sizes data) = take (sum_list sizes) data.
Proof.
  revert data. induction sizes as [|n sizes IH]; intros data; simpl.
  - by rewrite take_0.
  - by rewrite IH, take_take_drop.
Qed.

Lemma segment_buffers_bytes lb :
  group_bytes (branch_walker_t.segment_buffers lb) =
  take (sum_list (lb_sizes lb)) (lb_data lb).
Proof.
  unfold group_bytes. rewrite segment_buffers_map, <- list_fmap_compose.
  unfold get_num_segments. rewrite <- concat_chunks, <- segment_chunks.
  done.
Qed.

(** *** The trigger registry *)

Lemma find_replicant_Some this l i :
  find_replicant this l = Some i ->
  exists l1 l2, l = l1 ++ this :: l2 /\ (this ∉ l1) /\ i = length l1 /\
                delete i l = l1 ++ l2.
Proof.
  revert i. induction l as [|x l IH]; intros i; simpl; [done|].
  case_decide as Hx.
  - intros [= <-]. subst x. exists [], l. split_and!; [done|apply not_elem_of_nil|done|done].
  - destruct (find_replicant this l) as [j|] eqn:Hj; simpl; [|done].
    intros [= <-]. destruct (IH j eq_refl) as (l1 & l2 & -> & Hn & -> & Hd).
    exists (x :: l1), l2. split_and!; [done| |done|].
    + rewrite not_elem_of_cons. done.
    + simpl. by rewrite Hd.
Qed.

Lemma find_replicant_None this l :
  find_replicant this l = None <-> this ∉ l.
Proof.
  induction l as [|x l IH]; simpl.
  - split; [intros _; apply not_elem_of_nil|done].
  - case_decide as Hx.
    + subst x. split; [done|]. intros []. by left.
    + rewrite not_elem_of_cons. destruct (find_replicant this l); simpl.
      * split; [done|]. intros [_ Hl]. by apply IH in Hl.
      * split; [|done]. intros _. split; [done|]. by apply IH.
Qed.

Lemma find_replicant_elem this l :
  this ∈ l -> is_Some (find_replicant this l).
Proof.
  intros Hin. destruct (find_replicant this l) eqn:E; [by eexists|].
  by apply find_replicant_None in E.
Qed.

Lemma uninstall_present this sl :
  this ∈ replicants sl ->
  exists l1 l2,
    replicants sl = l1 ++ this :: l2 /\ (this ∉ l1) /\
    uninstall this true sl = Next (send_home HUninstalled (set_replicants (l1 ++ l2) sl)).
Proof.
  intros Hin. unfold uninstall. simpl negb. cbv iota.
  destruct (find_replicant_elem this _ Hin) as [i Hi]. rewrite Hi.
  destruct (find_replicant_Some _ _ _ Hi) as (l1 & l2 & Hl & Hn & -> & Hd).
  exists l1, l2. by rewrite Hd.
Qed.

Lemma uninstall_absent this stopping sl :
  this ∉ replicants sl ->
  uninstall this stopping sl =
    if stopping then Crash (Fatal "We were never installed on this slice.")
    else Crash (AssertionFailed "stopping").
Proof.
  intros Hn. unfold uninstall. destruct stopping; simpl; [|done].
  apply find_replicant_None in Hn. by rewrite Hn.
Qed.

Lemma count_self_split (this : replicant_id) l1 l2 :
  length (filter (fun x => x = this) (l1 ++ this :: l2)) =
  S (length (filter (fun x => x = this) (l1 ++ l2))).
Proof.
  rewrite !filter_app, filter_cons_True, !length_app by done. simpl. lia.
Qed.

Lemma delete_sound w sl sl' :
  branch_walker_t.delete w sl = Next sl' -> delete_step w sl sl'.
Proof.
  unfold branch_walker_t.delete, slice_walker_t.done.
  destruct (buf w) as [b|] eqn:Hb; [|done]. simpl.
  destruct (Z.eqb_spec (active_branch_walkers sl - 1) 0) as [Hz|Hz].
  - destruct (txn sl) eqn:Ht; try done. intros [= <-].
    eapply delete_last; eauto.
  - intros [= <-]. eapply delete_more; eauto.
Qed.

Lemma have_copied_value_sound w sync sl sl' :
  branch_walker_t.have_copied_value w sync sl = Next sl' -> copied_step w sync sl sl'.
Proof.
  unfold branch_walker_t.have_copied_value. fold (release_large w sl).
  cbn [buf set_current_pair current_pair bw_id].
  destruct (buf w) as [b|] eqn:Hb; [|done].
  replace (tree (emit (EvAdvance (bw_id w) (current_pair w + 1)) (release_large w sl)))
    with (tree sl) by (unfold release_large; by destruct (large_value w)).
  destruct (blocks (tree sl) b) as [|es] eqn:Hn; [done|].
  destruct (Z.eqb_spec (current_pair w + 1) (Z.of_nat (length es))) as [He|He].
  { intros Hd. eapply copied_end; eauto using delete_sound. }
  destruct (Z.ltb_spec (current_pair w + 1) 0) as [Hlt|Hge]; [done|].
  destruct (es !! Z.to_nat (current_pair w + 1)) as [p|] eqn:Hp; [|done].
  destruct (is_large (lp_value p)) eqn:Hl.
  - intros [= <-]. eapply copied_large; eauto.
  - unfold branch_walker_t.deliver_value.
    cbn [current_key current_value set_buffers set_large_value set_current
         set_current_pair buffers bw_id].
    assert (Hd : delivered (emit (EvAdvance (bw_id w) (current_pair w + 1))
                   (release_large w sl)) = delivered sl)
      by (unfold release_large; by destruct (large_value w)).
    rewrite Hd. intros [= <-]. eapply copied_inline; eauto.
Qed.

Lemma run_msg_sound this stp m sync sl sl' :
  run_msg this stp m sync sl = Next sl' -> msg_step this stp sync sl m sl'.
Proof.
  destruct m; simpl.
  - intros [= <-]. destruct sync; apply run_start.
  - intros [= <-]. apply run_install.
  - unfold uninstall. destruct stp; [|done]. simpl.
    destruct (find_replicant this (replicants sl)) eqn:Hf; [|done].
    intros [= <-]. by apply run_uninstall.
Qed.

Lemma run_frame_sound f sync sl sl' :
  run_frame f sync sl = Next sl' -> frame_step sync sl f sl'.
Proof.
  destruct f as [ | |w b|w i|w|w]; simpl.
  - unfold superblock_available. simpl.
    destruct (root_block (tree sl)) eqn:Hr.
    + intros [= <-]. by apply run_super_root.
    + unfold slice_walker_t.done. simpl. destruct (txn sl) eqn:Ht; try done.
      intros [= <-]. by apply run_super_empty.
  - intros [= <-]. apply run_release_super.
  - unfold branch_walker_t.on_block_available. simpl.
    destruct (blocks (tree sl) b) eqn:Hn.
    + intros [= <-]. by eapply run_block_internal.
    + intros Hc. eapply run_block_leaf; eauto using have_copied_value_sound.
  - unfold branch_walker_t.loop. destruct (buf w) eqn:Hb; [|done].
    destruct (blocks (tree sl) b) as [ps|] eqn:Hn; [|done].
    destruct (ps !! i) eqn:Hp.
    + intros [= <-]. by eapply run_loop_spawn.
    + intros Hd. eapply run_loop_end; eauto using delete_sound.
  - unfold branch_walker_t.on_large_buf_available, branch_walker_t.deliver_value.
    destruct (large_value w) eqn:Hl; [|done]. simpl.
    destruct (current_key w) eqn:Hk; [|done].
    destruct (current_value w) eqn:Hv; [|done].
    intros [= <-]. by eapply run_large.
  - intros Hc. apply run_copied. by apply have_copied_value_sound.
Qed.

Lemma slice_exec_step this stp a sl sl' :
  slice_exec this stp a sl = Next sl' -> slice_step this stp sl a sl'.
Proof.
  unfold slice_exec. destruct a as [sync| |k|sync]; destruct (stack sl) as [|f rest] eqn:Hs; try done.
  - destruct (queue sl) eqn:Hq; [done|]. intros Hm.
    eapply step_msg; eauto using run_msg_sound.
  - destruct (awaiting_super sl) eqn:Ha; [|done]. intros [= <-]. by apply step_super.
  - destruct (suspended sl !! k) as [[w wt]|] eqn:Hk; [|done]. intros [= <-].
    by apply step_callback.
  - intros Hr. eapply step_run; eauto using run_frame_sound.
Qed.

(** *** The counter of the slice walker *)

Ltac leaves H :=
  destruct H as [? ? ? ? ? ? H|? ?|? ? ? ? ?|? ? ? ? ? H];
  [ destruct H | | | destruct H as [? ?|? ?| |? ? ? ?|? ? ? ? ? H|? ? ? ? ? ? ? ?
                          |? ? ? ? ? ? ? ? H|? ? ? ? ? ? ?|? ? H];
          [ | | | | destruct H as [? ? ? ? ? ? H|? ? ? ? ? ? ?|? ? ? ? ? ? ?];
                          [destruct H| |]
            | | destruct H | | destruct H as [? ? ? ? ? ? H|? ? ? ? ? ? ?|? ? ? ? ? ? ?];
                          [destruct H| |] ] ];
  repeat match goal with x := _ |- _ => subst x end.

Ltac destruct_slice sl :=
  destruct sl as [tree0 replicants0 queue0 outbox0 stack0 suspended0 awaiting_super0
                  sw_alive0 active_branch_walkers0 txn0 next_id0 delivered0 trace0].

Ltac unify_eqs :=
  repeat match goal with
  | H1 : ?a = _, H2 : ?a = _ |- _ => rewrite H1 in H2; simplify_eq
  end.

Ltac prep :=
  repeat match goal with
  | |- context [called_back _ ?wt] => is_var wt; destruct wt
  | H : context [release_large ?w _] |- _ =>
      unfold release_large in *; destruct (large_value w) eqn:?
  | |- context [release_large ?w _] =>
      unfold release_large in *; destruct (large_value w) eqn:?
  end.

Ltac sl_unfold :=
  unfold request, push, suspend, emit, send_home, called_back, release_large,
    install, branch_walker_t.new in *.

Ltac len_simpl :=
  repeat match goal with
  | H : ?l !! ?k = Some _ |- context [length (delete ?k ?l)] =>
      rewrite (length_delete l k) by (by eexists);
      pose proof (lookup_lt_Some _ _ _ H)
  end;
  rewrite ?length_app, ?length_map; simpl.

Lemma counter_inv_step this stp a sl sl' :
  slice_step this stp sl a sl' -> counter_inv sl -> counter_inv sl'.
Proof.
  unfold counter_inv, live_walkers, constructions, destructions, count_if.
  intros Hstep [Hc Hn]. leaves Hstep.
  all: try destruct sync.
  all: prep.
  all: destruct_slice sl; sl_unfold; simpl in *; simplify_eq.
  all: rewrite ?length_app, ?length_map in *; len_simpl; simpl in *; split; lia.
Qed.

(** *** Walkers stay runnable *)

Lemma tree_within_mono t h h' b :
  (h <= h')%nat -> tree_within t h b -> tree_within t h' b.
Proof.
  revert h' b. induction h as [|h IH]; intros h' b Hle; simpl.
  - destruct h'; simpl; destruct (blocks t b); done.
  - destruct h' as [|h']; [lia|]. simpl. destruct (blocks t b) as [ps|]; [|done].
    intros Hf. eapply Forall_impl; [exact Hf|]. intros p. apply IH. lia.
Qed.

Lemma tree_within_child t h b ps p :
  tree_within t h b -> blocks t b = internal_node ps -> p ∈ ps ->
  tree_within t h (lnode p).
Proof.
  intros Hw Hb Hp. destruct h as [|h]; simpl in Hw; rewrite Hb in Hw; [done|].
  rewrite Forall_forall in Hw. apply (tree_within_mono t h); [lia|]. by apply Hw.
Qed.

Lemma slice_step_tree this stp a sl sl' :
  slice_step this stp sl a sl' -> tree sl' = tree sl.
Proof.
  intros Hstep. leaves Hstep.
  all: try destruct sync.
  all: prep.
  all: reflexivity.
Qed.

Ltac frames_prep :=
  repeat match goal with H : Forall _ (_ :: _) |- _ => apply Forall_cons in H; destruct H end;
  simpl in *;
  repeat match goal with
  | H : exists _, _ |- _ => destruct H
  | H : _ /\ _ |- _ => destruct H
  end; simplify_eq; unify_eqs;
  split_and!; try done;
  rewrite ?Forall_cons, ?Forall_app, ?Forall_singleton; simpl;
  split_and?; try done;
  try (by apply Forall_delete);
  try match goal with
  | Hsu : Forall _ ?su, Hk : ?su !! _ = Some _ |- _ =>
      let Hx := fresh in
      pose proof (Forall_lookup_1 _ _ _ _ Hsu Hk) as Hx; simpl in Hx
  end;
  try match goal with
  | H : _ !! _ = Some _ |- _ => pose proof (lookup_lt_Some _ _ _ H)
  end;
  try done.

Lemma walkers_ok_step this stp a sl sl' :
  slice_step this stp sl a sl' -> walkers_ok sl -> walkers_ok sl'.
Proof.
  unfold walkers_ok. intros Hstep (Hst & Hsu).
  leaves Hstep.
  all: try destruct sync.
  all: prep.
  all: destruct_slice sl; sl_unfold; simpl in *; simplify_eq.
  all: frames_prep.
  all: repeat match goal with |- exists _, _ => eexists end; split_and?; eauto; lia.
Qed.

Lemma walkers_within_step h this stp a sl sl' :
  slice_step this stp sl a sl' -> walkers_within h sl -> walkers_within h sl'.
Proof.
  unfold walkers_within. intros Hstep (Hst & Hsu & Hroot).
  leaves Hstep.
  all: try destruct sync.
  all: prep.
  all: destruct_slice sl; sl_unfold; simpl in *; simplify_eq.
  all: frames_prep.
  all: try match goal with
       | Hr : root_block _ = Some _ |- _ => unfold root_within in Hroot; rewrite Hr in Hroot
       end.
  all: repeat match goal with |- exists _, _ => eexists end; split_and?;
       eauto using tree_within_child, list_elem_of_lookup_2.
Qed.

(** *** The life of a slice *)

Lemma list_filter_app {A} (p : A -> bool) l1 l2 :
  List.filter p (l1 ++ l2) = List.filter p l1 ++ List.filter p l2.
Proof. induction l1 as [|x l1 IH]; simpl; [done|]. destruct (p x); simpl; by rewrite IH. Qed.

Lemma slice_inv_step this stp a sl sl' :
  slice_step this stp sl a sl' -> counter_inv sl -> slice_inv this stp sl ->
  slice_inv this stp sl'.
Proof.
  unfold slice_inv, counter_inv, supers, live_walkers, count_if.
  intros Hstep [Hc _] (n & Hq & Hn & Hreg & Hack & Hack1 & Hph).
  leaves Hstep.
  4-21: exists n.
  1-3: exists (S n); (try destruct stp); destruct n as [|[|[|[|?]]]]; simpl in *;
       simplify_eq; try lia.
  all: try destruct sync.
  all: prep.
  all: destruct_slice sl; sl_unfold; simpl in *; simplify_eq.
  all: repeat match goal with
       | |- context [match ?t with TxnNone => _ | _ => _ end] => destruct t
       | H : context [match ?t with TxnNone => _ | _ => _ end] |- _ => destruct t
       end.
  all: repeat match goal with
       | H : context [if ?b then _ else _] |- _ => is_var b; destruct b
       | |- context [if ?b then _ else _] => is_var b; destruct b
       end.
  all: rewrite ?list_filter_app, ?length_app, ?length_map in *; len_simpl; simpl in *.
  all: destruct_and?; split_and!;
       first [done | lia | intros; apply elem_of_app; right; by left | eauto ].
Qed.

(** *** The whole machine *)

Lemma sum_map_insert {A} (f : A -> nat) (l : list A) i x y :
  l !! i = Some x ->
  (sum_list (map f (<[i := y]> l)) + f x = sum_list (map f l) + f y)%nat.
Proof.
  revert i. induction l as [|z l IH]; intros [|i] Hi; simplify_eq/=; [lia|].
  specialize (IH _ Hi). lia.
Qed.

Lemma sum_map_ge {A} (f : A -> nat) (l : list A) i x :
  l !! i = Some x -> (f x <= sum_list (map f l))%nat.
Proof.
  revert i. induction l as [|z l IH]; intros [|i] Hi; simplify_eq/=; [lia|].
  specialize (IH _ Hi). lia.
Qed.

Lemma slice_step_scanning this stp a sl sl' :
  slice_step this stp sl a sl' ->
  scanning sl' = scanning sl /\ uninstalling sl' = uninstalling sl.
Proof.
  unfold scanning, uninstalling, count_if. intros Hstep. leaves Hstep.
  all: try destruct sync.
  all: prep.
  all: destruct_slice sl; sl_unfold; simpl in *; simplify_eq.
  all: rewrite ?list_filter_app, ?length_app; simpl; split; lia.
Qed.

Lemma slice_inv_stop this sl :
  slice_inv this false sl ->
  slice_inv this true (enqueue_uninstall sl) /\
  uninstalling sl = 0%nat /\ uninstalling (enqueue_uninstall sl) = 1%nat.
Proof.
  unfold slice_inv, uninstalling, supers, live_walkers, count_if.
  intros (n & Hq & Hn & Hreg & Hack & Hack1 & Hph). simpl in *.
  assert (Hn3 : n <> 3%nat) by lia. specialize (Hack Hn3).
  split; [exists n|]; rewrite Hq; destruct n as [|[|[|?]]]; simpl in *; try lia.
  all: split_and!; try done; try lia.
Qed.

Lemma total_insert f s i sl sl' :
  slices s !! i = Some sl ->
  (total f (set_slices (<[i := sl']> (slices s)) s) + f sl = total f s + f sl')%nat.
Proof. intros Hi. unfold total. simpl. by apply sum_map_insert. Qed.

Lemma total_ge f s i sl :
  slices s !! i = Some sl -> (f sl <= total f s)%nat.
Proof. intros Hi. unfold total. by eapply sum_map_ge. Qed.

Lemma state_inv_slice s i sl sl' a :
  slices s !! i = Some sl ->
  slice_step (this_id s) (stopping s) sl a sl' ->
  state_inv s -> state_inv (set_slices (<[i := sl']> (slices s)) s).
Proof.
  intros Hi Hstep (Hall & Hasw & Hau & Hal).
  pose proof (total_insert scanning s i sl sl' Hi) as Hsc.
  pose proof (total_insert uninstalling s i sl sl' Hi) as Hun.
  destruct (slice_step_scanning _ _ _ _ _ Hstep) as [Hs1 Hs2].
  assert (Hsc' : total scanning (set_slices (<[i := sl']> (slices s)) s) = total scanning s) by lia.
  assert (Hun' : total uninstalling (set_slices (<[i := sl']> (slices s)) s)
                 = total uninstalling s) by lia.
  unfold state_inv. rewrite Hsc', Hun'. simpl. split_and!; try done.
  - apply Forall_insert; [done|].
    rewrite Forall_lookup in Hall. destruct (Hall _ _ Hi) as (Hc & Hsl & Hw).
    split_and!; eauto using counter_inv_step, slice_inv_step, walkers_ok_step.
  - destruct (r_alive s); [|done]. destruct Hal as [? Hal]. split; [done|].
    intros Hst Hne. apply Hal; [done|]. intros Hnil. rewrite Hnil in Hi. done.
Qed.

Lemma state_inv_stop s s' :
  stopping s = false -> btree_replicant_t.stop s = Next s' -> state_inv s -> state_inv s'.
Proof.
  unfold btree_replicant_t.stop. intros Hns Hstop (Hall & Hasw & Hau & Hal).
  rewrite Hns in Hau. destruct Hau as (Hau & Halive & Hun0). rewrite Halive in *.
  simpl in Hstop. injection Hstop as <-.
  assert (Hsc : forall l : list slice_state,
            sum_list (map scanning (map enqueue_uninstall l)) = sum_list (map scanning l)).
  { induction l as [|x l IH]; simpl; [done|]. by rewrite IH. }
  assert (Hun : forall l : list slice_state,
            Forall (fun sl => slice_inv (this_id s) false sl) l ->
            sum_list (map uninstalling (map enqueue_uninstall l)) = length l).
  { induction 1 as [|x l Hx _ IH]; simpl; [done|].
    destruct (slice_inv_stop _ _ Hx) as (_ & _ & ->). by rewrite IH. }
  assert (Hall' : Forall (fun sl => slice_inv (this_id s) false sl) (slices s)).
  { rewrite Hns in Hall. eapply Forall_impl; [exact Hall|]. by intros ? (? & ? & ?). }
  unfold state_inv, total. simpl. rewrite Hsc, (Hun _ Hall').
  split_and!; try done.
  - rewrite Hns in Hall. rewrite Forall_fmap. eapply Forall_impl; [exact Hall|].
    intros sl (Hc & Hsl & Hw). simpl. split_and!; [done| |done].
    by apply slice_inv_stop.
  - cbv iota in Hal. destruct Hal as [? _]. rewrite Halive. split; [done|]. intros _ Hne.
    destruct (slices s); [done|]. simpl. lia.
Qed.

Lemma slice_inv_report this stp sl ob :
  outbox sl = HReport :: ob -> slice_inv this stp sl ->
  sw_alive sl = true /\
  slice_inv this stp (set_sw_alive false (set_outbox ob sl)) /\
  uninstalling (set_sw_alive false (set_outbox ob sl)) = uninstalling sl.
Proof.
  unfold slice_inv, uninstalling, supers, live_walkers, count_if.
  intros Hob (n & Hq & Hn & Hreg & Hack & Hack1 & Hph). rewrite Hob in *. simpl in *.
  destruct (txn sl); destruct_and?; try lia.
  destruct (sw_alive sl); [|lia].
  split; [done|]. split; [|done]. exists n. split_and!; try done; lia.
Qed.

Lemma slice_inv_ack this stp sl ob :
  outbox sl = HUninstalled :: ob -> slice_inv this stp sl ->
  stp = true /\
  slice_inv this stp (set_outbox ob sl) /\
  uninstalling sl = S (uninstalling (set_outbox ob sl)).
Proof.
  unfold slice_inv, uninstalling, supers, live_walkers, count_if.
  intros Hob (n & Hq & Hn & Hreg & Hack & Hack1 & Hph). rewrite Hob in *. simpl in *.
  assert (n = 3%nat) as -> by (destruct (decide (n = 3%nat)); [done|]; specialize (Hack n0); lia).
  destruct stp; simpl in Hn; [|lia].
  split; [done|]. split; [|lia]. exists 3%nat.
  destruct (txn sl); destruct_and?; split_and!; try done; try lia.
Qed.

Lemma slices_inv_insert (s : state) i sl sl' :
  slices s !! i = Some sl ->
  Forall (fun sl => counter_inv sl /\ slice_inv (this_id s) (stopping s) sl /\ walkers_ok sl)
         (slices s) ->
  counter_inv sl' /\ slice_inv (this_id s) (stopping s) sl' /\ walkers_ok sl' ->
  Forall (fun sl => counter_inv sl /\ slice_inv (this_id s) (stopping s) sl /\ walkers_ok sl)
         (<[i := sl']> (slices s)).
Proof. intros Hi Hall Hsl. by apply Forall_insert. Qed.

Ltac st_simpl :=
  cbn [slices this_id stopping r_alive active_slice_walkers active_uninstallations
       stopped_calls set_slices set_r_alive set_stopping set_active_slice_walkers
       set_active_uninstallations set_stopped_calls] in *.

Lemma state_inv_home s i sl m ob :
  slices s !! i = Some sl -> outbox sl = m :: ob -> state_inv s ->
  exists s', exec (LHome i) s = Next s' /\ state_inv s'.
Proof.
  intros Hi Hob Hinv. pose proof Hinv as (Hall & Hasw & Hau & Hal).
  pose proof Hall as Hall'.
  rewrite Forall_lookup in Hall'. destruct (Hall' _ _ Hi) as (Hc & Hsl & Hw).
  pose proof (lookup_lt_Some _ _ _ Hi) as Hlt.
  assert (Hne : slices s <> []) by (intros Hnil; rewrite Hnil in Hi; done).
  simpl. rewrite Hi, Hob.
  destruct m.
  - destruct (slice_inv_report _ _ _ _ Hob Hsl) as (Halive & Hsl' & Hun).
    remember (set_sw_alive false (set_outbox ob sl)) as sl2 eqn:Esl2.
    pose proof (total_ge scanning s i sl Hi) as Hge.
    pose proof (total_insert scanning s i sl sl2 Hi) as Hsc.
    pose proof (total_insert uninstalling s i sl sl2 Hi) as Hus.
    assert (Hs1 : scanning sl = 1%nat) by (unfold scanning; by rewrite Halive).
    assert (Hs2 : scanning sl2 = 0%nat) by by subst sl2.
    destruct (r_alive s) eqn:Hra; [|lia].
    assert (Hinv2 : Forall (fun sl => counter_inv sl /\
              slice_inv (this_id s) (stopping s) sl /\ walkers_ok sl)
              (<[i := sl2]> (slices s))).
    { apply slices_inv_insert with sl; [done|done|]. subst sl2. split_and!; done. }
    unfold report, btree_replicant_t.slice_walker_done. st_simpl. rewrite Hra. simpl negb. cbv iota.
    st_simpl.
    destruct (Z.ltb_spec (active_slice_walkers s - 1) 0) as [Hneg|Hpos]; [lia|].
    destruct (stopping s) eqn:Hst.
    + destruct (Z.eqb_spec (active_slice_walkers s - 1) 0) as [Hz|Hnz].
      * rewrite Hau.
        destruct (Z.eqb_spec (Z.of_nat (total uninstalling s)) 0) as [Hu|Hu].
        -- unfold btree_replicant_t.done. st_simpl. rewrite Hst.
           st_simpl. rewrite list_lookup_insert_eq by done. rewrite <- Esl2.
           eexists. split; [done|].
           unfold state_inv, total in *. st_simpl.
           rewrite list_insert_insert_eq, Hst. split_and!; try done; try lia; rewrite ?Hau; try f_equal; lia.
        -- st_simpl. rewrite list_lookup_insert_eq by done. rewrite <- Esl2.
           eexists. split; [done|].
           unfold state_inv, total in *. st_simpl.
           rewrite list_insert_insert_eq, Hst, Hra. split_and!; try done; try lia; rewrite ?Hau; try f_equal; lia.
      * st_simpl. rewrite list_lookup_insert_eq by done. rewrite <- Esl2.
           eexists. split; [done|].
        unfold state_inv, total in *. st_simpl.
        rewrite list_insert_insert_eq, Hst, Hra. split_and!; try done; try lia; rewrite ?Hau; try f_equal; lia.
    + st_simpl. rewrite list_lookup_insert_eq by done. rewrite <- Esl2.
           eexists. split; [done|].
      unfold state_inv, total in *. st_simpl.
      rewrite list_insert_insert_eq, Hst, Hra. split_and!; try done; try lia.
      all: destruct_and?; split_and?; try done; lia.
  - destruct (slice_inv_ack _ _ _ _ Hob Hsl) as (Hst & Hsl' & Hun).
    remember (set_outbox ob sl) as sl2 eqn:Esl2.
    pose proof (total_ge uninstalling s i sl Hi) as Hge.
    pose proof (total_insert scanning s i sl sl2 Hi) as Hsc.
    pose proof (total_insert uninstalling s i sl sl2 Hi) as Hus.
    assert (Hs2 : scanning sl2 = scanning sl) by by subst sl2.
    rewrite Hst in *.
    destruct (r_alive s) eqn:Hra; [|lia].
    assert (Hinv2 : Forall (fun sl => counter_inv sl /\
              slice_inv (this_id s) true sl /\ walkers_ok sl)
              (<[i := sl2]> (slices s))).
    { apply Forall_insert; [done|]. subst sl2. split_and!; done. }
    unfold btree_replicant_t.have_uninstalled. st_simpl. rewrite Hra, Hst, Hau. simpl negb.
    cbv iota. st_simpl.
    destruct (Z.ltb_spec (Z.of_nat (total uninstalling s) - 1) 0) as [Hneg|Hpos]; [lia|].
    destruct (Z.eqb_spec (Z.of_nat (total uninstalling s) - 1) 0) as [Hz|Hnz]; simpl.
    + destruct (Z.eqb_spec (active_slice_walkers s) 0) as [Ha|Ha].
      * unfold btree_replicant_t.done. st_simpl. rewrite Hst. eexists. split; [done|].
        unfold state_inv, total in *. st_simpl. rewrite Hst.
        split_and!; try done; try lia; rewrite ?Hau; try f_equal; lia.
      * eexists. split; [done|].
        unfold state_inv, total in *. st_simpl. rewrite Hst, Hra.
        split_and!; try done; try lia; rewrite ?Hau; try f_equal; lia.
    + eexists. split; [done|].
      unfold state_inv, total in *. st_simpl. rewrite Hst, Hra.
      split_and!; try done; try lia; rewrite ?Hau; try f_equal; lia.
Qed.

(** *** No handler fails *)

Lemma delete_safe w sl b :
  buf w = Some b -> (0 < length (live_walkers sl) + 1)%nat ->
  (active_branch_walkers sl - 1 = 0 -> txn sl = TxnOpen) ->
  exists sl', branch_walker_t.delete w sl = Next sl'.
Proof.
  intros Hb _ Ht. unfold branch_walker_t.delete, slice_walker_t.done. rewrite Hb. simpl.
  destruct (Z.eqb_spec (active_branch_walkers sl - 1) 0) as [Hz|Hz]; [|by eexists].
  rewrite (Ht Hz). by eexists.
Qed.

Lemma have_copied_value_safe w sync sl b es :
  buf w = Some b -> blocks (tree sl) b = leaf_node es ->
  -1 <= current_pair w < Z.of_nat (length es) ->
  (active_branch_walkers sl - 1 = 0 -> txn sl = TxnOpen) ->
  exists sl', branch_walker_t.have_copied_value w sync sl = Next sl'.
Proof.
  intros Hb Hn Hcp Ht. unfold branch_walker_t.have_copied_value.
  cbn [buf set_current_pair current_pair bw_id]. rewrite Hb.
  replace (tree (emit (EvAdvance (bw_id w) (current_pair w + 1))
     match large_value w with
     | Some r => emit (EvReleaseLarge (bw_id w) r) sl
     | None => sl
     end)) with (tree sl) by (by destruct (large_value w)).
  rewrite Hn.
  destruct (Z.eqb_spec (current_pair w + 1) (Z.of_nat (length es))) as [He|He].
  { eapply delete_safe; [done|lia|]. by destruct (large_value w). }
  destruct (Z.ltb_spec (current_pair w + 1) 0) as [Hlt|Hge]; [lia|].
  destruct (lookup_lt_is_Some_2 es (Z.to_nat (current_pair w + 1))) as [p Hp]; [lia|].
  rewrite Hp. destruct (is_large (lp_value p)); [by eexists|].
  unfold branch_walker_t.deliver_value. simpl. by eexists.
Qed.

Lemma slice_exec_safe this stp a sl e :
  counter_inv sl -> slice_inv this stp sl -> walkers_ok sl ->
  slice_exec this stp a sl <> Crash e.
Proof.
  intros [Hc _] (n & Hq & Hn & Hreg & Hack & Hack1 & Hph) [Hst Hsu].
  unfold slice_exec.
  destruct a as [sync| |k|sync]; destruct (stack sl) as [|f rest] eqn:Hs; try done.
  - destruct (queue sl) as [|m q] eqn:Hqq; [done|].
    destruct m; simpl; try done.
    unfold uninstall.
    assert (stp = true /\ n = 2%nat) as [-> ->].
    { destruct stp; destruct n as [|[|[|[|?]]]]; simpl in *; simplify_eq; done. }
    simpl. destruct (find_replicant_elem this (replicants sl) (Hreg eq_refl)) as [i ->]. done.
  - by destruct (awaiting_super sl).
  - by destruct (suspended sl !! k) as [[??]|].
  - assert (Hopen : active_branch_walkers sl - 1 = 0 -> txn sl = TxnOpen \/ True) by auto.
    apply Forall_cons in Hst as [Hf Hrest].
    unfold live_walkers, supers, count_if in *. rewrite Hs in *.
    destruct f as [ | |w b|w i|w|w]; simpl in *.
    + unfold superblock_available, slice_walker_t.done. simpl.
      destruct (root_block (tree sl)); [done|].
      destruct (txn sl); destruct_and?; try done; lia.
    + done.
    + unfold branch_walker_t.on_block_available. simpl.
      destruct (blocks (tree sl) b) as [ps|es] eqn:Hb; [done|].
      edestruct (have_copied_value_safe
        (set_large_value None (set_current_pair (-1) (set_buf (Some b) w))) sync
        (emit (EvBlock (bw_id w)) (set_stack rest sl))) as [sl' ->]; simpl; eauto; try lia.
      intros _. destruct (txn sl); destruct_and?; try done; lia.
    + destruct Hf as (b & ps & Hb & Hn'). unfold branch_walker_t.loop. rewrite Hb. simpl.
      rewrite Hn'. destruct (ps !! i); [done|].
      edestruct (delete_safe w (set_stack rest sl)) as [sl' ->]; simpl; eauto; try lia.
      intros _. destruct (txn sl); destruct_and?; try done; lia.
    + destruct Hf as (b & es & p & Hb & Hn' & Hcp & Hp & Hk & Hv & Hl & Hlv).
      unfold branch_walker_t.on_large_buf_available, branch_walker_t.deliver_value.
      rewrite Hlv. simpl. by rewrite Hk, Hv.
    + destruct Hf as (b & es & Hb & Hn' & Hcp).
      edestruct (have_copied_value_safe w sync (set_stack rest sl)) as [sl' ->]; simpl; eauto;
        try lia.
      intros _. destruct (txn sl); destruct_and?; try done; lia.
Qed.

(** *** Every state the machine reaches *)

Lemma new_slice_inv this x :
  counter_inv (btree_replicant_t.new_slice x) /\
  slice_inv this false (btree_replicant_t.new_slice x) /\
  walkers_ok (btree_replicant_t.new_slice x).
Proof.
  split_and!.
  - by split.
  - exists 0%nat. unfold count_if, supers, live_walkers, count_if. simpl. split_and!; try done; lia.
  - by split.
Qed.

Lemma state_inv_new this store : state_inv (btree_replicant_t.new this store).
Proof.
  unfold state_inv, total. simpl. split_and!; try done.
  - rewrite Forall_fmap. apply Forall_true. intros x. apply new_slice_inv.
  - f_equal. induction store as [|x store IH]; simpl; [done|]. lia.
  - induction store as [|x store IH]; simpl; [done|]. done.
Qed.

Lemma step_inv l s s' : step l s = Next s' -> state_inv s -> state_inv s'.
Proof.
  unfold step. destruct (legal l s) eqn:Hl; [|done]. destruct l as [|i|i a]; simpl.
  - simpl in Hl. apply negb_true_iff in Hl. by apply state_inv_stop.
  - destruct (slices s !! i) as [sl|] eqn:Hi; [|done].
    destruct (outbox sl) as [|m ob] eqn:Hob; [done|].
    intros Hex Hinv. destruct (state_inv_home s i sl m ob Hi Hob Hinv) as (s2 & Hs2 & Hinv2).
    simpl in Hs2. rewrite Hi, Hob in Hs2. congruence.
  - destruct (slices s !! i) as [sl|] eqn:Hi; [|done].
    destruct (slice_exec (this_id s) (stopping s) a sl) as [sl'| |] eqn:Hex; try done.
    intros [= <-]. apply state_inv_slice with sl a; [done|]. by apply slice_exec_step.
Qed.

Lemma run_inv ls s s' : run ls s = Next s' -> state_inv s -> state_inv s'.
Proof.
  revert s. induction ls as [|l ls IH]; intros s; simpl.
  - by intros [= <-].
  - destruct (step l s) as [s1| |] eqn:Hst; try done. eauto using step_inv.
Qed.

Lemma step_safe l s e : state_inv s -> step l s <> Crash e.
Proof.
  intros Hinv. pose proof Hinv as (Hall & Hasw & Hau & Hal).
  unfold step. destruct (legal l s) eqn:Hl; [|done]. destruct l as [|i|i a]; simpl.
  - simpl in Hl. apply negb_true_iff in Hl. rewrite Hl in Hau.
    destruct Hau as (_ & Hra & _). unfold btree_replicant_t.stop. by rewrite Hra.
  - destruct (slices s !! i) as [sl|] eqn:Hi; [|done].
    destruct (outbox sl) as [|m ob] eqn:Hob; [done|].
    destruct (state_inv_home s i sl m ob Hi Hob Hinv) as (s2 & Hs2 & Hinv2).
    simpl in Hs2. rewrite Hi, Hob in Hs2. by rewrite Hs2.
  - destruct (slices s !! i) as [sl|] eqn:Hi; [|done].
    rewrite Forall_lookup in Hall. destruct (Hall _ _ Hi) as (Hc & Hsl & Hw).
    pose proof (slice_exec_safe (this_id s) (stopping s) a sl e Hc Hsl Hw).
    destruct (slice_exec (this_id s) (stopping s) a sl); try done. congruence.
Qed.

(** *** Every step leaves less to do *)

Lemma subtree_fold_S {A} (leaf : list btree_leaf_pair -> A) (internal : list A -> A)
    t h b :
  subtree_fold leaf internal t (S h) b =
  match blocks t b with
  | leaf_node es => leaf es
  | internal_node ps =>
      internal (map (fun p => subtree_fold leaf internal t h (lnode p)) ps)
  end.
Proof. reflexivity. Qed.

Lemma tree_within_S t h b :
  tree_within t (S h) b =
  match blocks t b with
  | leaf_node _ => True
  | internal_node ps => Forall (fun p => tree_within t h (lnode p)) ps
  end.
Proof. reflexivity. Qed.

Lemma subtree_fold_fuel {A} (leaf : list btree_leaf_pair -> A) (internal : list A -> A)
    t h h' b :
  tree_within t h b -> (h <= h')%nat ->
  subtree_fold leaf internal t h' b = subtree_fold leaf internal t h b.
Proof.
  revert h' b. induction h as [|h IH]; intros h' b Hw Hle.
  - simpl in Hw. destruct h'; simpl; destruct (blocks t b); done.
  - destruct h' as [|h']; [lia|]. rewrite tree_within_S in Hw. rewrite !subtree_fold_S.
    destruct (blocks t b) as [ps|es]; [|done].
    f_equal. apply map_ext_Forall. eapply Forall_impl; [exact Hw|].
    intros p Hp. simpl in Hp. apply IH; [done|lia].
Qed.

Lemma subtree_fold_internal {A} (leaf : list btree_leaf_pair -> A) (internal : list A -> A)
    t h b ps :
  tree_within t h b -> blocks t b = internal_node ps ->
  subtree_fold leaf internal t h b =
  internal (map (fun p => subtree_fold leaf internal t h (lnode p)) ps).
Proof.
  intros Hw Hb. destruct h as [|h].
  - simpl in Hw. by rewrite Hb in Hw.
  - rewrite tree_within_S in Hw. rewrite subtree_fold_S. rewrite Hb in *.
    f_equal. apply map_ext_Forall. eapply Forall_impl; [exact Hw|].
    intros p Hp. simpl in Hp. symmetry. apply subtree_fold_fuel; [done|lia].
Qed.

Lemma subtree_fold_leaf {A} (leaf : list btree_leaf_pair -> A) (internal : list A -> A)
    t h b es :
  blocks t b = leaf_node es -> subtree_fold leaf internal t h b = leaf es.
Proof. intros Hb. destruct h; simpl; by rewrite Hb. Qed.

Lemma block_cost_internal t h b ps :
  tree_within t h b -> blocks t b = internal_node ps ->
  block_cost t h b = (3 + children_cost t h ps)%nat.
Proof.
  intros Hw Hb. unfold block_cost, children_cost.
  rewrite (subtree_fold_internal _ _ _ _ _ _ Hw Hb). unfold internal_cost.
  by rewrite map_map.
Qed.

Lemma block_cost_leaf t h b es :
  blocks t b = leaf_node es -> block_cost t h b = (2 + 4 * length es)%nat.
Proof. intros Hb. unfold block_cost. by rewrite (subtree_fold_leaf _ _ _ _ _ _ Hb). Qed.

Lemma sum_map_delete {A} (f : A -> nat) (l : list A) k x :
  l !! k = Some x -> (sum_list (map f (delete k l)) + f x = sum_list (map f l))%nat.
Proof.
  revert k. induction l as [|y l IH]; intros [|k] Hk; simplify_eq/=; [lia|].
  specialize (IH _ Hk). lia.
Qed.

Lemma sum_map_snoc {A} (f : A -> nat) (l : list A) x :
  sum_list (map f (l ++ [x])) = (sum_list (map f l) + f x)%nat.
Proof. induction l as [|y l IH]; simpl; lia. Qed.

Lemma children_cost_drop t h ps i p :
  ps !! i = Some p ->
  children_cost t h (drop i ps) =
  (2 + block_cost t h (lnode p) + children_cost t h (drop (S i) ps))%nat.
Proof.
  intros Hp. unfold children_cost. by rewrite (drop_S _ _ _ Hp).
Qed.

Lemma children_cost_end t h (ps : list btree_internal_pair) i :
  ps !! i = None -> children_cost t h (drop i ps) = 0%nat.
Proof.
  intros Hp. apply lookup_ge_None in Hp. unfold children_cost.
  by rewrite drop_ge.
Qed.

Lemma slice_cost_step h this stp a sl sl' :
  slice_step this stp sl a sl' -> walkers_within h sl ->
  (slice_cost h sl' < slice_cost h sl)%nat.
Proof.
  unfold walkers_within, slice_cost. intros Hstep (Hst & Hsu & Hroot).
  leaves Hstep.
  all: try destruct sync.
  all: prep.
  all: destruct_slice sl; sl_unfold; simpl in *; simplify_eq.
  all: repeat match goal with H : Forall _ (_ :: _) |- _ => apply Forall_cons in H; destruct H end.
  all: simpl in *;
       repeat match goal with
       | H : exists _, _ |- _ => destruct H
       | H : _ /\ _ |- _ => destruct H
       end; simplify_eq; unify_eqs.
  all: rewrite ?sum_map_snoc, ?length_app; simpl.
  all: try match goal with
       | Hk : ?su !! ?k = Some ?v |- context [delete ?k ?su] =>
           pose proof (sum_map_delete
             (fun y => S (frame_cost tree0 h (resume y.1 y.2))) su k v Hk); simpl in *
       end.
  all: try match goal with
       | Hb : blocks _ ?b = internal_node ?ps, Hw : tree_within _ _ ?b |- _ =>
           pose proof (block_cost_internal _ _ _ _ Hw Hb)
       end.
  all: try match goal with
       | Hb : blocks _ ?b = leaf_node ?es |- context [block_cost _ _ ?b] =>
           pose proof (block_cost_leaf _ h _ _ Hb)
       end.
  all: try match goal with
       | Hp : _ !! _ = Some _ |- _ => pose proof (lookup_lt_Some _ _ _ Hp)
       end.
  all: try match goal with
       | Hp : ?ps !! ?i = Some ?p |- _ =>
           pose proof (children_cost_drop tree0 h ps i p Hp)
       | Hp : ?ps !! ?i = None |- _ =>
           pose proof (children_cost_end tree0 h ps i Hp)
       end.
  all: unfold superblock_cost, pairs_left, leaf_cost in *; simpl in *.
  all: repeat match goal with
       | H : buf _ = Some _ |- _ => rewrite H in *
       | H : blocks _ _ = _ |- _ => rewrite H in *
       | H : root_block _ = _ |- _ => rewrite H in *
       end.
  all: repeat match goal with
       | |- context [if ?b then _ else _] => is_var b; destruct b
       end.
  all: rewrite ?drop_0 in *.
  all: lia.
Qed.

(** *** Runs are bounded *)

Lemma within_new h this store :
  Forall (fun x => root_within h x.1) store -> within h (btree_replicant_t.new this store).
Proof.
  intros Hst. unfold within. simpl. rewrite Forall_fmap.
  eapply Forall_impl; [exact Hst|]. intros x Hx. by split_and!.
Qed.

Lemma step_within h l s s' : step l s = Next s' -> within h s -> within h s'.
Proof.
  unfold step, within. destruct (legal l s); [|done]. destruct l as [|i|i a]; simpl.
  - unfold btree_replicant_t.stop. destruct (r_alive s); [|done]. simpl.
    intros [= <-] Hw. simpl. rewrite Forall_fmap. eapply Forall_impl; [exact Hw|]. done.
  - destruct (slices s !! i) as [sl|] eqn:Hi; [|done].
    destruct (outbox sl) as [|m ob] eqn:Hob; [done|].
    intros Hex Hw.
    assert (Hsl : walkers_within h sl) by (rewrite Forall_lookup in Hw; eauto).
    assert (Hlt := lookup_lt_Some _ _ _ Hi).
    destruct m.
    + unfold report in Hex.
      destruct (btree_replicant_t.slice_walker_done _) as [s1| |] eqn:Hd; try done.
      assert (Hs1 : slices s1 = <[i := set_outbox ob sl]> (slices s)).
      { revert Hd. unfold btree_replicant_t.slice_walker_done, btree_replicant_t.done.
        repeat case_match; try done; by intros [= <-]. }
      rewrite Hs1, list_lookup_insert_eq in Hex by done. injection Hex as <-. simpl.
      rewrite ?Hs1, list_insert_insert_eq. by apply Forall_insert.
    + assert (Hs1 : slices s' = <[i := set_outbox ob sl]> (slices s)).
      { revert Hex. unfold btree_replicant_t.have_uninstalled, btree_replicant_t.done.
        repeat case_match; try done; by intros [= <-]. }
      rewrite Hs1. by apply Forall_insert.
  - destruct (slices s !! i) as [sl|] eqn:Hi; [|done].
    destruct (slice_exec (this_id s) (stopping s) a sl) as [sl'| |] eqn:Hex; try done.
    intros [= <-] Hw. simpl. apply Forall_insert; [done|].
    rewrite Forall_lookup in Hw. eauto using walkers_within_step, slice_exec_step.
Qed.

Lemma enqueue_cost h sl : slice_cost h (enqueue_uninstall sl) = (slice_cost h sl + 2)%nat.
Proof. unfold slice_cost. simpl. rewrite sum_map_snoc. simpl. lia. Qed.

Lemma step_cost h l s s' :
  step l s = Next s' -> within h s -> (cost h s' < cost h s)%nat.
Proof.
  unfold step, within, cost. destruct (legal l s) eqn:Hl; [|done].
  destruct l as [|i|i a]; simpl.
  - simpl in Hl. apply negb_true_iff in Hl. rewrite Hl.
    unfold btree_replicant_t.stop. destruct (r_alive s); [|done]. simpl.
    intros [= <-] _. simpl.
    assert (forall l : list slice_state,
      sum_list (map (slice_cost h) (map enqueue_uninstall l)) =
      (sum_list (map (slice_cost h) l) + 2 * length l)%nat) as ->; [|lia].
    induction l as [|x l IH]; simpl; [done|]. rewrite IH, enqueue_cost. lia.
  - destruct (slices s !! i) as [sl|] eqn:Hi; [|done].
    destruct (outbox sl) as [|m ob] eqn:Hob; [done|].
    intros Hex Hw.
    assert (Hlt := lookup_lt_Some _ _ _ Hi).
    assert (Hc1 : (slice_cost h (set_outbox ob sl) + 1 = slice_cost h sl)%nat).
    { unfold slice_cost. simpl. rewrite Hob. simpl. lia. }
    assert (Hc2 : slice_cost h (set_sw_alive false (set_outbox ob sl)) =
                  slice_cost h (set_outbox ob sl)) by done.
    pose proof (sum_map_insert (slice_cost h) (slices s) i sl (set_outbox ob sl) Hi) as Hs.
    destruct m.
    + unfold report in Hex.
      destruct (btree_replicant_t.slice_walker_done _) as [s1| |] eqn:Hd; try done.
      assert (Hs1 : slices s1 = <[i := set_outbox ob sl]> (slices s) /\
                    stopping s1 = stopping s).
      { revert Hd. unfold btree_replicant_t.slice_walker_done, btree_replicant_t.done.
        repeat case_match; try done; by intros [= <-]. }
      destruct Hs1 as [Hs1 Hs1'].
      rewrite Hs1, list_lookup_insert_eq in Hex by done. injection Hex as <-. simpl.
      rewrite ?Hs1, Hs1', list_insert_insert_eq, !length_insert.
      pose proof (sum_map_insert (slice_cost h) (slices s) i sl
                    (set_sw_alive false (set_outbox ob sl)) Hi).
      destruct (stopping s); lia.
    + assert (Hs1 : slices s' = <[i := set_outbox ob sl]> (slices s) /\
                    stopping s' = stopping s).
      { revert Hex. unfold btree_replicant_t.have_uninstalled, btree_replicant_t.done.
        repeat case_match; try done; by intros [= <-]. }
      destruct Hs1 as [-> ->]. rewrite length_insert. destruct (stopping s); lia.
  - destruct (slices s !! i) as [sl|] eqn:Hi; [|done].
    destruct (slice_exec (this_id s) (stopping s) a sl) as [sl'| |] eqn:Hex; try done.
    intros [= <-] Hw. simpl. rewrite length_insert.
    pose proof (sum_map_insert (slice_cost h) (slices s) i sl sl' Hi) as Hs.
    assert ((slice_cost h sl' < slice_cost h sl)%nat).
    { eapply slice_cost_step; [by apply slice_exec_step|].
      rewrite Forall_lookup in Hw. eauto. }
    destruct (stopping s); lia.
Qed.

Lemma run_within h ls s s' : run ls s = Next s' -> within h s -> within h s'.
Proof.
  revert s. induction ls as [|l ls IH]; intros s; simpl.
  - by intros [= <-].
  - destruct (step l s) as [s1| |] eqn:Hst; try done. eauto using step_within.
Qed.

Lemma run_cost h ls s s' :
  run ls s = Next s' -> within h s -> (length ls + cost h s' <= cost h s)%nat.
Proof.
  revert s. induction ls as [|l ls IH]; intros s; simpl.
  - intros [= <-]. lia.
  - destruct (step l s) as [s1| |] eqn:Hst; try done. intros Hr Hw.
    pose proof (step_cost h l s s1 Hst Hw).
    pose proof (IH s1 Hr (step_within _ _ _ _ Hst Hw)). lia.
Qed.

(** *** A machine at rest has finished *)

Lemma run_frame_enabled f sync sl : run_frame f sync sl <> Disabled.
Proof.
  unfold run_frame, superblock_available, branch_walker_t.on_block_available,
    branch_walker_t.loop, branch_walker_t.on_large_buf_available,
    branch_walker_t.have_copied_value, branch_walker_t.deliver_value,
    branch_walker_t.delete, slice_walker_t.done.
  repeat case_match; done.
Qed.

Lemma run_msg_enabled this stp m sync sl : run_msg this stp m sync sl <> Disabled.
Proof. unfold run_msg, uninstall, slice_walker_t.start. repeat case_match; done. Qed.

Lemma slice_at_rest this stp sl :
  slice_inv this stp sl ->
  (forall a, slice_exec this stp a sl = Disabled) -> outbox sl = [] ->
  scanning sl = 0%nat /\ uninstalling sl = 0%nat.
Proof.
  intros (n & Hq & Hn & Hreg & Hack & Hack1 & Hph) Hdis Hob.
  assert (Hs : stack sl = []).
  { pose proof (Hdis (SRun true)) as H. unfold slice_exec in H.
    destruct (stack sl); [done|]. by apply run_frame_enabled in H. }
  assert (Hqe : queue sl = []).
  { pose proof (Hdis (SMsg true)) as H. unfold slice_exec in H. rewrite Hs in H.
    destruct (queue sl); [done|]. by apply run_msg_enabled in H. }
  assert (Ha : awaiting_super sl = false).
  { pose proof (Hdis SSuper) as H. unfold slice_exec in H. rewrite Hs in H.
    by destruct (awaiting_super sl). }
  assert (Hsu : suspended sl = []).
  { pose proof (Hdis (SCallback 0)) as H. unfold slice_exec in H. rewrite Hs in H.
    destruct (suspended sl) as [|[??] ?]; [done|]. done. }
  unfold scanning, uninstalling, supers, live_walkers, count_if in *.
  rewrite Hs, Hqe, Ha, Hsu, Hob in *. simpl in *.
  assert (n <> 0%nat).
  { intros ->. by destruct stp. }
  destruct (txn sl); destruct_and?; try done; try lia.
Qed.

Lemma total_zero f (s : state) :
  (forall i sl, slices s !! i = Some sl -> f sl = 0%nat) -> total f s = 0%nat.
Proof.
  unfold total. induction (slices s) as [|x l IH]; intros H; simpl; [done|].
  rewrite (H 0%nat x eq_refl). simpl. apply IH. intros i sl Hi. by apply (H (S i)).
Qed.

Lemma at_rest_scanned s :
  state_inv s ->
  (forall i a, step (LSlice i a) s = Disabled) ->
  (forall i, step (LHome i) s = Disabled) ->
  total scanning s = 0%nat /\ total uninstalling s = 0%nat.
Proof.
  intros Hinv Hsl Hho. pose proof Hinv as (Hall & _).
  assert (forall i sl, slices s !! i = Some sl ->
            scanning sl = 0%nat /\ uninstalling sl = 0%nat) as Hz.
  { intros i sl Hi. rewrite Forall_lookup in Hall. destruct (Hall _ _ Hi) as (Hc & Hsi & Hw).
    apply (slice_at_rest (this_id s) (stopping s)); [done| |].
    - intros a. specialize (Hsl i a). unfold step in Hsl. simpl in Hsl. rewrite Hi in Hsl.
      destruct (slice_exec (this_id s) (stopping s) a sl); done.
    - destruct (outbox sl) as [|m ob] eqn:Hob; [done|].
      destruct (state_inv_home s i sl m ob Hi Hob Hinv) as (s' & Hex & _).
      specialize (Hho i). unfold step in Hho. simpl legal in Hho. cbv iota in Hho. congruence. }
  split; apply total_zero; intros i sl Hi; by apply (Hz i sl).
Qed.

Lemma at_rest_stopped s :
  state_inv s -> slices s <> [] ->
  (forall l, step l s = Disabled) ->
  stopped_calls s = 1%nat.
Proof.
  intros Hinv Hne Hdis.
  destruct (at_rest_scanned s Hinv) as [Hsc Hun]; [by intros; apply Hdis..|].
  pose proof Hinv as (Hall & Hasw & Hau & Hal).
  assert (Hst : stopping s = true).
  { destruct (stopping s) eqn:Hst; [done|]. destruct Hau as (_ & Hra & _).
    pose proof (Hdis LStop) as H. unfold step in H. simpl in H. rewrite Hst in H. simpl in H.
    unfold btree_replicant_t.stop in H. by rewrite Hra in H. }
  destruct (r_alive s); [|by destruct Hal].
  destruct Hal as [_ Hal]. specialize (Hal Hst Hne). lia.
Qed.

(** *** Every pair is delivered once *)

Lemma entries_internal t h b ps :
  tree_within t h b -> blocks t b = internal_node ps ->
  entries t h b = concat (map (fun p => entries t h (lnode p)) ps).
Proof. intros Hw Hb. unfold entries. by rewrite (subtree_fold_internal _ _ _ _ _ _ Hw Hb). Qed.

Lemma entries_leaf t h b es :
  blocks t b = leaf_node es -> entries t h b = es.
Proof. intros Hb. unfold entries. by rewrite (subtree_fold_leaf _ _ _ _ _ _ Hb). Qed.

Lemma inline_view t p :
  is_large (lp_value p) = false ->
  delivery_view
    {| d_key := lp_key p;
       d_buffers := add_buffer (value_size (lp_value p)) (value (lp_value p)) [];
       d_mcflags := mcflags (lp_value p); d_exptime := exptime (lp_value p);
       d_cas := if has_cas (lp_value p) then cas (lp_value p) else 0 |} =
  stored_view t p.
Proof.
  intros Hl. unfold delivery_view, stored_view, group_bytes, add_buffer, value_size,
    stored_bytes, value, is_large in *. simpl.
  destruct (payload (lp_value p)); [|done]. by rewrite firstn_all, app_nil_r.
Qed.

Lemma large_view t p :
  is_large (lp_value p) = true -> larges_tile t ->
  delivery_view
    {| d_key := lp_key p;
       d_buffers := branch_walker_t.segment_buffers (large_bufs t (lb_ref (lp_value p)));
       d_mcflags := mcflags (lp_value p); d_exptime := exptime (lp_value p);
       d_cas := if has_cas (lp_value p) then cas (lp_value p) else 0 |} =
  stored_view t p.
Proof.
  intros Hl Ht. unfold delivery_view, stored_view. simpl.
  rewrite segment_buffers_bytes, (Ht _), firstn_all.
  unfold stored_bytes, lb_ref, is_large in *. by destruct (payload (lp_value p)).
Qed.

Lemma concat_map_delete {A B} (g : A -> list B) (l : list A) k x :
  l !! k = Some x -> concat (map g l) ≡ₚ g x ++ concat (map g (delete k l)).
Proof.
  revert k. induction l as [|y l IH]; intros [|k] Hk; simplify_eq/=; [done|].
  rewrite (IH _ Hk). solve_Permutation.
Qed.

Lemma slice_inv_start this stp sl q :
  slice_inv this stp sl -> queue sl = MStart :: q ->
  txn sl = TxnNone /\ awaiting_super sl = false.
Proof.
  unfold slice_inv, supers.
  intros (n & Hq & Hn & Hreg & Hack & Hack1 & Hph) Hqq. rewrite Hqq in Hq.
  assert (n = 0%nat) as -> by (destruct stp, n as [|[|[|[|?]]]]; simplify_eq/=; done).
  destruct (txn sl); destruct_and?; try done. split; [done|].
  destruct (awaiting_super sl); [lia|done].
Qed.

Ltac rw_node :=
  repeat match goal with
  | H : buf _ = Some _ |- _ => rewrite H
  | H : blocks _ _ = _ |- _ => rewrite H
  end.

Section seen.
Variable h : nat.
Abbreviation sv sl := (map (stored_view (tree sl))).

Lemma seen_pop sl f rest :
  stack sl = f :: rest ->
  seen h sl ≡ₚ sv sl (frame_todo (tree sl) h f) ++ seen h (set_stack rest sl).
Proof.
  intros Hs. unfold seen, slice_todo. rewrite Hs. simpl.
  rewrite !map_app. solve_Permutation.
Qed.

Lemma seen_push sl f :
  seen h (push f sl) ≡ₚ sv sl (frame_todo (tree sl) h f) ++ seen h sl.
Proof. unfold seen, slice_todo. simpl. rewrite !map_app. solve_Permutation. Qed.

Lemma seen_suspend sl w wt :
  seen h (suspend w wt sl) ≡ₚ sv sl (frame_todo (tree sl) h (resume w wt)) ++ seen h sl.
Proof.
  unfold seen, slice_todo. simpl. rewrite !map_app, !concat_app, !map_app. simpl.
  rewrite app_nil_r. solve_Permutation.
Qed.

Lemma seen_emit sl e : seen h (emit e sl) = seen h sl.
Proof. done. Qed.

Lemma seen_called_back sl w wt : seen h (called_back w wt sl) = seen h sl.
Proof. by destruct wt. Qed.

Lemma tree_called_back sl w wt : tree (called_back w wt sl) = tree sl.
Proof. by destruct wt. Qed.

Lemma seen_release_large sl w : seen h (release_large w sl) = seen h sl.
Proof. unfold release_large. by destruct (large_value w). Qed.

Lemma tree_release_large sl w : tree (release_large w sl) = tree sl.
Proof. unfold release_large. by destruct (large_value w). Qed.

Lemma seen_request sl w wt sync :
  seen h (request w wt sync sl) ≡ₚ sv sl (frame_todo (tree sl) h (resume w wt)) ++ seen h sl.
Proof.
  unfold request. destruct sync.
  - rewrite seen_push, seen_called_back. by rewrite tree_called_back.
  - apply seen_suspend.
Qed.

Lemma seen_deliver sl d :
  seen h (set_delivered (delivered sl ++ [d]) sl) ≡ₚ delivery_view d :: seen h sl.
Proof. unfold seen. simpl. rewrite map_app. simpl. solve_Permutation. Qed.

Lemma seen_new sl parent b sync :
  seen h (branch_walker_t.new parent b sync sl) ≡ₚ sv sl (entries (tree sl) h b) ++ seen h sl.
Proof. unfold branch_walker_t.new. by rewrite seen_request. Qed.

Lemma seen_delete w sl sl' :
  delete_step w sl sl' -> seen h sl' = seen h sl.
Proof.
  destruct 1 as [b Hb Hn|b Hb Hz Ht]; [done|].
  unfold seen, slice_todo. simpl. by rewrite Ht.
Qed.

Lemma drop_lookup_Z {A} (es : list A) (c : Z) p :
  0 <= c -> es !! Z.to_nat c = Some p ->
  drop (Z.to_nat c) es = p :: drop (Z.to_nat (c + 1)) es.
Proof.
  intros Hc Hp. rewrite (drop_S _ _ _ Hp). do 2 f_equal. lia.
Qed.

Lemma seen_copied w sync sl sl' b es :
  copied_step w sync sl sl' ->
  buf w = Some b -> blocks (tree sl) b = leaf_node es -> larges_tile (tree sl) ->
  seen h sl' ≡ₚ sv sl (drop (Z.to_nat (current_pair w + 1)) es) ++ seen h sl.
Proof.
  intros Hstep Hb Hn Htile.
  destruct Hstep as [b' es' sl' Hb' Hn' Hcp Hd|b' es' p Hb' Hn' Hcp Hp Hl|b' es' p Hb' Hn' Hcp Hp Hl];
    simplify_eq; unify_eqs.
  - rewrite (seen_delete _ _ _ Hd), seen_emit, seen_release_large.
    rewrite drop_ge by lia. done.
  - rewrite seen_request, seen_emit, seen_emit, seen_release_large. simpl.
    rewrite tree_release_large. unfold leaf_rest. simpl. by rw_node.
  - subst v w' sl1.
    set (w' := set_buffers _ _).
    set (d := {| d_key := lp_key p |}).
    set (sl1 := emit _ (release_large w sl)).
    assert (Hd : delivered sl = delivered sl1)
      by (unfold sl1, release_large; by destruct (large_value w)).
    rewrite Hd.
    rewrite seen_request, seen_emit, seen_deliver. unfold sl1.
    rewrite seen_emit, seen_release_large. simpl. rewrite tree_release_large.
    rewrite (drop_lookup_Z _ _ _ Hcp Hp). simpl.
    rewrite <- (inline_view (tree sl) p Hl).
    unfold leaf_rest. simpl. rw_node. solve_Permutation.
Qed.

Lemma scan_step this stp a sl sl' :
  slice_step this stp sl a sl' -> slice_inv this stp sl ->
  walkers_ok sl -> walkers_within h sl -> larges_tile (tree sl) ->
  seen h sl' ≡ₚ seen h sl.
Proof.
  intros Hstep Hinv (Hst & Hsu) (Hst' & Hsu' & Hroot) Htile.
  destruct Hstep as [sync m q sl' Hs Hq Hm|Hs Ha|k w wt Hs Hk|sync f rest sl' Hs Hf].
  - destruct Hm as [| |i Hstp Hfind]; [|done|done].
    destruct (slice_inv_start _ _ _ _ Hinv Hq) as [Htx Haw].
    unfold seen, slice_todo. destruct sync; simpl; rewrite Htx, Haw, Hs; simpl;
      rewrite ?app_nil_r; done.
  - unfold seen, slice_todo. simpl. rewrite Ha, Hs. simpl. by rewrite ?app_nil_r.
  - rewrite seen_push, seen_called_back, tree_called_back.
    unfold seen, slice_todo. simpl.
    rewrite (concat_map_delete (fun x => frame_todo (tree sl) h (resume x.1 x.2)) _ _ _ Hk).
    simpl. rewrite !map_app. solve_Permutation.
  - rewrite (seen_pop sl f rest Hs). rewrite Hs in Hst, Hst'.
    apply Forall_cons in Hst as [Hok _]. apply Forall_cons in Hst' as [Hin _].
    simpl in Hok, Hin.
    destruct Hf as [root Hr|Hr Ht| |w b ps Hb|w b es sl' Hb Hc|w i b ps p Hb Hn Hp
                   |w i b ps sl' Hb Hn Hp Hd|w r k v Hl Hk Hv|w sl' Hc].
    + rewrite seen_new, seen_push. simpl in *. unfold root_entries. rewrite Hr. done.
    + simpl in *. unfold seen, slice_todo, root_entries. simpl. rewrite Hr, Ht. done.
    + done.
    + rewrite seen_push, seen_emit. simpl in *. rewrite Hb.
      by rewrite (entries_internal _ _ _ _ Hin Hb).
    + rewrite (seen_copied _ _ _ _ b es Hc); [|done|done|done]. simpl in *.
      by rewrite (entries_leaf _ _ _ _ Hb).
    + rewrite seen_new, seen_push. simpl in *. rewrite Hb, Hn, (drop_S _ _ _ Hp). simpl.
      rewrite map_app. solve_Permutation.
    + rewrite (seen_delete _ _ _ Hd). simpl in *. rewrite Hb, Hn.
      apply lookup_ge_None in Hp. by rewrite drop_ge.
    + destruct Hok as (b & es & p & Hb & Hn & Hcp & Hp & Hk' & Hv' & Hlg & Hl').
      simplify_eq. unify_eqs.
      set (d := {| d_key := lp_key p |}).
      rewrite seen_request, seen_emit, seen_deliver. simpl in *.
      unfold leaf_rest. subst w'. simpl. rw_node. rewrite (drop_lookup_Z _ _ _ Hcp Hp). simpl.
      rewrite <- (large_view (tree sl) p Hlg Htile). solve_Permutation.
    + destruct Hok as (b & es & Hb & Hn & Hcp).
      rewrite (seen_copied _ _ _ _ b es Hc); [|done|done|done]. simpl in *.
      unfold leaf_rest. by rw_node.
Qed.

End seen.

Lemma scan_inv_step h this stp a sl sl' :
  slice_step this stp sl a sl' -> slice_inv this stp sl ->
  walkers_ok sl -> walkers_within h sl -> larges_tile (tree sl) ->
  scan_inv h sl -> scan_inv h sl'.
Proof.
  unfold scan_inv. intros Hstep Hinv Hok Hin Htile Hsc.
  rewrite (slice_step_tree _ _ _ _ _ Hstep). by rewrite (scan_step h _ _ _ _ _ Hstep).
Qed.

(** *** From one slice to the machine *)

Lemma step_change l s s' :
  step l s = Next s' ->
  this_id s' = this_id s /\
  Forall2 (slice_change (this_id s) (stopping s)) (slices s) (slices s').
Proof.
  unfold step. destruct (legal l s) eqn:Hl; [|done]. destruct l as [|i|i a]; simpl.
  - simpl in Hl. apply negb_true_iff in Hl.
    unfold btree_replicant_t.stop. destruct (r_alive s); [|done]. simpl.
    intros [= <-]. simpl. split; [done|]. apply Forall2_fmap_r, Forall_Forall2_diag.
    apply Forall_forall. intros sl _. by constructor.
  - destruct (slices s !! i) as [sl|] eqn:Hi; [|done].
    destruct (outbox sl) as [|m ob] eqn:Hob; [done|].
    assert (Hlt := lookup_lt_Some _ _ _ Hi). intros Hex.
    assert (Hrefl : Forall2 (slice_change (this_id s) (stopping s)) (slices s) (slices s)).
    { apply Forall_Forall2_diag, Forall_forall. intros ? _. constructor. }
    destruct m.
    + unfold report in Hex.
      destruct (btree_replicant_t.slice_walker_done _) as [s1| |] eqn:Hd; try done.
      assert (Hs1 : slices s1 = <[i := set_outbox ob sl]> (slices s) /\
                    this_id s1 = this_id s).
      { revert Hd. unfold btree_replicant_t.slice_walker_done, btree_replicant_t.done.
        repeat case_match; try done; by intros [= <-]. }
      destruct Hs1 as [Hs1 Hs2].
      rewrite Hs1, list_lookup_insert_eq in Hex by done. injection Hex as <-. simpl.
      rewrite ?Hs1, Hs2, list_insert_insert_eq. split; [done|].
      rewrite <- (list_insert_id (slices s) i sl Hi) at 1.
      apply Forall2_insert; [done|]. by constructor.
    + assert (Hs1 : slices s' = <[i := set_outbox ob sl]> (slices s) /\
                    this_id s' = this_id s).
      { revert Hex. unfold btree_replicant_t.have_uninstalled, btree_replicant_t.done.
        repeat case_match; try done; by intros [= <-]. }
      destruct Hs1 as [-> ->]. split; [done|].
      rewrite <- (list_insert_id (slices s) i sl Hi) at 1.
      apply Forall2_insert; [done|]. by constructor.
  - destruct (slices s !! i) as [sl|] eqn:Hi; [|done].
    destruct (slice_exec (this_id s) (stopping s) a sl) as [sl'| |] eqn:Hex; try done.
    intros [= <-]. simpl. split; [done|].
    rewrite <- (list_insert_id (slices s) i sl Hi) at 1.
    apply Forall2_insert.
    + apply Forall_Forall2_diag, Forall_forall. intros ? _. constructor.
    + econstructor 2. by apply slice_exec_step.
Qed.

(** A property of slices that every change of a well-formed slice keeps is
    kept by the steps of the machine. *)
Lemma step_lift (P : slice_state -> Prop) l s s' :
  (forall sl sl',
     counter_inv sl -> slice_inv (this_id s) (stopping s) sl -> walkers_ok sl ->
     slice_change (this_id s) (stopping s) sl sl' -> P sl -> P sl') ->
  step l s = Next s' -> state_inv s ->
  Forall P (slices s) -> Forall P (slices s').
Proof.
  intros HP Hst (Hsl & _) Hall.
  destruct (step_change _ _ _ Hst) as [_ Hch].
  revert Hsl Hall. induction Hch as [|sl sl' l1 l2 Hc Hch IH]; [done|].
  intros [(? & ? & ?) ?]%Forall_cons [? ?]%Forall_cons.
  apply Forall_cons. split; [by eapply HP|by apply IH].
Qed.

Lemma slice_change_tree this stp sl sl' :
  slice_change this stp sl sl' -> tree sl' = tree sl.
Proof. destruct 1; try done. by eapply slice_step_tree. Qed.

Lemma step_trees l s s' :
  step l s = Next s' -> map tree (slices s') = map tree (slices s).
Proof.
  intros Hst. destruct (step_change _ _ _ Hst) as [_ Hch].
  induction Hch as [|sl sl' l1 l2 Hc Hch IH]; [done|].
  simpl. by rewrite IH, (slice_change_tree _ _ _ _ Hc).
Qed.

Lemma run_trees ls s s' :
  run ls s = Next s' -> map tree (slices s') = map tree (slices s).
Proof.
  revert s. induction ls as [|l ls IH]; intros s; simpl.
  - by intros [= <-].
  - destruct (step l s) as [s1| |] eqn:Hst; try done. intros Hr.
    by rewrite (IH _ Hr), (step_trees _ _ _ Hst).
Qed.

(** *** Every pair is delivered once *)

Lemma scanned_new h this store :
  Forall (fun x => larges_tile x.1) store -> scanned h (btree_replicant_t.new this store).
Proof.
  intros Hst. unfold scanned. simpl. rewrite Forall_fmap.
  eapply Forall_impl; [exact Hst|]. intros x Hx. split; [|done].
  unfold scan_inv, seen, slice_todo. simpl. by rewrite !app_nil_r.
Qed.

Lemma step_scanned h l s s' :
  step l s = Next s' -> state_inv s -> within h s -> scanned h s -> scanned h s'.
Proof.
  intros Hst Hinv Hw Hsc.
  assert (Hboth : Forall (fun sl => walkers_within h sl /\ scan_inv h sl /\ larges_tile (tree sl))
            (slices s')).
  { eapply step_lift; [|done|done|].
    - intros sl sl' Hc Hi Hok Hch (Hwi & Hs & Ht).
      destruct Hch as [|a sl' Hstep|ob Hob|ob Hob|Hstp]; try done.
      split_and!.
      + by eapply walkers_within_step.
      + by eapply scan_inv_step.
      + by rewrite (slice_step_tree _ _ _ _ _ Hstep).
    - apply Forall_and. split; [done|]. done. }
  eapply Forall_impl; [exact Hboth|]. by intros sl (_ & ? & ?).
Qed.

Lemma run_scanned h ls s s' :
  run ls s = Next s' -> state_inv s -> within h s -> scanned h s -> scanned h s'.
Proof.
  revert s. induction ls as [|l ls IH]; intros s; simpl.
  - by intros [= <-].
  - destruct (step l s) as [s1| |] eqn:Hst; try done.
    eauto using step_scanned, step_inv, step_within.
Qed.

Lemma scan_complete h this stp sl :
  slice_inv this stp sl -> txn sl = TxnCommitted -> slice_todo h sl = [].
Proof.
  unfold slice_inv, supers, live_walkers.
  intros (n & _ & _ & _ & _ & _ & Hph) Ht. rewrite Ht in Hph.
  destruct Hph as (_ & Hsup & Hlive & _).
  unfold slice_todo. rewrite Ht.
  destruct (awaiting_super sl); [lia|].
  rewrite length_app in Hlive.
  assert (Hsu : suspended sl = []).
  { destruct (suspended sl); [done|]. simpl in Hlive. rewrite length_fmap in Hlive.
    simpl in Hlive. lia. }
  rewrite Hsu. simpl. rewrite app_nil_r.
  assert (Hst : forall l, count_if is_super l = 0%nat -> length (stack_walkers l) = 0%nat ->
                          concat (map (frame_todo (tree sl) h) l) = []).
  { induction l as [|f l IH]; [done|]. unfold count_if in *.
    destruct f; simpl; intros; try done; try lia; auto. }
  apply Hst; lia.
Qed.

(** *** A slice at rest has committed *)

Lemma slice_rest_committed this stp sl :
  slice_inv this stp sl ->
  (forall a, slice_exec this stp a sl = Disabled) -> txn sl = TxnCommitted.
Proof.
  intros (n & Hq & Hn & Hreg & Hack & Hack1 & Hph) Hdis.
  assert (Hs : stack sl = []).
  { pose proof (Hdis (SRun true)) as H. unfold slice_exec in H.
    destruct (stack sl); [done|]. by apply run_frame_enabled in H. }
  assert (Hqe : queue sl = []).
  { pose proof (Hdis (SMsg true)) as H. unfold slice_exec in H. rewrite Hs in H.
    destruct (queue sl); [done|]. by apply run_msg_enabled in H. }
  assert (Ha : awaiting_super sl = false).
  { pose proof (Hdis SSuper) as H. unfold slice_exec in H. rewrite Hs in H.
    by destruct (awaiting_super sl). }
  assert (Hsu : suspended sl = []).
  { pose proof (Hdis (SCallback 0)) as H. unfold slice_exec in H. rewrite Hs in H.
    destruct (suspended sl) as [|[??] ?]; [done|]. done. }
  unfold supers, live_walkers, count_if in *.
  rewrite Hs, Hqe, Ha, Hsu in *. simpl in *.
  assert (n <> 0%nat).
  { intros ->. by destruct stp. }
  destruct (txn sl); destruct_and?; try done; try lia.
Qed.

Lemma step_slice_disabled i a s sl :
  slices s !! i = Some sl -> step (LSlice i a) s = Disabled ->
  slice_exec (this_id s) (stopping s) a sl = Disabled.
Proof.
  intros Hi Hst. unfold step in Hst. simpl in Hst. rewrite Hi in Hst.
  by destruct (slice_exec (this_id s) (stopping s) a sl).
Qed.

(** *** The flags of the coordinator *)


Lemma step_flags l s s' :
  step l s = Next s' ->
  stopping s' = is_stop l || stopping s /\
  (is_home l = false -> stopped_calls s' = stopped_calls s /\ r_alive s' = r_alive s) /\
  (is_stop l = true -> stopping s = false).
Proof.
  unfold step. destruct (legal l s) eqn:Hl; [|done]. destruct l as [|i|i a]; simpl.
  - simpl in Hl. apply negb_true_iff in Hl.
    unfold btree_replicant_t.stop. destruct (r_alive s) eqn:Hr; [|done]. simpl.
    intros [= <-]. by simpl.
  - destruct (slices s !! i) as [sl|] eqn:Hi; [|done].
    destruct (outbox sl) as [|m ob] eqn:Hob; [done|].
    intros Hex. split_and!; try done. destruct m.
    + unfold report in Hex.
      destruct (btree_replicant_t.slice_walker_done _) as [s1| |] eqn:Hd; try done.
      assert (Hs1 : stopping s1 = stopping s).
      { revert Hd. unfold btree_replicant_t.slice_walker_done, btree_replicant_t.done.
        repeat case_match; try done; by intros [= <-]. }
      destruct (slices s1 !! i); [|done]. injection Hex as <-. by simpl.
    + revert Hex. unfold btree_replicant_t.have_uninstalled, btree_replicant_t.done.
      repeat case_match; try done; by intros [= <-].
  - destruct (slices s !! i) as [sl|] eqn:Hi; [|done].
    destruct (slice_exec (this_id s) (stopping s) a sl) as [sl'| |] eqn:Hex; try done.
    by intros [= <-].
Qed.

Lemma run_stopping ls s s' :
  run ls s = Next s' -> stopping s' = existsb is_stop ls || stopping s.
Proof.
  revert s. induction ls as [|l ls IH]; intros s; simpl.
  - by intros [= <-].
  - destruct (step l s) as [s1| |] eqn:Hst; try done. intros Hr.
    rewrite (IH _ Hr). destruct (step_flags _ _ _ Hst) as (-> & _).
    by destruct (is_stop l), (existsb is_stop ls), (stopping s).
Qed.

Lemma existsb_is_stop ls : existsb is_stop ls = true <-> LStop ∈ ls.
Proof.
  rewrite existsb_exists. split.
  - intros (l & Hl & Hs). destruct l; try done. by apply list_elem_of_In.
  - intros Hl. exists LStop. split; [by apply list_elem_of_In|done].
Qed.

(** *** Slices with no root *)

Lemma no_walker_step this stp a sl sl' :
  slice_step this stp sl a sl' -> root_block (tree sl) = None ->
  no_walker sl -> no_walker sl'.
Proof.
  unfold no_walker, live_walkers.
  intros Hstep Hroot (Ht & Hn & Hl & Hd). leaves Hstep.
  all: try destruct sync.
  all: prep.
  all: destruct_slice sl; sl_unfold; simpl in *; simplify_eq.
  all: try done.
  all: destruct suspended0; simplify_eq/=.
Qed.

Lemma no_walker_change this stp sl sl' :
  slice_change this stp sl sl' -> root_block (tree sl) = None ->
  no_walker sl -> no_walker sl'.
Proof. destruct 1; try done. by eapply no_walker_step. Qed.

Lemma reports_inv this stp sl :
  slice_inv this stp sl ->
  reports sl = match txn sl with TxnCommitted => 1%nat | _ => 0%nat end.
Proof.
  unfold reports. intros (n & _ & _ & _ & _ & _ & Hph).
  destruct (txn sl); destruct_and?; destruct (sw_alive sl); try done; lia.
Qed.

(** *** Traces that follow the protocol *)

Section follows.
Variable t : btree_slice.

Lemma protocol_other w e tr :
  event_walker e <> w -> event_parent e <> Some w ->
  protocol t w (e :: tr) = protocol t w tr.
Proof.
  intros H1 H2. simpl. destruct (protocol t w tr); [|done].
  unfold observe. by rewrite !bool_decide_false.
Qed.

Lemma protocol_own w e tr o :
  protocol t w tr = Some o -> event_walker e = w ->
  protocol t w (e :: tr) = own_event t e o.
Proof. intros H1 H2. simpl. rewrite H1. unfold observe. by rewrite bool_decide_true. Qed.

Lemma protocol_child w e tr o :
  protocol t w tr = Some o -> event_walker e <> w -> event_parent e = Some w ->
  protocol t w (e :: tr) = child_event t e o.
Proof.
  intros H1 H2 H3. simpl. rewrite H1. unfold observe.
  by rewrite bool_decide_false, bool_decide_true.
Qed.

Lemma protocol_fresh w tr n :
  Forall (fun e => (event_walker e < n)%nat /\
                   forall p, event_parent e = Some p -> (p < n)%nat) tr ->
  (n <= w)%nat -> protocol t w tr = Some unborn.
Proof.
  intros Htr Hn. induction Htr as [|e tr [He Hp] Htr IH]; [done|].
  rewrite protocol_other; [done|lia|]. intros Hw. apply Hp in Hw. lia.
Qed.

Lemma follows_perm tr ws ws' n : ws ≡ₚ ws' -> follows t tr ws n -> follows t tr ws' n.
Proof.
  intros Hp (HA & HB & HC & HD & HE). split_and!; try done.
  - by rewrite <- Hp.
  - by rewrite <- Hp.
  - by rewrite <- Hp.
Qed.

Lemma follows_drop tr x ws n : follows t tr (x :: ws) n -> follows t tr ws n.
Proof.
  intros (HA & HB & HC & HD & HE). split_and!; try done.
  - by apply Forall_cons in HB as [_ ?].
  - simpl in HC. by apply NoDup_cons in HC as [_ ?].
  - by apply Forall_cons in HD as [_ ?].
Qed.

Lemma follows_emit tr i o ws n e o' :
  follows t tr ((i, o) :: ws) n ->
  event_walker e = i -> event_parent e = None ->
  own_event t e o = Some o' ->
  follows t (e :: tr) ((i, o') :: ws) n.
Proof.
  intros (HA & HB & HC & HD & HE) Hw Hp Ho.
  apply Forall_cons in HB as [HB1 HB]. simpl in HB1, HC.
  apply NoDup_cons in HC as [Hi HC]. apply Forall_cons in HD as [HD1 HD]. simpl in HD1.
  assert (Hme : protocol t i (e :: tr) = Some o') by by rewrite (protocol_own _ _ _ _ HB1 Hw).
  split_and!.
  - intros w. destruct (decide (w = i)) as [->|Hne]; [by rewrite Hme|].
    rewrite protocol_other; [done|congruence|by rewrite Hp].
  - apply Forall_cons. split; [done|].
    apply Forall_forall. intros x Hx. rewrite Forall_forall in HB.
    rewrite protocol_other; [by apply HB| |by rewrite Hp].
    intros Heq. apply Hi. apply list_elem_of_fmap. exists x. split; [congruence|done].
  - simpl. by apply NoDup_cons.
  - by apply Forall_cons.
  - apply Forall_cons. split; [|done]. split; [lia|]. intros p. by rewrite Hp.
Qed.

Lemma follows_weaken tr ws n :
  follows t tr ws n -> follows t tr ws (S n).
Proof.
  intros (HA & HB & HC & HD & HE). split_and!; try done.
  - eapply Forall_impl; [exact HD|]. simpl. lia.
  - eapply Forall_impl; [exact HE|]. simpl. intros e [? Hp]. split; [lia|].
    intros p Hpe. apply Hp in Hpe. lia.
Qed.

Lemma follows_spawn_root tr ws n b :
  follows t tr ws n ->
  follows t (EvConstruct n None b :: tr) ((n, born b) :: ws) (S n).
Proof.
  intros (HA & HB & HC & HD & HE).
  assert (Hn : protocol t n tr = Some unborn) by by eapply protocol_fresh.
  assert (Hme : protocol t n (EvConstruct n None b :: tr) = Some (born b)).
  { rewrite (protocol_own n (EvConstruct n None b) _ _ Hn eq_refl).
    unfold own_event, guard. rewrite andb_true_intro; [done|].
    split; by apply bool_decide_eq_true. }
  assert (Hni : n ∉ map fst ws).
  { intros (x & -> & Hx)%list_elem_of_fmap. rewrite Forall_forall in HD.
    apply HD in Hx. lia. }
  split_and!.
  - intros w. destruct (decide (w = n)) as [->|Hne]; [by rewrite Hme|].
    rewrite protocol_other; [done|simpl; congruence|done].
  - apply Forall_cons. split; [done|].
    apply Forall_forall. intros x Hx. rewrite Forall_forall in HB.
    rewrite protocol_other; [by apply HB| |done].
    simpl. intros Heq. apply Hni. apply list_elem_of_fmap. by exists x.
  - simpl. by apply NoDup_cons.
  - apply Forall_cons. split; [simpl; lia|].
    eapply Forall_impl; [exact HD|]. simpl. lia.
  - apply Forall_cons. split; [simpl; split; [lia|done]|].
    eapply Forall_impl; [exact HE|]. simpl. intros e [? Hp]. split; [lia|].
    intros p Hpe. apply Hp in Hpe. lia.
Qed.

Lemma follows_spawn tr i o ws n b o' :
  follows t tr ((i, o) :: ws) n ->
  child_event t (EvConstruct n (Some i) b) o = Some o' ->
  follows t (EvConstruct n (Some i) b :: tr) ((n, born b) :: (i, o') :: ws) (S n).
Proof.
  intros (HA & HB & HC & HD & HE) Ho.
  assert (Hn : protocol t n tr = Some unborn) by by eapply protocol_fresh.
  assert (Hme : protocol t n (EvConstruct n (Some i) b :: tr) = Some (born b)).
  { rewrite (protocol_own n (EvConstruct n (Some i) b) _ _ Hn eq_refl).
    apply Forall_cons in HD as [HD1 _]. simpl in HD1.
    unfold own_event, guard. rewrite andb_true_intro; [done|].
    split; apply bool_decide_eq_true; [done|intros [= ->]; lia]. }
  assert (Hni : n ∉ map fst ((i, o) :: ws)).
  { intros (x & -> & Hx)%list_elem_of_fmap. rewrite Forall_forall in HD.
    apply HD in Hx. lia. }
  apply Forall_cons in HB as [HB1 HB]. simpl in HB1, HC.
  apply NoDup_cons in HC as [Hi HC]. apply Forall_cons in HD as [HD1 HD]. simpl in HD1.
  assert (Hpa : protocol t i (EvConstruct n (Some i) b :: tr) = Some o').
  { rewrite (protocol_child _ _ _ _ HB1); [done|simpl; lia|done]. }
  split_and!.
  - intros w. destruct (decide (w = n)) as [->|Hne]; [by rewrite Hme|].
    destruct (decide (w = i)) as [->|Hne']; [by rewrite Hpa|].
    rewrite protocol_other; [done|simpl; congruence|simpl; congruence].
  - apply Forall_cons. split; [done|]. apply Forall_cons. split; [done|].
    apply Forall_forall. intros x Hx. rewrite Forall_forall in HB.
    rewrite protocol_other; [by apply HB| |].
    + simpl. intros Heq. apply Hni. simpl. right. apply list_elem_of_fmap. by exists x.
    + simpl. intros [= Heq]. apply Hi. apply list_elem_of_fmap. by exists x.
  - simpl. apply NoDup_cons. split; [done|]. by apply NoDup_cons.
  - apply Forall_cons. split; [simpl; lia|]. apply Forall_cons. split; [simpl; lia|].
    eapply Forall_impl; [exact HD|]. simpl. lia.
  - apply Forall_cons. split; [simpl; split; [lia|intros p [= <-]; lia]|].
    eapply Forall_impl; [exact HE|]. simpl. intros e [? Hp]. split; [lia|].
    intros p Hpe. apply Hp in Hpe. lia.
Qed.

End follows.

(** *** The protocol is followed on every slice *)

Lemma expected_pop sl f rest :
  stack sl = f :: rest ->
  expected sl = phase (tree sl) f false ++ expected (set_stack rest sl).
Proof. unfold expected. intros ->. simpl. by rewrite app_assoc. Qed.

Lemma expected_callback sl k x :
  suspended sl !! k = Some x ->
  expected sl ≡ₚ phase (tree sl) (resume x.1 x.2) true ++
                 expected (set_suspended (delete k (suspended sl)) sl).
Proof.
  intros Hk. unfold expected. simpl.
  rewrite (concat_map_delete (fun x => phase (tree sl) (resume x.1 x.2) true) _ _ _ Hk).
  solve_Permutation.
Qed.

Lemma pi_push f sl :
  follows (tree sl) (trace sl) (phase (tree sl) f false ++ expected sl) (next_id sl) ->
  protocol_inv (push f sl).
Proof. unfold protocol_inv, expected. simpl. by rewrite app_assoc. Qed.

Lemma pi_suspend w wt sl :
  follows (tree sl) (trace sl) (phase (tree sl) (resume w wt) true ++ expected sl)
    (next_id sl) ->
  protocol_inv (suspend w wt sl).
Proof.
  unfold protocol_inv, expected. simpl. rewrite map_app, concat_app. simpl.
  rewrite app_nil_r. apply follows_perm. solve_Permutation.
Qed.

Ltac fw e :=
  match goal with
  | H : follows _ _ _ _ |- _ =>
      eapply (follows_emit _ _ _ _ _ _ e) in H;
      [|reflexivity|reflexivity
       |unfold own_event, guard; simpl; rewrite ?bool_decide_true by done; reflexivity]
  end.

Lemma pi_request w wt sync sl :
  follows (tree sl) (trace sl) (phase (tree sl) (resume w wt) true ++ expected sl)
    (next_id sl) ->
  protocol_inv (request w wt sync sl).
Proof.
  unfold request. destruct sync; [|apply pi_suspend].
  intros H. apply pi_push. destruct wt; simpl in *; try done.
  fw (EvDone (bw_id w)). exact H.
Qed.

Lemma pi_delete w sl sl' o :
  delete_step w sl sl' ->
  follows (tree sl) (trace sl) ((bw_id w, o) :: expected sl) (next_id sl) ->
  o_block o <> None ->
  o_kids o = map lnode (internal_pairs (tree sl) (o_block o)) ->
  protocol_inv sl'.
Proof.
  intros Hd H Hb Hk. destruct Hd; fw (EvDestroy (bw_id w)); apply follows_drop in H; exact H.
Qed.

Lemma pi_copied w sync sl sl' :
  copied_step w sync sl sl' ->
  follows (tree sl) (trace sl)
    ((bw_id w, {| o_block := buf w; o_kids := []; o_held := large_value w;
                  o_awaiting := false |}) :: expected sl) (next_id sl) ->
  protocol_inv sl'.
Proof.
  intros Hc H.
  destruct Hc as [b es sl' Hb Hn Hcp Hd|b es p Hb Hn Hcp Hp Hl|b es p Hb Hn Hcp Hp Hl].
  - revert Hd H. unfold release_large. destruct (large_value w) as [r|] eqn:Hlv; intros Hd H.
    + fw (EvReleaseLarge (bw_id w) r). fw (EvAdvance (bw_id w) (current_pair w + 1)).
      eapply pi_delete; [exact Hd|exact H|simpl; by rewrite Hb|]. simpl. rewrite Hb. simpl. by rewrite Hn.
    + fw (EvAdvance (bw_id w) (current_pair w + 1)).
      eapply pi_delete; [exact Hd|exact H|simpl; by rewrite Hb|]. simpl. rewrite Hb. simpl. by rewrite Hn.
  - revert H. unfold release_large. destruct (large_value w) as [r|] eqn:Hlv; intros H.
    + fw (EvReleaseLarge (bw_id w) r). fw (EvAdvance (bw_id w) (current_pair w + 1)).
      fw (EvAcquireLarge (bw_id w) (lb_ref (lp_value p))).
      apply pi_request. exact H.
    + fw (EvAdvance (bw_id w) (current_pair w + 1)).
      fw (EvAcquireLarge (bw_id w) (lb_ref (lp_value p))).
      apply pi_request. exact H.
  - subst v w' sl1.
    revert H. unfold release_large. destruct (large_value w) as [r|] eqn:Hlv; intros H.
    + fw (EvReleaseLarge (bw_id w) r). fw (EvAdvance (bw_id w) (current_pair w + 1)).
      fw (EvDeliver (bw_id w) (lp_key p)).
      apply pi_request. exact H.
    + fw (EvAdvance (bw_id w) (current_pair w + 1)).
      fw (EvDeliver (bw_id w) (lp_key p)).
      apply pi_request. exact H.
Qed.

Lemma protocol_inv_step this stp a sl sl' :
  slice_step this stp sl a sl' -> protocol_inv sl -> protocol_inv sl'.
Proof.
  intros Hstep H.
  destruct Hstep as [sync m q sl' Hs Hq Hm|Hs Ha|k w wt Hs Hk|sync f rest sl' Hs Hf].
  - destruct Hm as [| |i Hstp Hfind]; [destruct sync| |]; exact H.
  - exact H.
  - apply (pi_request w wt true). unfold protocol_inv in H.
    apply (follows_perm _ _ _ _ _ (expected_callback _ _ _ Hk)) in H. exact H.
  - unfold protocol_inv in H. rewrite (expected_pop _ _ _ Hs) in H.
    destruct Hf as [root Hr|Hr Ht| |w b ps Hb|w b es sl' Hb Hc|w i b ps p Hb Hn Hp
                   |w i b ps sl' Hb Hn Hp Hd|w r k v Hl Hk Hv|w sl' Hc].
    + unfold branch_walker_t.new. apply pi_request. simpl.
      apply follows_spawn_root. exact H.
    + exact H.
    + exact H.
    + simpl in H. fw (EvBlock (bw_id w)). apply pi_push. exact H.
    + simpl in H. fw (EvBlock (bw_id w)). eapply pi_copied; [exact Hc|exact H].
    + unfold branch_walker_t.new. apply pi_request. simpl in *.
      eapply follows_spawn in H; [exact H|].
      unfold child_event, guard. simpl. rewrite Hb. simpl. rewrite Hn.
      assert (Hlt := lookup_lt_Some _ _ _ Hp).
      rewrite bool_decide_true.
      * unfold set_kids. simpl. rewrite (take_S_r _ _ _ Hp), map_app. done.
      * rewrite length_map, length_take, Nat.min_l by lia. by rewrite Hp.
    + eapply pi_delete; [exact Hd|exact H|simpl; by rewrite Hb|]. simpl in *. rewrite Hb. simpl. rewrite Hn.
      apply lookup_ge_None in Hp. by rewrite take_ge.
    + subst w'. simpl in H. fw (EvDeliver (bw_id w) k). apply pi_request. exact H.
    + eapply pi_copied; [exact Hc|exact H].
Qed.

Lemma protocol_inv_change this stp sl sl' :
  slice_change this stp sl sl' -> protocol_inv sl -> protocol_inv sl'.
Proof. destruct 1; try done. by eapply protocol_inv_step. Qed.

Lemma split_last_step ls l s0 s :
  run (ls ++ [l]) s0 = Next s -> exists s1, run ls s0 = Next s1 /\ step l s1 = Next s.
Proof.
  revert s0. induction ls as [|l' ls IH]; intros s0; simpl.
  - destruct (step l s0) eqn:Hst; try done. intros [= <-]. eauto.
  - destruct (step l' s0); try done. apply IH.
Qed.

Lemma run_this_id ls s0 s : run ls s0 = Next s -> this_id s = this_id s0.
Proof.
  revert s0. induction ls as [|l ls IH]; intros s0; simpl.
  - by intros [= <-].
  - destruct (step l s0) as [s2| |] eqn:Hst; try done. intros Hr.
    rewrite (IH _ Hr). by destruct (step_change _ _ _ Hst) as [-> _].
Qed.

(** A property of slices that holds on new slices and that every change of
    a well-formed slice keeps holds on every slice at every point of every
    run. *)
Lemma reachable_lift (P : slice_state -> Prop) this store ls s :
  (forall x, P (btree_replicant_t.new_slice x)) ->
  (forall stp sl sl', slice_change this stp sl sl' -> P sl -> P sl') ->
  run ls (btree_replicant_t.new this store) = Next s ->
  Forall P (slices s).
Proof.
  intros Hnew Hch. revert s. induction ls as [|l ls IH] using rev_ind; intros s.
  - intros [= <-]. simpl. rewrite Forall_fmap. apply Forall_forall. intros x _. apply Hnew.
  - intros Hr. destruct (split_last_step _ _ _ _ Hr) as (s1 & Hr1 & Hst).
    destruct (step_change _ _ _ Hst) as [_ Hc]. specialize (IH s1 Hr1).
    assert (Hid : this_id s1 = this) by apply (run_this_id _ _ _ Hr1).
    rewrite Hid in Hc. clear -Hc IH Hch.
    induction Hc as [|sl sl' l1 l2 Hc1 Hc IH']; [done|].
    apply Forall_cons in IH as [? ?]. apply Forall_cons. split; eauto.
Qed.

Lemma reachable_protocol this store ls s :
  run ls (btree_replicant_t.new this store) = Next s ->
  Forall protocol_inv (slices s).
Proof.
  apply reachable_lift.
  - intros x. unfold protocol_inv, expected. simpl.
    split_and!; try constructor. by eexists.
  - intros stp sl sl'. apply protocol_inv_change.
Qed.

(** *** What a trace that follows the protocol tells *)

Section derive.
Variable t : btree_slice.
Variable w : nat.

Lemma protocol_cons e tr o :
  protocol t w (e :: tr) = Some o ->
  exists o', protocol t w tr = Some o' /\ observe t w e o' = Some o.
Proof. simpl. destruct (protocol t w tr); [eauto|done]. Qed.

Lemma protocol_suffix t2 t1 :
  is_Some (protocol t w (t2 ++ t1)) -> is_Some (protocol t w t1).
Proof.
  induction t2 as [|e t2 IH]; simpl; [done|].
  destruct (protocol t w (t2 ++ t1)); [intros _; apply IH; eauto|by intros [? ?]].
Qed.

Ltac observe_cases H :=
  unfold observe in H;
  try match type of H with context [event_walker ?e] => is_var e; destruct e end;
  simpl in H; unfold guard in H;
  repeat case_bool_decide;
  repeat match type of H with
  | context [match ?e with _ => _ end] => destruct e eqn:?
  end; simplify_eq/=;
  repeat match goal with
  | H : _ && _ = true |- _ => apply andb_prop in H as [? ?]
  | H : bool_decide _ = true |- _ => apply bool_decide_eq_true in H
  | H : negb _ = true |- _ => apply negb_true_iff in H
  end.

Lemma observe_held e o o' r :
  observe t w e o = Some o' -> o_held o = Some r ->
  o_held o' = Some r \/ e = EvReleaseLarge w r.
Proof. intros H Hh. observe_cases H; auto; try congruence; right; congruence. Qed.

Lemma observe_awaiting e o o' :
  observe t w e o = Some o' -> o_awaiting o = true ->
  o_awaiting o' = true \/ e = EvDone w.
Proof. intros H Hh. observe_cases H; auto; try congruence; right; congruence. Qed.

Lemma held_until_released r tA t2 oA o :
  protocol t w tA = Some oA -> o_held oA = Some r ->
  protocol t w (t2 ++ tA) = Some o ->
  o_held o = Some r \/ EvReleaseLarge w r ∈ t2.
Proof.
  intros HA Hh. revert o. induction t2 as [|e t2 IH]; intros o; simpl.
  - intros. simplify_eq. by left.
  - destruct (protocol t w (t2 ++ tA)) as [o'|]; [|done]. intros Ho.
    destruct (IH o' eq_refl) as [Hh'|Hin]; [|right; by constructor].
    destruct (observe_held _ _ _ _ Ho Hh') as [?| ->]; [by left|right; constructor].
Qed.

Lemma awaiting_until_done tA t2 oA o :
  protocol t w tA = Some oA -> o_awaiting oA = true ->
  protocol t w (t2 ++ tA) = Some o ->
  o_awaiting o = true \/ EvDone w ∈ t2.
Proof.
  intros HA Hh. revert o. induction t2 as [|e t2 IH]; intros o; simpl.
  - intros. simplify_eq. by left.
  - destruct (protocol t w (t2 ++ tA)) as [o'|]; [|done]. intros Ho.
    destruct (IH o' eq_refl) as [Hh'|Hin]; [|right; by constructor].
    destruct (observe_awaiting _ _ _ Ho Hh') as [?| ->]; [by left|right; constructor].
Qed.

(** Between two acquisitions the first large value is released. *)
Lemma acquire_after_release t1 t2 t3 r1 r2 :
  is_Some (protocol t w (t3 ++ EvAcquireLarge w r2 :: t2 ++ EvAcquireLarge w r1 :: t1)) ->
  EvReleaseLarge w r1 ∈ t2.
Proof.
  intros [o2 Ho2]%protocol_suffix.
  apply protocol_cons in Ho2 as (o & Ho & Hobs).
  destruct (protocol_suffix t2 _ (mk_is_Some _ _ Ho)) as [o1 Ho1].
  pose proof Ho1 as Ho1'. apply protocol_cons in Ho1' as (o0 & Ho0 & Hobs0).
  assert (Hh : o_held o1 = Some r1) by (observe_cases Hobs0; done).
  destruct (held_until_released r1 _ t2 _ _ Ho1 Hh Ho) as [Hh'|]; [|done].
  observe_cases Hobs; congruence.
Qed.

(** Between a delivery and the next pair the sink calls back. *)
Lemma advance_after_done t1 t2 t3 k j :
  is_Some (protocol t w (t3 ++ EvAdvance w j :: t2 ++ EvDeliver w k :: t1)) ->
  EvDone w ∈ t2.
Proof.
  intros [o2 Ho2]%protocol_suffix.
  apply protocol_cons in Ho2 as (o & Ho & Hobs).
  destruct (protocol_suffix t2 _ (mk_is_Some _ _ Ho)) as [o1 Ho1].
  pose proof Ho1 as Ho1'. apply protocol_cons in Ho1' as (o0 & Ho0 & Hobs0).
  assert (Hh : o_awaiting o1 = true) by (observe_cases Hobs0; done).
  destruct (awaiting_until_done _ t2 _ _ Ho1 Hh Ho) as [Hh'|]; [|done].
  observe_cases Hobs; congruence.
Qed.

Lemma spawned_app h1 h2 : spawned w (h1 ++ h2) = spawned w h1 ++ spawned w h2.
Proof.
  induction h1 as [|e h1 IH]; [done|]. destruct e; simpl; try done.
  case_bool_decide; simpl; by rewrite IH.
Qed.

Lemma observe_block e o o' :
  observe t w e o = Some o' ->
  o_block o' = o_block o \/
  o_block o = None /\ exists parent b, e = EvConstruct w parent b /\ o_block o' = Some b.
Proof. intros H. observe_cases H; auto; right; eauto. Qed.

Lemma protocol_block_of tr o b :
  protocol t w tr = Some o -> o_block o = Some b ->
  exists parent, EvConstruct w parent b ∈ tr.
Proof.
  revert o. induction tr as [|e tr IH]; intros o.
  - by intros [= <-].
  - intros (o' & Ho' & Hobs)%protocol_cons Hb.
    destruct (observe_block _ _ _ Hobs) as [Heq|(Hn & parent & b' & -> & Hb')].
    + rewrite Heq in Hb. destruct (IH _ Ho' Hb) as [parent ?]. exists parent. by constructor.
    + exists parent. rewrite Hb in Hb'. injection Hb' as ->. constructor.
Qed.

Lemma protocol_block_is tr o parent b :
  protocol t w tr = Some o -> EvConstruct w parent b ∈ tr -> o_block o = Some b.
Proof.
  revert o. induction tr as [|e tr IH]; intros o.
  - by intros _ ?%elem_of_nil.
  - intros (o' & Ho' & Hobs)%protocol_cons [<-|Hin]%elem_of_cons.
    + unfold observe in Hobs. simpl in Hobs. rewrite bool_decide_true in Hobs by done.
      unfold guard in Hobs. by case_match; simplify_eq.
    + specialize (IH _ Ho' Hin).
      destruct (observe_block _ _ _ Hobs) as [Heq|(Hn & _)]; congruence.
Qed.

Lemma observe_kids e o o' :
  observe t w e o = Some o' ->
  o_kids o = map lnode (take (length (o_kids o)) (internal_pairs t (o_block o))) ->
  o_kids o' = o_kids o ++ spawned w [e] /\
  o_kids o' = map lnode (take (length (o_kids o')) (internal_pairs t (o_block o'))).
Proof.
  intros H Hk. observe_cases H; rewrite ?app_nil_r; try done.
  all: try case_bool_decide; simplify_eq/=; rewrite ?app_nil_r; try done.
  all: try (split; [done|]).
  - rewrite H1 in Hk. simpl in Hk. rewrite take_nil in Hk. simpl in Hk. by rewrite Hk.
  - rewrite length_app. simpl.
    destruct (internal_pairs t (o_block o) !! length (o_kids o)) as [p|] eqn:Hp;
      simplify_eq/=.
    rewrite Nat.add_1_r, (take_S_r _ _ _ Hp), map_app, <- Hk. done.
Qed.

Lemma protocol_kids tr o :
  protocol t w tr = Some o ->
  o_kids o = spawned w (rev tr) /\
  o_kids o = map lnode (take (length (o_kids o)) (internal_pairs t (o_block o))).
Proof.
  revert o. induction tr as [|e tr IH]; intros o.
  - by intros [= <-].
  - intros (o' & Ho' & Hobs)%protocol_cons. destruct (IH _ Ho') as [IH1 IH2].
    destruct (observe_kids _ _ _ Hobs IH2) as [H1 H2]. split; [|done].
    simpl. by rewrite spawned_app, <- IH1.
Qed.

(** The children of a walker on an internal node are made for its pairs, in
    the order of the pairs. *)
Lemma spawned_in_order tr parent b ps :
  is_Some (protocol t w tr) -> EvConstruct w parent b ∈ tr ->
  blocks t b = internal_node ps ->
  exists n, spawned w (rev tr) = map lnode (take n ps).
Proof.
  intros [o Ho] Hin Hb. destruct (protocol_kids _ _ Ho) as [H1 H2].
  rewrite (protocol_block_is _ _ _ _ Ho Hin) in H2. simpl in H2. rewrite Hb in H2.
  rewrite <- H1. eauto.
Qed.

(** When a walker is destroyed it has made all its children, and it makes
    none later. *)
Lemma destroyed_after_spawning t1 t2 parent b ps :
  is_Some (protocol t w (t2 ++ EvDestroy w :: t1)) ->
  EvConstruct w parent b ∈ t2 ++ EvDestroy w :: t1 ->
  blocks t b = internal_node ps ->
  spawned w (rev t1) = map lnode ps /\ spawned w (rev t2) = [].
Proof.
  intros Hall Hin Hb. pose proof Hall as [o2 Ho2]%protocol_suffix.
  apply protocol_cons in Ho2 as (o & Ho & Hobs).
  destruct (protocol_kids _ _ Ho) as [H1 H2].
  assert (Hk : o_block o <> None /\ o_kids o = map lnode (internal_pairs t (o_block o))).
  { observe_cases Hobs; done. }
  destruct Hk as [Hsome Hk].
  destruct (o_block o) as [b'|] eqn:Hb'; [|done].
  destruct (protocol_block_of _ _ _ Ho Hb') as [parent' Hin'].
  destruct Hall as [oa Hoa].
  assert (Hba : o_block oa = Some b) by by eapply protocol_block_is.
  assert (Hba' : o_block oa = Some b').
  { eapply protocol_block_is; [exact Hoa|]. apply elem_of_app. right. right. exact Hin'. }
  assert (b' = b) as -> by congruence.
  simpl in Hk. rewrite Hb in Hk. rewrite <- H1, Hk. split; [done|].
  destruct (protocol_kids _ _ Hoa) as [Ha1 Ha2].
  rewrite Hba in Ha2. simpl in Ha2. rewrite Hb in Ha2.
  rewrite rev_app_distr in Ha1. simpl in Ha1. rewrite <- app_assoc, !spawned_app in Ha1.
  simpl in Ha1. rewrite <- H1, Hk in Ha1.
  assert (Hlen : length (o_kids oa) = (length ps + length (spawned w (rev t2)))%nat).
  { by rewrite Ha1, length_app, length_map. }
  assert (Hle : (length (o_kids oa) <= length ps)%nat).
  { rewrite Ha2, length_map, length_take. lia. }
  destruct (spawned w (rev t2)); [done|]. simpl in Hlen. lia.
Qed.

(** A walker has been made before it works on its block. *)
Lemma block_after_construct t1 t2 :
  is_Some (protocol t w (t2 ++ EvBlock w :: t1)) ->
  exists parent b, EvConstruct w parent b ∈ t1.
Proof.
  intros [o2 Ho2]%protocol_suffix.
  apply protocol_cons in Ho2 as (o & Ho & Hobs).
  assert (Hk : o_block o <> None) by (observe_cases Hobs; done).
  destruct (o_block o) as [b|] eqn:Hb; [|done].
  destruct (protocol_block_of _ _ _ Ho Hb) as [parent ?]. eauto.
Qed.

End derive.

(** ** The example store *)

Lemma ex_store_within : Forall (fun x => root_within 2 x.1) ex_store.
Proof. repeat constructor. Qed.

Lemma ex_store_tiled : Forall (fun x => larges_tile x.1) ex_store.
Proof. repeat constructor. Qed.

Lemma ex_sync_run_ends : run ex_sync_run ex_init = Next (after ex_sync_run ex_init).
Proof. vm_compute. reflexivity. Qed.

Lemma ex_async_run_ends : run ex_async_run ex_init = Next (after ex_async_run ex_init).
Proof. vm_compute. reflexivity. Qed.

Lemma ex_sync_scan_ends : run ex_sync_scan ex_init = Next (after ex_sync_scan ex_init).
Proof. vm_compute. reflexivity. Qed.

(** ** Reachable states *)

Lemma reachable_inv this store ls s :
  run ls (btree_replicant_t.new this store) = Next s -> state_inv s.
Proof. intros Hr. eapply run_inv; [exact Hr|]. apply state_inv_new. Qed.

Lemma reachable_slice this store ls s i sl :
  run ls (btree_replicant_t.new this store) = Next s -> slices s !! i = Some sl ->
  counter_inv sl /\ slice_inv (this_id s) (stopping s) sl /\ walkers_ok sl.
Proof.
  intros Hr Hi. destruct (reachable_inv _ _ _ _ Hr) as (Hall & _).
  rewrite Forall_lookup in Hall. by apply (Hall i).
Qed.

Lemma reachable_trees this store ls s :
  run ls (btree_replicant_t.new this store) = Next s ->
  map tree (slices s) = map fst store.
Proof.
  intros Hr. rewrite (run_trees _ _ _ Hr). simpl.
  rewrite <- list_fmap_compose. done.
Qed.

Lemma home_dead l s s' :
  is_home l = true -> r_alive s = false -> step l s = Next s' -> False.
Proof.
  destruct l as [|i|]; try done. intros _ Hr. unfold step. simpl.
  destruct (slices s !! i) as [sl|]; [|done]. destruct (outbox sl) as [|[] ob]; [done| |].
  - unfold report, btree_replicant_t.slice_walker_done. simpl. by rewrite Hr.
  - unfold btree_replicant_t.have_uninstalled. simpl. by rewrite Hr.
Qed.

Lemma view_key d t p : delivery_view d = stored_view t p -> d_key d = lp_key p.
Proof. unfold delivery_view, stored_view. by intros [= -> _ _ _ _]. Qed.

(** With no slice at all nothing is ever sent to the home CPU, so the
    stopped notification is never invoked, [stop()] or not. *)
Lemma empty_store_never_notifies this ls s :
  run ls (btree_replicant_t.new this []) = Next s ->
  slices s = [] /\ stopped_calls s = 0%nat.
Proof.
  assert (H : forall s0, slices s0 = [] -> stopped_calls s0 = 0%nat ->
            run ls s0 = Next s -> slices s = [] /\ stopped_calls s = 0%nat);
    [|by apply H].
  induction ls as [|l ls IH]; intros s0 Hs0 Hc0; simpl.
  - by intros [= <-].
  - destruct (step l s0) as [s1| |] eqn:Hst; try done. apply IH.
    + destruct (step_change _ _ _ Hst) as [_ Hch]. rewrite Hs0 in Hch.
      by apply Forall2_nil_inv_l in Hch.
    + destruct (is_home l) eqn:Hl.
      * destruct l as [|i|]; try done. unfold step in Hst. simpl in Hst.
        by rewrite Hs0 in Hst.
      * destruct (step_flags _ _ _ Hst) as (_ & Hfl & _). destruct (Hfl Hl). congruence.
Qed.

Lemma elem_of_rev {A} (x : A) (l : list A) : x ∈ rev l <-> x ∈ l.
Proof. rewrite !list_elem_of_In. symmetry. apply in_rev. Qed.

Lemma history_split sl h1 e h2 :
  history sl = h1 ++ e :: h2 -> trace sl = rev h2 ++ e :: rev h1.
Proof.
  unfold history. intros H. rewrite <- (rev_involutive (trace sl)), H.
  rewrite rev_app_distr. simpl. by rewrite <- app_assoc.
Qed.

Lemma reachable_follows this store ls s i sl w :
  run ls (btree_replicant_t.new this store) = Next s -> slices s !! i = Some sl ->
  is_Some (protocol (tree sl) w (trace sl)).
Proof.
  intros Hr Hi. pose proof (reachable_protocol _ _ _ _ Hr) as Hall.
  rewrite Forall_lookup in Hall. destruct (Hall i sl Hi) as (HA & _). apply HA.
Qed.

Lemma ex_sync_history :
  history (slice_after ex_sync_scan 0) =
    [EvConstruct 0 None 1%N; EvBlock 0; EvConstruct 1 (Some 0%nat) 2%N; EvBlock 1] ++
    EvAdvance 1 0 :: [] ++ EvDeliver 1 [Byte.x61] :: [EvDone 1] ++ EvAdvance 1 1 ::
    [EvAcquireLarge 1 7%N; EvDeliver 1 [Byte.x62]; EvDone 1; EvReleaseLarge 1 7%N;
     EvAdvance 1 2; EvDestroy 1; EvConstruct 2 (Some 0%nat) 3%N;
     EvBlock 2; EvAdvance 2 0; EvDeliver 2 [Byte.x63];
     EvDone 2; EvAdvance 2 1; EvDestroy 2; EvDestroy 0].
Proof. vm_compute. reflexivity. Qed.

(** * The claims *)

(** C1. For every store, of any number of slices with trees of any size,
    a run of the machine keeps every slice's tree, is no longer than the
    cost of the store, and for every slice: when no step of the slice is
    left its scan has committed, and once it has committed the multiset of
    what the sink was handed (key, bytes of the buffer group, flags, expiry,
    cas) is the multiset of the pairs stored in the tree, the bytes being
    the stored bytes of the value, inline or large; so every key of the tree
    was delivered exactly as many times as it is stored: once. *)
Theorem full_scan_delivers_every_pair_once (h : nat) this store ls s :
  Forall (fun x => root_within h x.1 /\ larges_tile x.1) store ->
  run ls (btree_replicant_t.new this store) = Next s ->
  map tree (slices s) = map fst store /\
  (length ls <= cost h (btree_replicant_t.new this store))%nat /\
  forall i sl, slices s !! i = Some sl ->
    ((forall a, step (LSlice i a) s = Disabled) -> txn sl = TxnCommitted) /\
    (txn sl = TxnCommitted ->
     map delivery_view (delivered sl) ≡ₚ
       map (stored_view (tree sl)) (root_entries (tree sl) h) /\
     map d_key (delivered sl) ≡ₚ map lp_key (root_entries (tree sl) h)).
Proof.
  intros Hst Hr. apply Forall_and in Hst as [Hh Ht].
  pose proof (reachable_inv _ _ _ _ Hr) as Hinv.
  split_and!.
  - by eapply reachable_trees.
  - pose proof (run_cost h _ _ _ Hr (within_new _ _ _ Hh)). lia.
  - intros i sl Hi.
    destruct (reachable_slice _ _ _ _ _ _ Hr Hi) as (Hc & Hsi & Hok). split.
    + intros Hdis. apply (slice_rest_committed _ _ _ Hsi).
      intros a. by apply (step_slice_disabled i).
    + intros Htx.
      assert (Hsc : scanned h s).
      { eapply run_scanned; [exact Hr|apply state_inv_new|by apply within_new
                            |by apply scanned_new]. }
      unfold scanned in Hsc. rewrite Forall_lookup in Hsc.
      destruct (Hsc i sl Hi) as [Hs _]. unfold scan_inv, seen in Hs.
      rewrite (scan_complete h _ _ _ Hsi Htx) in Hs. simpl in Hs. rewrite app_nil_r in Hs.
      split; [done|].
      assert (Hk : map d_key (delivered sl) = map (fun v : view => v.1.1.1.1)
                     (map delivery_view (delivered sl))).
      { by rewrite <- list_fmap_compose. }
      rewrite Hk, Hs, <- list_fmap_compose. done.
Qed.

(** On the example: what the sink was handed on the first slice is what
    the tree of the slice holds. *)
Lemma full_scan_delivers_every_pair_once_witness :
  map delivery_view (delivered (slice_after ex_sync_run 0)) ≡ₚ
  map (stored_view ex_A) (root_entries ex_A 2).
Proof.
  pose proof (full_scan_delivers_every_pair_once 2 3%nat ex_store ex_sync_run
                (after ex_sync_run ex_init)) as H.
  destruct H as (_ & _ & H).
  - apply Forall_and. split; [exact ex_store_within|exact ex_store_tiled].
  - exact ex_sync_run_ends.
  - destruct (H 0%nat (slice_after ex_sync_run 0))
      as [_ H1]; [vm_compute; reflexivity|].
    destruct H1 as [H1 _]; [vm_compute; reflexivity|]. exact H1.
Defined.

(** C2. From a store of at least one slice, whenever [stop()] is called
    (it is a step of the run like any other), the sink's stopped
    notification is invoked at most once, and once it has been invoked the
    coordinator is stopping and both of its counters are zero; the only step
    that invokes it is the home CPU handling a report or an uninstall
    acknowledgement, which finds both counters at zero, and it does so once;
    no step fails; runs are bounded by the cost of the store; and a run that
    cannot go on has invoked the notification exactly once. *)
Theorem stop_notifies_exactly_once (h : nat) this store ls s :
  store <> [] ->
  Forall (fun x => root_within h x.1) store ->
  run ls (btree_replicant_t.new this store) = Next s ->
  (stopped_calls s <= 1)%nat /\
  (stopped_calls s = 1%nat ->
     stopping s = true /\ active_slice_walkers s = 0 /\
     active_uninstallations s = Some 0) /\
  (forall l s', step l s = Next s' -> stopped_calls s' <> stopped_calls s ->
     is_home l = true /\ stopped_calls s = 0%nat /\ stopped_calls s' = 1%nat /\
     stopping s' = true /\ active_slice_walkers s' = 0 /\
     active_uninstallations s' = Some 0) /\
  (forall l e, step l s <> Crash e) /\
  (length ls + cost h s <= cost h (btree_replicant_t.new this store))%nat /\
  ((forall l, step l s = Disabled) -> stopped_calls s = 1%nat).
Proof.
  intros Hne Hh Hr.
  pose proof (reachable_inv _ _ _ _ Hr) as Hinv.
  assert (Hone : forall s0, state_inv s0 ->
            (stopped_calls s0 <= 1)%nat /\
            (stopped_calls s0 = 0%nat -> r_alive s0 = true) /\
            (stopped_calls s0 = 1%nat ->
               r_alive s0 = false /\
               stopping s0 = true /\ active_slice_walkers s0 = 0 /\
               active_uninstallations s0 = Some 0)).
  { intros s0 (_ & Hasw & Hau & Hal).
    destruct (r_alive s0); destruct Hal as (Hsc & Hal); rewrite Hsc.
    - split_and!; [lia|done|done].
    - destruct Hal as (Hstp & Hz1 & Hz2). rewrite Hstp, Hz2 in Hau. rewrite Hz1 in Hasw.
      split_and!; try done; lia. }
  destruct (Hone s Hinv) as (Hle & Hz & Ho).
  split_and!; [done|intros H; by destruct (Ho H) as (_ & ? & ? & ?)| | | |].
  - intros l s' Hst Hch.
    destruct (Hone s' (step_inv _ _ _ Hst Hinv)) as (Hle' & Hz' & Ho').
    destruct (is_home l) eqn:Hl.
    + assert (Hs0 : stopped_calls s = 0%nat).
      { destruct (stopped_calls s) as [|[|?]] eqn:Hs; [done| |lia].
        destruct Ho as (Hra & _); [done|]. by destruct (home_dead _ _ _ Hl Hra Hst). }
      assert (Hs1 : stopped_calls s' = 1%nat) by lia.
      destruct (Ho' Hs1) as (_ & ? & ? & ?). done.
    + destruct (step_flags _ _ _ Hst) as (_ & Hfl & _). destruct (Hfl Hl). done.
  - intros l e. by apply step_safe.
  - apply run_cost; [done|]. by apply within_new.
  - apply at_rest_stopped; [done|]. intros Hnil.
    pose proof (reachable_trees _ _ _ _ Hr) as Ht. rewrite Hnil in Ht. by destruct store.
Qed.

(** On the example, with [stop()] called before the scans start: when
    nothing is left to do the notification has been invoked once. *)
Lemma stop_notifies_exactly_once_witness :
  stopped_calls (after ex_async_run ex_init) = 1%nat.
Proof.
  pose proof (stop_notifies_exactly_once 2 3%nat ex_store ex_async_run
                (after ex_async_run ex_init)) as H.
  destruct H as (_ & _ & _ & _ & _ & H).
  - discriminate.
  - exact ex_store_within.
  - exact ex_async_run_ends.
  - apply H. intros l. destruct l as [|i|i a].
    + vm_compute. reflexivity.
    + destruct i as [|[|i]]; vm_compute; reflexivity.
    + destruct i as [|[|i]]; [| |vm_compute; reflexivity];
        destruct a as [[]| |k|[]]; try (vm_compute; reflexivity);
        destruct k; vm_compute; reflexivity.
Defined.

(** C3. On every slice, at every point of every run, the counter
    [active_branch_walkers] is the number of walkers constructed (each
    construction adds one to it) less the number destroyed (each destruction
    takes one from it), which is the number of walkers alive, so it is never
    negative; and when the slice walker has reported (its report is on its
    way to the home CPU or has been handled there) the counter is zero and
    the constructions are as many as the destructions. *)
Theorem walker_counter_is_balanced this store ls s i sl :
  run ls (btree_replicant_t.new this store) = Next s ->
  slices s !! i = Some sl ->
  active_branch_walkers sl = Z.of_nat (constructions sl) - Z.of_nat (destructions sl) /\
  active_branch_walkers sl = Z.of_nat (length (live_walkers sl)) /\
  0 <= active_branch_walkers sl /\
  (reports sl <> 0%nat ->
     active_branch_walkers sl = 0 /\ constructions sl = destructions sl) /\
  (forall parent b sync sl0,
     active_branch_walkers (branch_walker_t.new parent b sync sl0) =
       active_branch_walkers sl0 + 1) /\
  (forall w sl0 sl1,
     branch_walker_t.delete w sl0 = Next sl1 ->
     active_branch_walkers sl1 = active_branch_walkers sl0 - 1).
Proof.
  intros Hr Hi.
  destruct (reachable_slice _ _ _ _ _ _ Hr Hi) as ((Hc & Hn) & Hsi & Hok).
  split_and!; try lia.
  - intros Hrep. rewrite (reports_inv _ _ _ Hsi) in Hrep.
    destruct Hsi as (n & _ & _ & _ & _ & _ & Hph).
    destruct (txn sl); try done. destruct Hph as (_ & _ & Hl & _). lia.
  - intros parent b [] sl0; reflexivity.
  - intros w sl0 sl1. unfold branch_walker_t.delete, slice_walker_t.done.
    destruct (buf w); [|done]. simpl.
    destruct (active_branch_walkers sl0 - 1 =? 0); [destruct (txn sl0); try done|];
      by intros [= <-].
Qed.

(** On the example: three walkers were made on the first slice and three
    destroyed. *)
Lemma walker_counter_is_balanced_witness :
  active_branch_walkers (slice_after ex_sync_scan 0) = 3 - 3.
Proof.
  pose proof (walker_counter_is_balanced 3%nat ex_store ex_sync_scan
                (after ex_sync_scan ex_init) 0%nat (slice_after ex_sync_scan 0)) as H.
  destruct H as (H & _).
  - exact ex_sync_scan_ends.
  - vm_compute. reflexivity.
  - exact H.
Defined.

(** C4. On every slice, at every point of every run, in the order the
    events happened: between two acquisitions of a large value by a walker
    the walker has released the first, and between a walker handing a value
    to the sink and its going to the next pair the sink has invoked the done
    callback of the walker. *)
Theorem leaf_iteration_back_pressure this store ls s i sl w :
  run ls (btree_replicant_t.new this store) = Next s ->
  slices s !! i = Some sl ->
  (forall h1 h2 h3 r1 r2,
     history sl = h1 ++ EvAcquireLarge w r1 :: h2 ++ EvAcquireLarge w r2 :: h3 ->
     EvReleaseLarge w r1 ∈ h2) /\
  (forall h1 h2 h3 k j,
     history sl = h1 ++ EvDeliver w k :: h2 ++ EvAdvance w j :: h3 ->
     EvDone w ∈ h2).
Proof.
  intros Hr Hi. pose proof (reachable_follows _ _ _ _ _ _ w Hr Hi) as Hf.
  split.
  - intros h1 h2 h3 r1 r2 Hh. apply history_split in Hh.
    rewrite rev_app_distr in Hh. simpl in Hh. rewrite <- !app_assoc in Hh. simpl in Hh.
    rewrite Hh in Hf. apply acquire_after_release in Hf. by apply elem_of_rev.
  - intros h1 h2 h3 k j Hh. apply history_split in Hh.
    rewrite rev_app_distr in Hh. simpl in Hh. rewrite <- !app_assoc in Hh. simpl in Hh.
    rewrite Hh in Hf. apply advance_after_done in Hf. by apply elem_of_rev.
Qed.

(** On the example: the sink calls back between the delivery of the first
    pair of leaf 2 and the move to its second pair. *)
Lemma leaf_iteration_back_pressure_witness : EvDone 1 ∈ [EvDone 1].
Proof.
  pose proof (leaf_iteration_back_pressure 3%nat ex_store ex_sync_scan
                (after ex_sync_scan ex_init) 0%nat (slice_after ex_sync_scan 0) 1%nat) as H.
  destruct H as [_ H].
  - exact ex_sync_scan_ends.
  - vm_compute. reflexivity.
  - apply (H [EvConstruct 0 None 1%N; EvBlock 0; EvConstruct 1 (Some 0%nat) 2%N;
              EvBlock 1; EvAdvance 1 0]
             [EvDone 1] (drop 8 (history (slice_after ex_sync_scan 0))) [Byte.x61] 1).
    rewrite ex_sync_history. reflexivity.
Defined.

(** C5. When the large value of the current pair has arrived, the buffer
    group handed to the sink holds segment 0 to segment k-1 of the value in
    this order, and a reader of the group sees the bytes of the value, however
    the value is split into segments. *)
Theorem large_value_round_trip w sync sl r k v :
  large_value w = Some r -> current_key w = Some k -> current_value w = Some v ->
  segments_tile (large_bufs (tree sl) r) ->
  exists sl' d,
    branch_walker_t.on_large_buf_available w sync sl = Next sl' /\
    delivered sl' = delivered sl ++ [d] /\
    d_key d = k /\
    d_buffers d =
      map (fun i => {| b_size := (get_segment (large_bufs (tree sl) r) i).1;
                       b_data := (get_segment (large_bufs (tree sl) r) i).2 |})
          (seq 0 (get_num_segments (large_bufs (tree sl) r))) /\
    group_bytes (d_buffers d) = lb_data (large_bufs (tree sl) r).
Proof.
  intros Hl Hk Hv Htile.
  unfold branch_walker_t.on_large_buf_available, branch_walker_t.deliver_value.
  rewrite Hl. cbn [current_key current_value set_buffers buffers]. rewrite Hk, Hv.
  set (d := {| d_key := k;
               d_buffers := branch_walker_t.segment_buffers (large_bufs (tree sl) r);
               d_mcflags := mcflags v; d_exptime := exptime v;
               d_cas := if has_cas v then cas v else 0 |}).
  assert (Hd : group_bytes (d_buffers d) = lb_data (large_bufs (tree sl) r)).
  { unfold d. cbn [d_buffers]. rewrite segment_buffers_bytes, Htile. apply firstn_all. }
  destruct sync; eexists _, d; (split; [reflexivity|]);
    (split; [reflexivity|]); (split; [reflexivity|]);
    (split; [apply segment_buffers_map|exact Hd]).
Qed.

(** On the example: the large value of three segments is read back
    whole. *)
Lemma large_value_round_trip_witness :
  exists sl' d,
    branch_walker_t.on_large_buf_available ex_walker true ex_slice = Next sl' /\
    delivered sl' = [d] /\
    group_bytes (d_buffers d) =
      [Byte.x41; Byte.x42; Byte.x43; Byte.x44; Byte.x45; Byte.x46].
Proof.
  destruct (large_value_round_trip ex_walker true ex_slice 7%N [Byte.x62]
              {| payload := LargeRef 7%N; mcflags := 5; exptime := 0; cas_field := Some 9 |})
    as (sl' & d & H1 & H2 & _ & _ & H3).
  - reflexivity.
  - reflexivity.
  - reflexivity.
  - reflexivity.
  - exists sl', d. split; [exact H1|]. split; [exact H2|exact H3].
Defined.

(** C6. Uninstalling a coordinator that the registry of the slice does not
    hold ends the process and never returns as if nothing had been asked;
    when the registry holds it, its first entry is erased and a
    have_uninstalled message is sent to the coordinator's home CPU, where it
    runs [have_uninstalled]. *)
Theorem uninstall_absent_is_fatal this stopping sl :
  (this ∉ replicants sl ->
     exists e, uninstall this stopping sl = Crash e /\
       (stopping = true -> e = Fatal "We were never installed on this slice.")) /\
  (this ∈ replicants sl -> stopping = true ->
     exists l1 l2,
       replicants sl = l1 ++ this :: l2 /\ (this ∉ l1) /\
       uninstall this stopping sl =
         Next (set_outbox (outbox sl ++ [HUninstalled]) (set_replicants (l1 ++ l2) sl))) /\
  (forall s i ob, slices s !! i = Some sl -> outbox sl = HUninstalled :: ob ->
     exec (LHome i) s =
       btree_replicant_t.have_uninstalled
         (set_slices (<[i := set_outbox ob sl]> (slices s)) s)).
Proof.
  split_and!.
  - intros Hn. rewrite uninstall_absent by done.
    destruct stopping; eexists; split; try done.
  - intros Hin ->. apply uninstall_present. done.
  - intros s i ob Hi Hob. simpl. by rewrite Hi, Hob.
Qed.

(** C7, as the code has it. On every slice, at every point of every run:
    the counter is the walkers made less the walkers destroyed; the children
    a walker on an internal node has made are, in the order it made them,
    the children of the first pairs of the node; when the walker is
    destroyed it has made a child for every pair, and it makes none after;
    and any walker, so any child, was made, and so counted, before it works
    on its block.  The loop of the walker makes the child of pair [j] and
    goes on with pair [j + 1], and past the last pair it deletes the walker,
    whatever its children have done. *)
Theorem internal_walker_spawns_in_pair_order this store ls s i sl :
  run ls (btree_replicant_t.new this store) = Next s ->
  slices s !! i = Some sl ->
  active_branch_walkers sl = Z.of_nat (constructions sl) - Z.of_nat (destructions sl) /\
  (forall w parent b ps,
     EvConstruct w parent b ∈ history sl ->
     blocks (tree sl) b = internal_node ps ->
     (exists n, spawned w (history sl) = map lnode (take n ps)) /\
     (forall h1 h2,
        history sl = h1 ++ EvDestroy w :: h2 ->
        spawned w h1 = map lnode ps /\ spawned w h2 = [])) /\
  (forall c h1 h2,
     history sl = h1 ++ EvBlock c :: h2 ->
     exists parent b, EvConstruct c parent b ∈ h1) /\
  (forall w j sync sl0 b ps,
     buf w = Some b -> blocks (tree sl0) b = internal_node ps ->
     branch_walker_t.loop w j sync sl0 =
       match ps !! j with
       | Some p => Next (branch_walker_t.new (Some (bw_id w)) (lnode p) sync
                           (push (FLoop w (S j)) sl0))
       | None => branch_walker_t.delete w sl0
       end).
Proof.
  intros Hr Hi.
  destruct (reachable_slice _ _ _ _ _ _ Hr Hi) as ((Hc & Hn) & _).
  split_and!.
  - lia.
  - intros w parent b ps Hin Hb.
    pose proof (reachable_follows _ _ _ _ _ _ w Hr Hi) as Hf.
    unfold history in Hin. rewrite elem_of_rev in Hin. split.
    + unfold history. eapply spawned_in_order; eauto.
    + intros h1 h2 Hh. apply history_split in Hh. rewrite Hh in Hf, Hin.
      destruct (destroyed_after_spawning _ _ _ _ _ _ _ Hf Hin Hb) as [H1 H2].
      by rewrite !rev_involutive in H1, H2.
  - intros c h1 h2 Hh. pose proof (reachable_follows _ _ _ _ _ _ c Hr Hi) as Hf.
    apply history_split in Hh. rewrite Hh in Hf.
    destruct (block_after_construct _ _ _ _ Hf) as (parent & b & Hin).
    exists parent, b. by apply elem_of_rev.
  - intros w j sync sl0 b ps Hb Hn0. unfold branch_walker_t.loop. by rewrite Hb, Hn0.
Qed.

(** On the example: when the root walker is destroyed it has made the
    walkers of leaf 2 and leaf 3, in this order. *)
Lemma internal_walker_spawns_in_pair_order_witness :
  spawned 0 (history (slice_after ex_sync_scan 0)) = [2%N; 3%N].
Proof.
  pose proof (internal_walker_spawns_in_pair_order 3%nat ex_store ex_sync_scan
                (after ex_sync_scan ex_init) 0%nat (slice_after ex_sync_scan 0)) as H.
  destruct H as (_ & H & _).
  - exact ex_sync_scan_ends.
  - vm_compute. reflexivity.
  - destruct (H 0%nat None 1%N (internal_pairs ex_A (Some 1%N))) as [_ H2].
    + rewrite ex_sync_history. by constructor.
    + reflexivity.
    + destruct (H2 (removelast (history (slice_after ex_sync_scan 0))) []) as [H3 _].
      * rewrite ex_sync_history. vm_compute. reflexivity.
      * rewrite ex_sync_history in H3 |- *. exact H3.
Defined.

(** C7, as the spec words it, fails where the blocks are at hand: on the
    first slice of the example the first child of the root has worked on its
    leaf before the second child is made. *)
Lemma children_not_all_counted_first :
  ~ spec_counts_all_children_first (slice_after ex_sync_scan 0).
Proof.
  intros H.
  specialize (H 0%nat None 1%N (internal_pairs ex_A (Some 1%N)) 1%nat 2%N
                [EvConstruct 0 None 1%N; EvBlock 0; EvConstruct 1 (Some 0%nat) 2%N]
                (drop 4 (history (slice_after ex_sync_scan 0)))).
  assert (Hf : [2%N] = [2%N; 3%N]); [|discriminate].
  apply H.
  - rewrite ex_sync_history. by constructor.
  - reflexivity.
  - rewrite ex_sync_history. reflexivity.
  - do 2 constructor. constructor.
Qed.

(** The walker of an internal node is destroyed while its children wait for
    their blocks: on the first slice of the example, when nothing is at
    hand, the root walker is gone and its two children are alive. *)
Lemma parent_released_before_children :
  let sl := slice_after (take 19 ex_async_run) 0 in
  history sl = [EvConstruct 0 None 1%N; EvBlock 0; EvConstruct 1 (Some 0%nat) 2%N;
                EvConstruct 2 (Some 0%nat) 3%N; EvDestroy 0] /\
  map bw_id (live_walkers sl) = [1%nat; 2%nat] /\
  active_branch_walkers sl = 2.
Proof. vm_compute. done. Qed.

(** C8. On a slice whose superblock gives no root, the slice walker, given
    the superblock, makes no walker: it commits its transaction and sends
    its report; and at every point of every run such a slice has made no
    walker and handed nothing to the sink, has reported once if it has
    committed and not at all before, and has committed when no step of it is
    left. *)
Theorem empty_tree_reports_at_once this store ls s i sl :
  run ls (btree_replicant_t.new this store) = Next s ->
  slices s !! i = Some sl ->
  root_block (tree sl) = None ->
  (forall sync sl0,
     root_block (tree sl0) = None -> txn sl0 = TxnOpen ->
     superblock_available sync sl0 =
       Next (send_home HReport (set_txn TxnCommitted (push FReleaseSuper sl0)))) /\
  constructions sl = 0%nat /\ no_walker sl /\
  reports sl = match txn sl with TxnCommitted => 1%nat | _ => 0%nat end /\
  ((forall a, step (LSlice i a) s = Disabled) -> txn sl = TxnCommitted).
Proof.
  intros Hr Hi Hroot.
  destruct (reachable_slice _ _ _ _ _ _ Hr Hi) as (Hc & Hsi & Hok).
  assert (Hnw : forall ls s, run ls (btree_replicant_t.new this store) = Next s ->
            Forall (fun sl => root_block (tree sl) = None -> no_walker sl) (slices s)).
  { clear. intros ls. induction ls as [|l ls IH] using rev_ind; intros s.
    - intros [= <-]. simpl. rewrite Forall_fmap. apply Forall_forall. by intros x _ _.
    - intros Hr.
      assert (exists s1, run ls (btree_replicant_t.new this store) = Next s1 /\
                         step l s1 = Next s) as (s1 & Hr1 & Hst).
      { revert Hr. generalize (btree_replicant_t.new this store). clear.
        induction ls as [|l' ls IH]; intros s0; simpl.
        - destruct (step l s0) eqn:Hst; try done. intros [= <-]. eauto.
        - destruct (step l' s0); try done. apply IH. }
      eapply (step_lift _ l s1 s); [|done|by eapply reachable_inv|by apply IH].
      intros sl sl' _ _ _ Hch Hp Hroot. rewrite (slice_change_tree _ _ _ _ Hch) in Hroot.
      eapply no_walker_change; eauto. }
  specialize (Hnw ls s Hr). rewrite Forall_lookup in Hnw. specialize (Hnw i sl Hi Hroot).
  split_and!.
  - intros sync sl0 Hr0 Ht0. unfold superblock_available, slice_walker_t.done. simpl.
    by rewrite Hr0, Ht0.
  - destruct Hnw as (Ht & _). unfold constructions. by rewrite Ht.
  - done.
  - by apply (reports_inv _ _ _ Hsi).
  - intros Hdis. apply (slice_rest_committed _ _ _ Hsi).
    intros a. by apply (step_slice_disabled i).
Qed.

(** On the example: the slice with no root made no walker and reported
    once. *)
Lemma empty_tree_reports_at_once_witness :
  constructions (slice_after ex_sync_scan 1) = 0%nat /\
  reports (slice_after ex_sync_scan 1) = 1%nat.
Proof.
  pose proof (empty_tree_reports_at_once 3%nat ex_store ex_sync_scan
                (after ex_sync_scan ex_init) 1%nat (slice_after ex_sync_scan 1)) as H.
  destruct H as (_ & H1 & _ & H2 & _).
  - exact ex_sync_scan_ends.
  - vm_compute. reflexivity.
  - vm_compute. reflexivity.
  - split; [exact H1|exact H2].
Defined.

(** C9. Install appends the coordinator to the registry without looking at
    what the registry holds: two installs leave two more entries, and one
    uninstall after them erases the first entry that equals the coordinator
    and no other. *)
Theorem install_twice_uninstall_once this sl :
  replicants (install this (install this sl)) = replicants sl ++ [this; this] /\
  exists sl' l1 l2,
    uninstall this true (install this (install this sl)) = Next sl' /\
    replicants sl ++ [this; this] = l1 ++ this :: l2 /\ (this ∉ l1) /\
    replicants sl' = l1 ++ l2 /\
    length (filter (fun x => x = this) (replicants sl')) =
      S (length (filter (fun x => x = this) (replicants sl))).
Proof.
  assert (Hr : replicants (install this (install this sl)) = replicants sl ++ [this; this]).
  { simpl. by rewrite <- app_assoc. }
  split; [done|].
  destruct (uninstall_present this (install this (install this sl))) as (l1 & l2 & Hl & Hn & Hu).
  { rewrite Hr. apply elem_of_app. right. by left. }
  rewrite Hr in Hl. eexists _, l1, l2. split; [exact Hu|]. split; [done|]. split; [done|].
  split; [done|]. simpl.
  apply Nat.succ_inj. rewrite <- count_self_split, <- Hl.
  rewrite filter_app, length_app. rewrite !filter_cons_True by done. simpl. lia.
Qed.

(** C10. At every point of every run, the coordinator is stopping exactly if
    [stop()] was called in the run; while it is not, the stopped
    notification has not been invoked, whatever the slices have reported,
    and [active_uninstallations] is still unset; once it is, the counter is
    set; no step reads the counter unset; and in any state that is not
    stopping, [slice_walker_done] does not look at the counter, and
    [have_uninstalled] and [done] stop at their assertion. *)
Theorem no_finalization_before_stop this store ls s :
  run ls (btree_replicant_t.new this store) = Next s ->
  (stopping s = true <-> LStop ∈ ls) /\
  (stopping s = false ->
     stopped_calls s = 0%nat /\ r_alive s = true /\ active_uninstallations s = None) /\
  (stopping s = true -> is_Some (active_uninstallations s)) /\
  (forall l, step l s <> Crash UninitRead) /\
  (forall s0 u,
     stopping s0 = false ->
     btree_replicant_t.slice_walker_done (set_active_uninstallations u s0) =
       match btree_replicant_t.slice_walker_done s0 with
       | Next s1 => Next (set_active_uninstallations u s1)
       | o => o
       end /\
     (forall s1, btree_replicant_t.have_uninstalled s0 <> Next s1) /\
     (forall s1, btree_replicant_t.done s0 <> Next s1)).
Proof.
  intros Hr. pose proof (reachable_inv _ _ _ _ Hr) as Hinv.
  pose proof (run_stopping _ _ _ Hr) as Hstp. simpl in Hstp. rewrite orb_false_r in Hstp.
  split_and!.
  - by rewrite Hstp, existsb_is_stop.
  - intros Hs. destruct Hinv as (_ & _ & Hau & Hal). rewrite Hs in Hau.
    destruct Hau as (Hau & Hra & _). rewrite Hra in Hal. by destruct Hal.
  - intros Hs. destruct Hinv as (_ & _ & Hau & _). rewrite Hs in Hau. by rewrite Hau.
  - intros l. by apply step_safe.
  - intros s0 u Hs0. split_and!.
    + unfold btree_replicant_t.slice_walker_done. simpl. rewrite Hs0.
      by repeat case_match.
    + intros s1. unfold btree_replicant_t.have_uninstalled. rewrite Hs0.
      by destruct (r_alive s0).
    + intros s1. unfold btree_replicant_t.done. by rewrite Hs0.
Qed.

(** On the example: both scans are over and reported, and without
    [stop()] the notification has not been invoked. *)
Lemma no_finalization_before_stop_witness :
  stopped_calls (after ex_sync_scan ex_init) = 0%nat /\
  active_slice_walkers (after ex_sync_scan ex_init) = 0.
Proof.
  pose proof (no_finalization_before_stop 3%nat ex_store ex_sync_scan
                (after ex_sync_scan ex_init)) as H.
  destruct H as (_ & H & _).
  - exact ex_sync_scan_ends.
  - destruct H as (H & _); [vm_compute; reflexivity|].
    split; [exact H|vm_compute; reflexivity].
Defined.

(** * Further properties of the code *)

(** *** What a step is *)

Lemma step_cases l s s' :
  step l s = Next s' ->
  this_id s' = this_id s /\
  ((l = LStop /\ stopping s = false /\ stopping s' = true /\
    slices s' = map enqueue_uninstall (slices s)) \/
   (stopping s' = stopping s /\
    exists i sl sl',
      slices s !! i = Some sl /\ slices s' = <[i := sl']> (slices s) /\
      ((exists a, l = LSlice i a /\ slice_step (this_id s) (stopping s) sl a sl') \/
       (exists ob, l = LHome i /\ outbox sl = HReport :: ob /\
                   sl' = set_sw_alive false (set_outbox ob sl)) \/
       (exists ob, l = LHome i /\ outbox sl = HUninstalled :: ob /\
                   sl' = set_outbox ob sl)))).
Proof.
  unfold step. destruct (legal l s) eqn:Hl; [|done]. destruct l as [|i|i a]; simpl.
  - simpl in Hl. apply negb_true_iff in Hl.
    unfold btree_replicant_t.stop. destruct (r_alive s); [|done]. simpl.
    intros [= <-]. simpl. split; [done|]. left. done.
  - destruct (slices s !! i) as [sl|] eqn:Hi; [|done].
    destruct (outbox sl) as [|m ob] eqn:Hob; [done|].
    assert (Hlt := lookup_lt_Some _ _ _ Hi). intros Hex.
    destruct m.
    + unfold report in Hex.
      destruct (btree_replicant_t.slice_walker_done _) as [s1| |] eqn:Hd; try done.
      assert (Hs1 : slices s1 = <[i := set_outbox ob sl]> (slices s) /\
                    this_id s1 = this_id s /\ stopping s1 = stopping s).
      { revert Hd. unfold btree_replicant_t.slice_walker_done, btree_replicant_t.done.
        repeat case_match; try done; by intros [= <-]. }
      destruct Hs1 as (Hs1 & Hs2 & Hs3).
      rewrite Hs1, list_lookup_insert_eq in Hex by done. injection Hex as <-. simpl.
      rewrite ?Hs1, Hs2, Hs3, list_insert_insert_eq. split; [done|]. right. split; [done|].
      exists i, sl, (set_sw_alive false (set_outbox ob sl)). split_and!; try done.
      right. left. by exists ob.
    + assert (Hs1 : slices s' = <[i := set_outbox ob sl]> (slices s) /\
                    this_id s' = this_id s /\ stopping s' = stopping s).
      { revert Hex. unfold btree_replicant_t.have_uninstalled, btree_replicant_t.done.
        repeat case_match; try done; by intros [= <-]. }
      destruct Hs1 as (-> & -> & ->). split; [done|]. right. split; [done|].
      exists i, sl, (set_outbox ob sl). split_and!; try done.
      right. right. by exists ob.
  - destruct (slices s !! i) as [sl|] eqn:Hi; [|done].
    destruct (slice_exec (this_id s) (stopping s) a sl) as [sl'| |] eqn:Hex; try done.
    intros [= <-]. simpl. split; [done|]. right. split; [done|].
    exists i, sl, sl'. split_and!; try done. left. exists a. split; [done|].
    by apply slice_exec_step.
Qed.

Lemma Forall2_insert_r {A B} (R : A -> B -> Prop) (xs : list A) (l : list B) i x y' :
  Forall2 R xs l -> xs !! i = Some x -> R x y' -> Forall2 R xs (<[i := y']> l).
Proof.
  intros HF Hx HR. rewrite <- (list_insert_id xs i x Hx). by apply Forall2_insert.
Qed.

(** An invariant of the slices that may depend on whether the coordinator
    is stopping, and on what each slice was made from: it holds at every
    point of a run whose labels are [ok] when it holds of new slices, when
    [stop()] turns it into its stopping form, and when the steps of a
    well-formed slice and the handling of its messages keep it. *)
Section lift.
Context {A : Type} (this : replicant_id) (R : bool -> A -> slice_state -> Prop).
Variable ok : slice_label -> bool.

Hypothesis R_stop : forall x sl,
  counter_inv sl -> slice_inv this false sl -> walkers_ok sl ->
  R false x sl -> R true x (enqueue_uninstall sl).
Hypothesis R_step : forall stp x sl sl' a,
  ok a = true ->
  counter_inv sl -> slice_inv this stp sl -> walkers_ok sl -> protocol_inv sl ->
  slice_step this stp sl a sl' -> R stp x sl -> R stp x sl'.
Hypothesis R_report : forall stp x sl ob,
  slice_inv this stp sl ->
  outbox sl = HReport :: ob -> R stp x sl -> R stp x (set_sw_alive false (set_outbox ob sl)).
Hypothesis R_ack : forall stp x sl ob,
  slice_inv this stp sl ->
  outbox sl = HUninstalled :: ob -> R stp x sl -> R stp x (set_outbox ob sl).

Lemma step_lift_cases xs l s s' :
  this_id s = this -> label_ok ok l = true ->
  step l s = Next s' -> state_inv s -> Forall protocol_inv (slices s) ->
  Forall2 (R (stopping s)) xs (slices s) ->
  Forall2 (R (stopping s')) xs (slices s').
Proof.
  intros Hid Hok Hst (Hall & _) Hpr HR. rewrite Hid in Hall.
  destruct (step_cases _ _ _ Hst) as (_ & [(-> & Hs & -> & ->)|(-> & i & sl & sl' & Hi & -> & Hc)]).
  - rewrite Hs in HR, Hall. apply Forall2_fmap_r.
    clear -HR Hall R_stop. induction HR as [|x sl xs l Hx HR IH]; [done|].
    apply Forall_cons in Hall as [(? & ? & ?) ?]. constructor; eauto.
  - destruct (Forall2_lookup_r _ _ _ _ _ HR Hi) as (x & Hx & HRx).
    rewrite Forall_lookup in Hall. destruct (Hall i sl Hi) as (Hc1 & Hc2 & Hc3).
    rewrite Forall_lookup in Hpr. specialize (Hpr i sl Hi).
    rewrite Hid in Hc.
    eapply Forall2_insert_r; [done|done|].
    destruct Hc as [(a & -> & Hstep)|[(ob & -> & Hob & ->)|(ob & -> & Hob & ->)]]; eauto.
Qed.

Lemma run_lift_cases xs ls s s' :
  this_id s = this -> Forall (fun l => label_ok ok l = true) ls ->
  run ls s = Next s' -> state_inv s -> Forall protocol_inv (slices s) ->
  Forall2 (R (stopping s)) xs (slices s) ->
  Forall2 (R (stopping s')) xs (slices s').
Proof.
  revert s. induction ls as [|l ls IH]; intros s Hid Hok; simpl.
  - by intros [= <-].
  - destruct (step l s) as [s1| |] eqn:Hst; try done. intros Hr Hinv Hpr HR.
    apply Forall_cons in Hok as [Hok1 Hok].
    apply (IH s1); try done.
    + by destruct (step_cases _ _ _ Hst) as (-> & _).
    + by eapply step_inv.
    + eapply step_lift; [|done|done|done]. intros sl sl' _ _ _ Hch. by eapply protocol_inv_change.
    + by eapply step_lift_cases.
Qed.

Lemma reachable_lift_cases (store : list (btree_slice * list replicant_id))
    (f : btree_slice * list replicant_id -> A) ls s :
  (forall x, R false (f x) (btree_replicant_t.new_slice x)) ->
  Forall (fun l => label_ok ok l = true) ls ->
  run ls (btree_replicant_t.new this store) = Next s ->
  Forall2 (R (stopping s)) (map f store) (slices s).
Proof.
  intros Hnew Hok Hr.
  eapply run_lift_cases; [| |exact Hr| | |]; try done.
  - apply state_inv_new.
  - simpl. rewrite Forall_fmap. apply Forall_forall. intros x _.
    unfold protocol_inv, expected. simpl. split_and!; try constructor. by eexists.
  - simpl. apply Forall2_fmap. apply Forall_Forall2_diag, Forall_forall. intros x _. apply Hnew.
Qed.

End lift.

(** *** The registry *)

Lemma slice_step_txn this stp a sl sl' :
  slice_step this stp sl a sl' ->
  (forall sync, a <> SMsg sync) ->
  queue sl' = queue sl /\ replicants sl' = replicants sl /\
  (txn sl' = TxnNone <-> txn sl = TxnNone).
Proof.
  intros Hstep Ha. leaves Hstep.
  all: try (by destruct (Ha sync)).
  all: try destruct sync.
  all: prep.
  all: destruct_slice sl; sl_unfold; simpl in *; simplify_eq.
  all: split_and!; try done.
Qed.

Lemma registry_inv_step this stp orig a sl sl' :
  slice_step this stp sl a sl' ->
  registry_inv this stp orig sl -> registry_inv this stp orig sl'.
Proof.
  intros Hstep (n & Hq & Hn & Hr & Ht).
  assert (Hother : (forall sync, a <> SMsg sync) -> registry_inv this stp orig sl').
  { intros Hne. destruct (slice_step_txn _ _ _ _ _ Hstep Hne) as (Hq' & Hr' & Ht').
    exists n. rewrite Hq', Hr', Ht'. done. }
  destruct a as [sync| |k|sync]; try (by apply Hother).
  inversion Hstep as [sync' m q sl'' Hs Hqq Hm| | |]; subst.
  rewrite Hqq in Hq.
  destruct Hm as [| |i Hstp Hfind].
  - assert (n = 0%nat) as -> by (destruct stp, n as [|[|[|[|?]]]]; simplify_eq/=; done).
    exists 1%nat. destruct stp, sync; simpl in *; simplify_eq; split_and!; try done; lia.
  - assert (n = 1%nat) as -> by (destruct stp, n as [|[|[|[|?]]]]; simplify_eq/=; done).
      exists 2%nat. simpl in *. rewrite Hr.
      destruct stp; simpl in *; simplify_eq; split_and!; try done; try lia.
    all: split; [done|]; intros Htx; apply Ht in Htx; done.
  - subst stp.
      assert (n = 2%nat) as -> by (destruct n as [|[|[|[|?]]]]; simplify_eq/=; done).
      exists 3%nat. simpl in *. simplify_eq. rewrite Hr in Hfind.
      unfold remove_first. rewrite Hfind, Hr. split_and!; try done.
      split; [done|]. intros Htx; apply Ht in Htx; done.
Qed.

Lemma registry_inv_stop this orig sl :
  registry_inv this false orig sl -> registry_inv this true orig (enqueue_uninstall sl).
Proof.
  intros (n & Hq & Hn & Hr & Ht). exists n. simpl in *. rewrite Hq.
  destruct n as [|[|[|?]]]; simpl in *; split_and!; try done; lia.
Qed.

Lemma reachable_registry this store ls s :
  run ls (btree_replicant_t.new this store) = Next s ->
  Forall2 (registry_inv this (stopping s)) (map snd store) (slices s).
Proof.
  intros Hr.
  apply (reachable_lift_cases this (registry_inv this) any_label) with (ls := ls); try done.
  - intros x sl _ _ _. apply registry_inv_stop.
  - intros stp x sl sl' a _ _ _ _ _. apply registry_inv_step.
  - intros x. exists 0%nat. simpl. split_and!; try done; lia.
  - apply Forall_forall. intros l _. by destruct l.
Qed.

Lemma remove_first_absent this l :
  this ∉ l -> remove_first this (l ++ [this]) = l.
Proof.
  intros Hn. unfold remove_first.
  destruct (find_replicant this (l ++ [this])) as [i|] eqn:Hf.
  - destruct (find_replicant_Some _ _ _ Hf) as (l1 & l2 & Hl & Hn1 & -> & ->).
    assert (Hl2 : l2 = []).
    { destruct l2 as [|y l2 _] using rev_ind; [done|].
      rewrite app_comm_cons, app_assoc in Hl. apply app_inj_tail in Hl as [-> ->].
      destruct Hn. apply elem_of_app. right. by left. }
    subst l2. apply app_inj_tail in Hl as [-> _]. by rewrite app_nil_r.
  - apply find_replicant_None in Hf. destruct Hf. apply elem_of_app. right. by left.
Qed.

Lemma remove_first_perm this l : remove_first this (l ++ [this]) ≡ₚ l.
Proof.
  unfold remove_first.
  destruct (find_replicant this (l ++ [this])) as [i|] eqn:Hf.
  - destruct (find_replicant_Some _ _ _ Hf) as (l1 & l2 & Hl & Hn1 & -> & ->).
    apply (Permutation_cons_inv (a := this)).
    rewrite Permutation_middle, <- Hl. by rewrite Permutation_app_comm.
  - apply find_replicant_None in Hf. destruct Hf. apply elem_of_app. right. by left.
Qed.

(** *** When the coordinator has finalized *)

Lemma total_zero_inv f (s : state) i sl :
  total f s = 0%nat -> slices s !! i = Some sl -> f sl = 0%nat.
Proof. intros Hz Hi. pose proof (total_ge f s i sl Hi). lia. Qed.

Lemma only_releases st :
  count_if is_super st = 0%nat -> stack_walkers st = [] ->
  Forall (fun f => f = FReleaseSuper) st.
Proof.
  unfold count_if. induction st as [|f st IH]; [done|].
  destruct f; simpl; try done; try lia. intros. constructor; [done|]. by apply IH.
Qed.

Lemma finalized_slice this sl :
  slice_inv this true sl -> scanning sl = 0%nat -> uninstalling sl = 0%nat ->
  queue sl = [] /\ outbox sl = [] /\ suspended sl = [] /\ live_walkers sl = [] /\
  awaiting_super sl = false /\ txn sl = TxnCommitted /\ sw_alive sl = false /\
  Forall (fun f => f = FReleaseSuper) (stack sl).
Proof.
  unfold scanning, uninstalling, supers, live_walkers.
  intros (n & Hq & Hn & Hreg & Hack & Hack1 & Hph) Hsc Hun.
  destruct (sw_alive sl) eqn:Hsw; [done|].
  destruct (txn sl); destruct_and?; try done.
  unfold supers, live_walkers in *.
  assert (Hq0 : queue sl = []).
  { rewrite Hq in *. unfold msgs_sent, count_if in *.
    destruct n as [|[|[|?]]]; simpl in *; rewrite ?drop_nil; try done; lia. }
  assert (Hob : outbox sl = []).
  { destruct (outbox sl) as [|m ob]; [done|]. unfold count_if in *.
    destruct m; simpl in *; lia. }
  assert (Hlive : stack_walkers (stack sl) = [] /\ suspended sl = []).
  { rewrite length_app, length_map in *. split.
    - destruct (stack_walkers (stack sl)); [done|]. simpl in *. lia.
    - destruct (suspended sl); [done|]. simpl in *. lia. }
  destruct Hlive as [Hl1 Hl2]. rewrite Hl1, Hl2.
  destruct (awaiting_super sl); [lia|].
  split_and!; try done. apply only_releases; [lia|done].
Qed.

Lemma reachable_length this store ls s :
  run ls (btree_replicant_t.new this store) = Next s ->
  length (slices s) = length store.
Proof.
  intros Hr. pose proof (reachable_trees _ _ _ _ Hr) as Ht.
  apply (f_equal length) in Ht. by rewrite !length_map in Ht.
Qed.

Lemma sum_map_le {A} (f : A -> nat) (l : list A) k :
  Forall (fun x => (f x <= k)%nat) l -> (sum_list (map f l) <= k * length l)%nat.
Proof. induction 1; simpl; lia. Qed.

Lemma uninstalling_le this stp sl : slice_inv this stp sl -> (uninstalling sl <= 1)%nat.
Proof.
  unfold uninstalling, count_if, msgs_sent.
  intros (n & Hq & Hn & Hreg & Hack & Hack1 & Hph). rewrite Hq.
  unfold count_if in *.
  destruct (decide (n = 3%nat)) as [->|Hn3].
  - destruct stp; simpl; lia.
  - specialize (Hack Hn3). rewrite Hack.
    destruct stp, n as [|[|[|?]]]; simpl in *; rewrite ?drop_nil; simpl; lia.
Qed.

Lemma finalized_slices this store ls s :
  run ls (btree_replicant_t.new this store) = Next s ->
  stopped_calls s = 1%nat ->
  stopping s = true /\
  Forall (fun sl =>
            queue sl = [] /\ outbox sl = [] /\ suspended sl = [] /\
            live_walkers sl = [] /\ awaiting_super sl = false /\
            txn sl = TxnCommitted /\ sw_alive sl = false /\
            Forall (fun f => f = FReleaseSuper) (stack sl)) (slices s).
Proof.
  intros Hr Hst. pose proof (reachable_inv _ _ _ _ Hr) as (Hall & Hasw & Hau & Hal).
  destruct (r_alive s); [destruct Hal; lia|]. destruct Hal as (_ & Hstp & Hz1 & Hz2).
  split; [done|].
  apply Forall_lookup. intros i sl Hi. rewrite Forall_lookup in Hall.
  destruct (Hall i sl Hi) as (_ & Hsi & _). rewrite Hstp in Hsi.
  apply (finalized_slice _ _ Hsi); by eapply total_zero_inv.
Qed.

(** *** Counting *)

Lemma balance_inv_step this stp a sl sl' :
  slice_step this stp sl a sl' -> balance_inv sl -> balance_inv sl'.
Proof.
  unfold balance_inv, holding, owed, count_if.
  intros Hstep (Ha & Hd & Hl). leaves Hstep.
  all: try destruct sync.
  all: prep.
  all: destruct_slice sl; sl_unfold; simpl in *; simplify_eq.
  all: rewrite ?sum_map_snoc, ?length_app; simpl.
  all: try match goal with
       | Hk : ?su !! ?k = Some ?v |- context [delete ?k ?su] =>
           pose proof (sum_map_delete (fun x => holds_large (resume x.1 x.2)) su k v Hk);
           pose proof (sum_map_delete owes_done su k v Hk); unfold owes_done in *; simpl in *
       end.
  all: unfold owes_done in *; simpl in *.
  all: repeat case_match.
  all: simplify_eq; split_and!; lia.
Qed.

Lemma holds_le_live st :
  (sum_list (map holds_large st) <= length (stack_walkers st))%nat.
Proof.
  induction st as [|f st IH]; simpl; [done|].
  destruct f; simpl; try lia; destruct (large_value w); simpl; lia.
Qed.

Lemma holds_le_suspended (l : list (branch_walker * wait)) :
  (sum_list (map (fun x => holds_large (resume x.1 x.2)) l) <= length l)%nat.
Proof.
  induction l as [|[w wt] l IH]; simpl; [done|].
  destruct wt; simpl; try lia; destruct (large_value w); simpl; lia.
Qed.

Lemma holding_le_live sl : (holding sl <= length (live_walkers sl))%nat.
Proof.
  unfold holding, live_walkers. rewrite length_app, length_map.
  apply Nat.add_le_mono; [apply holds_le_live|apply holds_le_suspended].
Qed.

Lemma owed_le_suspended sl : (owed sl <= length (suspended sl))%nat.
Proof.
  unfold owed, owes_done. induction (suspended sl) as [|[w wt] l IH]; simpl; [done|].
  destruct wt; simpl; lia.
Qed.

Lemma reachable_balance this store ls s :
  run ls (btree_replicant_t.new this store) = Next s -> Forall balance_inv (slices s).
Proof.
  apply reachable_lift.
  - intros x. by split_and!.
  - intros stp sl sl' Hch. destruct Hch; try done. by eapply balance_inv_step.
Qed.

(** *** One walker per node *)

Lemma nodes_internal t h b ps :
  tree_within t h b -> blocks t b = internal_node ps ->
  nodes t h b = S (kids_nodes t h ps).
Proof.
  intros Hw Hb. unfold nodes, kids_nodes.
  by rewrite (subtree_fold_internal _ _ _ _ _ _ Hw Hb).
Qed.

Lemma nodes_leaf t h b es : blocks t b = leaf_node es -> nodes t h b = 1%nat.
Proof. intros Hb. unfold nodes. by rewrite (subtree_fold_leaf _ _ _ _ _ _ Hb). Qed.

Lemma nodes_pos t h b : (1 <= nodes t h b)%nat.
Proof. unfold nodes. destruct h; simpl; destruct (blocks t b); lia. Qed.

Lemma kids_nodes_drop t h ps i p :
  ps !! i = Some p ->
  kids_nodes t h (drop i ps) = (nodes t h (lnode p) + kids_nodes t h (drop (S i) ps))%nat.
Proof. intros Hp. unfold kids_nodes. by rewrite (drop_S _ _ _ Hp). Qed.

Lemma kids_nodes_end t h (ps : list btree_internal_pair) i :
  ps !! i = None -> kids_nodes t h (drop i ps) = 0%nat.
Proof.
  intros Hp. apply lookup_ge_None in Hp. unfold kids_nodes. by rewrite drop_ge.
Qed.

Lemma made_inv_step h this stp a sl sl' :
  slice_step this stp sl a sl' -> slice_inv this stp sl -> walkers_within h sl ->
  made_inv h sl -> made_inv h sl'.
Proof.
  unfold made_inv, walkers_within, slice_unmade, constructions, count_if.
  intros Hstep Hinv (Hst & Hsu & Hroot) Hm.
  assert (Hstart : forall q, queue sl = MStart :: q ->
            txn sl = TxnNone /\ awaiting_super sl = false)
    by (intros q; by apply (slice_inv_start this stp)).
  clear Hinv. leaves Hstep.
  all: try destruct sync.
  all: prep.
  all: try match goal with
       | Hq : queue _ = MStart :: _ |- _ => destruct (Hstart _ Hq) as [Htx Haw]
       end.
  all: clear Hstart.
  all: destruct_slice sl; sl_unfold; simpl in *; simplify_eq.
  all: repeat match goal with H : Forall _ (_ :: _) |- _ => apply Forall_cons in H; destruct H end.
  all: simpl in *;
       repeat match goal with
       | H : exists _, _ |- _ => destruct H
       | H : _ /\ _ |- _ => destruct H
       end; simplify_eq; unify_eqs.
  all: rewrite ?sum_map_snoc, ?length_app; simpl.
  all: try match goal with
       | Hk : ?su !! ?k = Some ?v |- context [delete ?k ?su] =>
           pose proof (sum_map_delete
             (fun y => frame_unmade tree0 h (resume y.1 y.2)) su k v Hk); simpl in *
       end.
  all: try match goal with
       | Hb : blocks _ ?b = internal_node ?ps, Hw : tree_within _ _ ?b |- _ =>
           pose proof (nodes_internal _ _ _ _ Hw Hb)
       end.
  all: try match goal with
       | Hb : blocks _ ?b = leaf_node ?es |- _ =>
           pose proof (nodes_leaf _ h _ _ Hb)
       end.
  all: try match goal with
       | Hp : ?ps !! ?i = Some ?p |- _ =>
           pose proof (kids_nodes_drop tree0 h ps i p Hp);
           pose proof (nodes_pos tree0 h (lnode p))
       | Hp : ?ps !! ?i = None |- _ =>
           pose proof (kids_nodes_end tree0 h ps i Hp)
       end.
  all: try match goal with
       | Hr : root_block _ = Some ?r |- _ => pose proof (nodes_pos tree0 h r)
       end.
  all: unfold root_nodes, internal_pairs in *; simpl in *.
  all: repeat match goal with
       | H : buf _ = Some _ |- _ => rewrite H in *
       | H : blocks _ _ = _ |- _ => rewrite H in *
       | H : root_block _ = _ |- _ => rewrite H in *
       end.
  all: rewrite ?drop_0 in *.
  all: lia.
Qed.

Lemma made_inv_new h x : made_inv h (btree_replicant_t.new_slice x).
Proof. unfold made_inv, slice_unmade, constructions, count_if. simpl. lia. Qed.

Lemma step_made h l s s' :
  step l s = Next s' -> state_inv s -> within h s ->
  Forall (made_inv h) (slices s) -> Forall (made_inv h) (slices s').
Proof.
  intros Hst Hinv Hw Hm.
  assert (Hboth : Forall (fun sl => walkers_within h sl /\ made_inv h sl) (slices s')).
  { eapply step_lift; [|done|done|].
    - intros sl sl' Hc Hi Hok Hch (Hwi & Hmi).
      destruct Hch as [|a sl' Hstep|ob Hob|ob Hob|Hstp]; try done.
      split; [by eapply walkers_within_step|by eapply made_inv_step].
    - apply Forall_and. done. }
  eapply Forall_impl; [exact Hboth|]. by intros sl (_ & ?).
Qed.

Lemma run_made h ls s s' :
  run ls s = Next s' -> state_inv s -> within h s ->
  Forall (made_inv h) (slices s) -> Forall (made_inv h) (slices s').
Proof.
  revert s. induction ls as [|l ls IH]; intros s; simpl.
  - by intros [= <-].
  - destruct (step l s) as [s1| |] eqn:Hst; try done.
    eauto using step_made, step_inv, step_within.
Qed.

Lemma reachable_made h this store ls s :
  Forall (fun x => root_within h x.1) store ->
  run ls (btree_replicant_t.new this store) = Next s ->
  Forall (made_inv h) (slices s).
Proof.
  intros Hh Hr. eapply run_made; [exact Hr|apply state_inv_new|by apply within_new|].
  simpl. rewrite Forall_fmap. apply Forall_forall. intros x _. apply made_inv_new.
Qed.

Lemma committed_unmade h this stp sl :
  slice_inv this stp sl -> txn sl = TxnCommitted -> slice_unmade h sl = 0%nat.
Proof.
  unfold slice_inv, supers, live_walkers, slice_unmade.
  intros (n & _ & _ & _ & _ & _ & Hph) Ht. rewrite Ht in *.
  destruct Hph as (_ & Hsup & Hlive & _).
  destruct (awaiting_super sl); [lia|].
  rewrite length_app in Hlive.
  assert (Hsu : suspended sl = []).
  { destruct (suspended sl); [done|]. simpl in Hlive. rewrite length_fmap in Hlive.
    simpl in Hlive. lia. }
  rewrite Hsu. simpl.
  assert (Hst : forall l, count_if is_super l = 0%nat -> length (stack_walkers l) = 0%nat ->
                          sum_list (map (frame_unmade (tree sl) h) l) = 0%nat).
  { induction l as [|f l IH]; [done|]. unfold count_if in *.
    destruct f; simpl; intros; try done; try lia; auto. }
  rewrite Hst; lia.
Qed.

(** *** After the commit *)




(** *** In the order of the tree *)

Section in_order.
Variable h : nat.

Lemma ord_delete w sl sl' :
  delete_step w sl sl' ->
  suspended sl' = suspended sl /\ awaiting_super sl' = awaiting_super sl /\
  tree sl' = tree sl /\ stack sl' = stack sl /\ delivered sl' = delivered sl /\
  (txn sl <> TxnNone -> txn sl' <> TxnNone).
Proof. destruct 1 as [b Hb Hn|b Hb Hz Ht]; by split_and!. Qed.

Lemma ord_copied w sl sl' b es :
  copied_step w true sl sl' ->
  buf w = Some b -> blocks (tree sl) b = leaf_node es -> larges_tile (tree sl) ->
  suspended sl' = suspended sl /\ awaiting_super sl' = awaiting_super sl /\
  tree sl' = tree sl /\ (txn sl <> TxnNone -> txn sl' <> TxnNone) /\
  map delivery_view (delivered sl') ++ ahead h sl' =
    map delivery_view (delivered sl) ++
    map (stored_view (tree sl)) (drop (Z.to_nat (current_pair w + 1)) es) ++ ahead h sl.
Proof.
  intros Hstep Hb Hn Htile.
  destruct Hstep as [b' es' sl' Hb' Hn' Hcp Hd|b' es' p Hb' Hn' Hcp Hp Hl|b' es' p Hb' Hn' Hcp Hp Hl];
    simplify_eq; unify_eqs.
  - destruct (ord_delete _ _ _ Hd) as (Hsu & Haw & Htr & Hst & Hdl & Htx).
    unfold ahead. rewrite Hsu, Haw, Htr, Hst, Hdl. unfold release_large in *.
    destruct (large_value w); simpl in *; rewrite drop_ge by lia; by split_and!.
  - unfold ahead, release_large. destruct (large_value w); simpl; split_and!; try done.
    all: unfold leaf_rest; simpl; rw_node; by rewrite map_app.
  - subst v w' sl1. unfold ahead, release_large.
    rewrite (drop_lookup_Z _ _ _ Hcp Hp).
    destruct (large_value w); simpl; split_and!; try done.
    all: rewrite <- (inline_view (tree sl) p Hl).
    all: unfold leaf_rest; simpl; rw_node.
    all: rewrite !map_app, <- !app_assoc; simpl; done.
Qed.

Lemma in_order_step this stp a sl sl' :
  slice_step this stp sl a sl' -> sync_label a = true ->
  slice_inv this stp sl -> walkers_ok sl -> walkers_within h sl ->
  larges_tile (tree sl) -> in_order h sl -> in_order h sl'.
Proof.
  intros Hstep Hsync Hinv (Hst & Hsu) (Hst' & Hsu' & Hroot) Htile (Hsus & Haw & Hord).
  destruct Hstep as [sync m q sl' Hs Hq Hm|Hs Ha|k w wt Hs Hk|sync f rest sl' Hs Hf];
    try done; destruct sync; try done.
  - destruct Hm as [| |i Hstp Hfind]; unfold in_order, ahead in *; simpl in *.
    + destruct (slice_inv_start _ _ _ _ Hinv Hq) as [Htx _]. rewrite Htx in Hord.
      destruct Hord as [_ ->]. rewrite Hs. simpl. by rewrite app_nil_r.
    + done.
    + done.
  - assert (Htx : txn sl <> TxnNone).
    { intros Htx. rewrite Htx in Hord. destruct Hord as [Hnil _]. by rewrite Hnil in Hs. }
    assert (Heq : map delivery_view (delivered sl) ++
                  map (stored_view (tree sl)) (frame_todo (tree sl) h f) ++
                  ahead h (set_stack rest sl) =
                  map (stored_view (tree sl)) (root_entries (tree sl) h)).
    { destruct (txn sl); [done| |]; rewrite <- Hord; unfold ahead; rewrite Hs; simpl;
        by rewrite map_app. }
    clear Hord. rewrite Hs in Hst, Hst'.
    apply Forall_cons in Hst as [Hok _]. apply Forall_cons in Hst' as [Hin _].
    simpl in Hok, Hin.
    assert (Hgoal : forall sl1,
              suspended sl1 = suspended sl -> awaiting_super sl1 = awaiting_super sl ->
              tree sl1 = tree sl -> txn sl1 <> TxnNone ->
              map delivery_view (delivered sl1) ++ ahead h sl1 =
                map delivery_view (delivered sl) ++
                map (stored_view (tree sl)) (frame_todo (tree sl) h f) ++
                ahead h (set_stack rest sl) ->
              in_order h sl1).
    { intros sl1 E1 E2 E3 E4 E5. unfold in_order. rewrite E1, E2, E3.
      split_and!; try done. rewrite <- E3. destruct (txn sl1); [done| |];
        by rewrite E5, E3. }
    destruct Hf as [root Hr|Hr Ht| |w b ps Hb|w b es sl' Hb Hc|w i b ps p Hb Hn Hp
                   |w i b ps sl' Hb Hn Hp Hd|w r k v Hl Hk Hv|w sl' Hc].
    + apply Hgoal; try done. unfold ahead. simpl in *. unfold root_entries. rewrite Hr.
      by rewrite !map_app.
    + apply Hgoal; try done. unfold ahead. simpl in *. unfold root_entries. by rewrite Hr.
    + apply Hgoal; try done.
    + apply Hgoal; try done. unfold ahead. simpl in *. rewrite Hb.
      by rewrite (entries_internal _ _ _ _ Hin Hb), !map_app.
    + destruct (ord_copied _ _ _ b es Hc) as (E1 & E2 & E3 & E4 & E5); try done.
      apply Hgoal; try done; [by apply E4|]. rewrite E5. simpl in *.
      by rewrite (entries_leaf _ _ _ _ Hb).
    + apply Hgoal; try done. unfold ahead. simpl in *. rewrite Hb, Hn, (drop_S _ _ _ Hp).
      simpl. rewrite !map_app, <- !app_assoc. done.
    + destruct (ord_delete _ _ _ Hd) as (E1 & E2 & E3 & E4 & E5 & E6).
      apply Hgoal; try done; [by apply E6|]. unfold ahead. rewrite E3, E4, E5. simpl in *.
      rewrite Hb, Hn. apply lookup_ge_None in Hp. by rewrite drop_ge.
    + destruct Hok as (b & es & p & Hb & Hn & Hcp & Hp & Hk' & Hv' & Hlg & Hl').
      simplify_eq. unify_eqs. subst w'.
      apply Hgoal; try done. unfold ahead. simpl in *.
      unfold leaf_rest. simpl. rw_node. rewrite (drop_lookup_Z _ _ _ Hcp Hp). simpl.
      rewrite <- (large_view (tree sl) p Hlg Htile).
      rewrite !map_app, <- !app_assoc. simpl. done.
    + destruct Hok as (b & es & Hb & Hn & Hcp).
      destruct (ord_copied _ _ _ b es Hc) as (E1 & E2 & E3 & E4 & E5); try done.
      apply Hgoal; try done; [by apply E4|]. rewrite E5. simpl in *.
      unfold leaf_rest. by rw_node.
Qed.

End in_order.

Lemma reachable_in_order h this store ls s :
  Forall (fun l => label_ok sync_label l = true) ls ->
  run ls (btree_replicant_t.new this store) = Next s ->
  Forall2 (fun x sl => root_within h x.1 /\ larges_tile x.1 ->
                       in_order h sl /\ walkers_within h sl /\ larges_tile (tree sl))
          store (slices s).
Proof.
  intros Hok Hr.
  pose proof (reachable_lift_cases this
    (fun (_ : bool) (x : btree_slice * list replicant_id) sl =>
       root_within h x.1 /\ larges_tile x.1 ->
       in_order h sl /\ walkers_within h sl /\ larges_tile (tree sl))
    sync_label) as HL.
  rewrite <- (list_fmap_id store) at 1. apply HL with (ls := ls); try done.
  - intros stp x sl sl' a Ha _ Hsi Hwo _ Hstep HR Hx.
    destruct (HR Hx) as (Hord & Hwi & Ht). split_and!.
    + by eapply in_order_step.
    + by eapply walkers_within_step.
    + by rewrite (slice_step_tree _ _ _ _ _ Hstep).
  - intros x [Hh Ht]. split_and!; done.
Qed.

Lemma ahead_committed h this stp sl :
  slice_inv this stp sl -> txn sl = TxnCommitted -> ahead h sl = [].
Proof.
  unfold slice_inv, supers, live_walkers.
  intros (n & _ & _ & _ & _ & _ & Hph) Ht. rewrite Ht in Hph.
  destruct Hph as (_ & Hsup & Hlive & _). rewrite length_app in Hlive.
  assert (Hrel : Forall (fun f => f = FReleaseSuper) (stack sl)).
  { apply only_releases; [lia|]. destruct (stack_walkers (stack sl)); [done|].
    simpl in Hlive. lia. }
  unfold ahead. clear Hsup Hlive. induction Hrel as [|f st -> _ IH]; [done|].
  simpl in *. done.
Qed.

(** ** Every walker stays on course *)

Section on_course.
Variable t : btree_slice.

Lemma course_other w e tr :
  event_walker e <> w -> event_parent e <> Some w ->
  course t w (e :: tr) = course t w tr.
Proof.
  intros H1 H2. simpl. destruct (course t w tr); [|done].
  unfold course_observe. by rewrite !bool_decide_false.
Qed.

Lemma course_own w e tr o :
  course t w tr = Some o -> event_walker e = w ->
  course t w (e :: tr) = course_event t e o.
Proof. intros H1 H2. simpl. rewrite H1. unfold course_observe. by rewrite bool_decide_true. Qed.

Lemma course_child w e tr o :
  course t w tr = Some o -> event_walker e <> w -> event_parent e = Some w ->
  course t w (e :: tr) = check (idle o) o.
Proof.
  intros H1 H2 H3. simpl. rewrite H1. unfold course_observe.
  by rewrite bool_decide_false, bool_decide_true.
Qed.

Lemma course_fresh w tr n :
  Forall (fun e => (event_walker e < n)%nat /\
                   forall p, event_parent e = Some p -> (p < n)%nat) tr ->
  (n <= w)%nat -> course t w tr = Some not_made.
Proof.
  intros Htr Hn. induction Htr as [|e tr [He Hp] Htr IH]; [done|].
  rewrite course_other; [done|lia|]. intros Hw. apply Hp in Hw. lia.
Qed.

Lemma on_course_perm tr ws ws' n : ws ≡ₚ ws' -> on_course t tr ws n -> on_course t tr ws' n.
Proof.
  intros Hp (HA & HB & HC & HD & HE). split_and!; try done.
  - by rewrite <- Hp.
  - by rewrite <- Hp.
  - by rewrite <- Hp.
Qed.

Lemma on_course_drop tr x ws n : on_course t tr (x :: ws) n -> on_course t tr ws n.
Proof.
  intros (HA & HB & HC & HD & HE). split_and!; try done.
  - by apply Forall_cons in HB as [_ ?].
  - simpl in HC. by apply NoDup_cons in HC as [_ ?].
  - by apply Forall_cons in HD as [_ ?].
Qed.

Lemma on_course_emit tr i o ws n e o' :
  on_course t tr ((i, o) :: ws) n ->
  event_walker e = i -> event_parent e = None ->
  course_event t e o = Some o' ->
  on_course t (e :: tr) ((i, o') :: ws) n.
Proof.
  intros (HA & HB & HC & HD & HE) Hw Hp Ho.
  apply Forall_cons in HB as [HB1 HB]. simpl in HB1, HC.
  apply NoDup_cons in HC as [Hi HC]. apply Forall_cons in HD as [HD1 HD]. simpl in HD1.
  assert (Hme : course t i (e :: tr) = Some o') by by rewrite (course_own _ _ _ _ HB1 Hw).
  split_and!.
  - intros w. destruct (decide (w = i)) as [->|Hne]; [by rewrite Hme|].
    rewrite course_other; [done|congruence|by rewrite Hp].
  - apply Forall_cons. split; [done|].
    apply Forall_forall. intros x Hx. rewrite Forall_forall in HB.
    rewrite course_other; [by apply HB| |by rewrite Hp].
    intros Heq. apply Hi. apply list_elem_of_fmap. exists x. split; [congruence|done].
  - simpl. by apply NoDup_cons.
  - by apply Forall_cons.
  - apply Forall_cons. split; [|done]. split; [lia|]. intros p. by rewrite Hp.
Qed.

Lemma on_course_spawn_root tr ws n b :
  on_course t tr ws n ->
  on_course t (EvConstruct n None b :: tr) ((n, made b) :: ws) (S n).
Proof.
  intros (HA & HB & HC & HD & HE).
  assert (Hn : course t n tr = Some not_made) by by eapply course_fresh.
  assert (Hme : course t n (EvConstruct n None b :: tr) = Some (made b)).
  { by rewrite (course_own n (EvConstruct n None b) _ _ Hn eq_refl). }
  assert (Hni : n ∉ map fst ws).
  { intros (x & -> & Hx)%list_elem_of_fmap. rewrite Forall_forall in HD.
    apply HD in Hx. lia. }
  split_and!.
  - intros w. destruct (decide (w = n)) as [->|Hne]; [by rewrite Hme|].
    rewrite course_other; [done|simpl; congruence|done].
  - apply Forall_cons. split; [done|].
    apply Forall_forall. intros x Hx. rewrite Forall_forall in HB.
    rewrite course_other; [by apply HB| |done].
    simpl. intros Heq. apply Hni. apply list_elem_of_fmap. by exists x.
  - simpl. by apply NoDup_cons.
  - apply Forall_cons. split; [simpl; lia|].
    eapply Forall_impl; [exact HD|]. simpl. lia.
  - apply Forall_cons. split; [simpl; split; [lia|done]|].
    eapply Forall_impl; [exact HE|]. simpl. intros e [? Hp]. split; [lia|].
    intros p Hpe. apply Hp in Hpe. lia.
Qed.

Lemma on_course_spawn tr i o ws n b :
  on_course t tr ((i, o) :: ws) n ->
  idle o = true ->
  on_course t (EvConstruct n (Some i) b :: tr) ((n, made b) :: (i, o) :: ws) (S n).
Proof.
  intros (HA & HB & HC & HD & HE) Ho.
  assert (Hn : course t n tr = Some not_made) by by eapply course_fresh.
  assert (Hme : course t n (EvConstruct n (Some i) b :: tr) = Some (made b)).
  { by rewrite (course_own n (EvConstruct n (Some i) b) _ _ Hn eq_refl). }
  assert (Hni : n ∉ map fst ((i, o) :: ws)).
  { intros (x & -> & Hx)%list_elem_of_fmap. rewrite Forall_forall in HD.
    apply HD in Hx. lia. }
  apply Forall_cons in HB as [HB1 HB]. simpl in HB1, HC.
  apply NoDup_cons in HC as [Hi HC]. apply Forall_cons in HD as [HD1 HD]. simpl in HD1.
  assert (Hpa : course t i (EvConstruct n (Some i) b :: tr) = Some o).
  { rewrite (course_child _ _ _ _ HB1); [by rewrite Ho|simpl; lia|done]. }
  split_and!.
  - intros w. destruct (decide (w = n)) as [->|Hne]; [by rewrite Hme|].
    destruct (decide (w = i)) as [->|Hne']; [by rewrite Hpa|].
    rewrite course_other; [done|simpl; congruence|simpl; congruence].
  - apply Forall_cons. split; [done|]. apply Forall_cons. split; [done|].
    apply Forall_forall. intros x Hx. rewrite Forall_forall in HB.
    rewrite course_other; [by apply HB| |].
    + simpl. intros Heq. apply Hni. simpl. right. apply list_elem_of_fmap. by exists x.
    + simpl. intros [= Heq]. apply Hi. apply list_elem_of_fmap. by exists x.
  - simpl. apply NoDup_cons. split; [done|]. by apply NoDup_cons.
  - apply Forall_cons. split; [simpl; lia|]. apply Forall_cons. split; [simpl; lia|].
    eapply Forall_impl; [exact HD|]. simpl. lia.
  - apply Forall_cons. split; [simpl; split; [lia|intros p [= <-]; lia]|].
    eapply Forall_impl; [exact HE|]. simpl. intros e [? Hp]. split; [lia|].
    intros p Hpe. apply Hp in Hpe. lia.
Qed.

Lemma oc_block tr i b hd r ws n :
  on_course t tr ((i, at_stage (Some b) hd r false) :: ws) n ->
  on_course t (EvBlock i :: tr) ((i, at_stage (Some b) hd r false) :: ws) n.
Proof. intros H. by eapply on_course_emit in H. Qed.

Lemma oc_release tr i b hd r ws n :
  on_course t tr ((i, at_stage b hd (Some r) false) :: ws) n ->
  on_course t (EvReleaseLarge i r :: tr) ((i, at_stage b hd None false) :: ws) n.
Proof.
  intros H. eapply on_course_emit in H; [exact H|done|done|].
  unfold course_event, check, idle. simpl. by rewrite bool_decide_true.
Qed.

Lemma oc_advance tr i b hd r ws n j :
  j = Z.of_nat (length hd) ->
  on_course t tr ((i, at_stage b hd r false) :: ws) n ->
  on_course t (EvAdvance i j :: tr) ((i, at_stage b hd r false) :: ws) n.
Proof.
  intros Hj H. eapply on_course_emit in H; [exact H|done|done|].
  unfold course_event, check, idle. simpl. by rewrite bool_decide_true.
Qed.

Lemma oc_acquire tr i b hd ws n p :
  leaf_pairs t b !! length hd = Some p -> is_large (lp_value p) = true ->
  on_course t tr ((i, at_stage b hd None false) :: ws) n ->
  on_course t (EvAcquireLarge i (lb_ref (lp_value p)) :: tr)
    ((i, at_stage b hd (Some (lb_ref (lp_value p))) false) :: ws) n.
Proof.
  intros Hp Hl H. eapply on_course_emit in H; [exact H|done|done|].
  unfold course_event, check, idle, next_pair. simpl. rewrite Hp. simpl.
  unfold wanted. rewrite Hl. by rewrite !bool_decide_true.
Qed.

Lemma oc_deliver tr i b hd r ws n p :
  leaf_pairs t b !! length hd = Some p -> wanted p = r ->
  on_course t tr ((i, at_stage b hd r false) :: ws) n ->
  on_course t (EvDeliver i (lp_key p) :: tr)
    ((i, at_stage b (hd ++ [lp_key p]) r true) :: ws) n.
Proof.
  intros Hp Hr H. eapply on_course_emit in H; [exact H|done|done|].
  unfold course_event, check, idle, next_pair. simpl. rewrite Hp. simpl.
  rewrite Hr. by rewrite bool_decide_true.
Qed.

Lemma oc_done tr i b hd r ws n :
  on_course t tr ((i, at_stage b hd r true) :: ws) n ->
  on_course t (EvDone i :: tr) ((i, at_stage b hd r false) :: ws) n.
Proof. intros H. by eapply on_course_emit in H. Qed.

Lemma oc_destroy tr i b hd r ws n :
  length hd = length (leaf_pairs t (Some b)) ->
  on_course t tr ((i, at_stage (Some b) hd r false) :: ws) n ->
  on_course t (EvDestroy i :: tr) ws n.
Proof.
  intros Hl H. eapply on_course_emit in H; [by apply on_course_drop in H|done|done|].
  unfold course_event, check, idle. simpl. by rewrite !bool_decide_true.
Qed.

End on_course.

(** *** On every slice *)

Lemma staged_pop sl f rest :
  stack sl = f :: rest ->
  staged sl = stage (tree sl) f false ++ staged (set_stack rest sl).
Proof. unfold staged. intros ->. simpl. by rewrite app_assoc. Qed.

Lemma staged_callback sl k x :
  suspended sl !! k = Some x ->
  staged sl ≡ₚ stage (tree sl) (resume x.1 x.2) true ++
               staged (set_suspended (delete k (suspended sl)) sl).
Proof.
  intros Hk. unfold staged. simpl.
  rewrite (concat_map_delete (fun x => stage (tree sl) (resume x.1 x.2) true) _ _ _ Hk).
  solve_Permutation.
Qed.

Lemma ci_push f sl :
  on_course (tree sl) (trace sl) (stage (tree sl) f false ++ staged sl) (next_id sl) ->
  course_inv (push f sl).
Proof. unfold course_inv, staged. simpl. by rewrite app_assoc. Qed.

Lemma ci_suspend w wt sl :
  on_course (tree sl) (trace sl) (stage (tree sl) (resume w wt) true ++ staged sl)
    (next_id sl) ->
  course_inv (suspend w wt sl).
Proof.
  unfold course_inv, staged. simpl. rewrite map_app, concat_app. simpl.
  rewrite app_nil_r. apply on_course_perm. solve_Permutation.
Qed.

Lemma ci_request w wt sync sl :
  on_course (tree sl) (trace sl) (stage (tree sl) (resume w wt) true ++ staged sl)
    (next_id sl) ->
  course_inv (request w wt sync sl).
Proof.
  unfold request. destruct sync; [|apply ci_suspend].
  intros H. apply ci_push. destruct wt; simpl in *; try done.
  by apply oc_done.
Qed.

Lemma ci_delete w sl sl' b hd r :
  delete_step w sl sl' ->
  length hd = length (leaf_pairs (tree sl) (Some b)) ->
  on_course (tree sl) (trace sl) ((bw_id w, at_stage (Some b) hd r false) :: staged sl)
    (next_id sl) ->
  course_inv sl'.
Proof. intros Hd Hl H. destruct Hd; by eapply oc_destroy. Qed.

Lemma keys_before_length t w i es :
  leaf_pairs t (buf w) = es -> (Z.to_nat i <= length es)%nat ->
  length (keys_before t w i) = Z.to_nat i.
Proof.
  intros He Hi. unfold keys_before. rewrite He, length_map, length_take. lia.
Qed.

Lemma keys_before_next t w i es p :
  leaf_pairs t (buf w) = es -> 0 <= i -> es !! Z.to_nat i = Some p ->
  keys_before t w (i + 1) = keys_before t w i ++ [lp_key p].
Proof.
  intros He Hi Hp. unfold keys_before. rewrite He.
  replace (Z.to_nat (i + 1)) with (S (Z.to_nat i)) by lia.
  by rewrite (take_S_r _ _ _ Hp), map_app.
Qed.

Lemma ci_copied w sync sl sl' :
  copied_step w sync sl sl' ->
  -1 <= current_pair w ->
  on_course (tree sl) (trace sl)
    ((bw_id w, at_stage (buf w) (keys_before (tree sl) w (current_pair w + 1))
                 (large_value w) false) :: staged sl) (next_id sl) ->
  course_inv sl'.
Proof.
  intros Hc Hcp H.
  assert (Htr : tree (release_large w sl) = tree sl /\
                staged (release_large w sl) = staged sl /\
                next_id (release_large w sl) = next_id sl).
  { unfold release_large. by destruct (large_value w). }
  assert (Hrel : on_course (tree (release_large w sl)) (trace (release_large w sl))
            ((bw_id w, at_stage (buf w)
                         (keys_before (tree (release_large w sl)) w (current_pair w + 1))
                         None false) :: staged (release_large w sl))
            (next_id (release_large w sl))).
  { destruct Htr as (-> & -> & ->).
    unfold release_large. destruct (large_value w) as [r|]; [|done]. by apply oc_release. }
  destruct Htr as (Htr & _). clear H.
  destruct Hc as [b es sl' Hb Hn Hlen Hd|b es p Hb Hn Hge Hp Hl|b es p Hb Hn Hge Hp Hl];
    rewrite <- Htr in Hn;
    assert (He : leaf_pairs (tree (release_large w sl)) (buf w) = es)
      by (rewrite Hb; simpl; by rewrite Hn).
  - assert (Hkl := keys_before_length _ w (current_pair w + 1) es He ltac:(lia)).
    apply (oc_advance _ _ _ _ _ _ _ _ (current_pair w + 1)) in Hrel; [|lia].
    rewrite Hb in Hrel.
    eapply ci_delete; [exact Hd| |exact Hrel].
    rewrite <- Hb. simpl. rewrite He. lia.
  - assert (Hlt := lookup_lt_Some _ _ _ Hp).
    assert (Hkl := keys_before_length _ w (current_pair w + 1) es He ltac:(lia)).
    apply (oc_advance _ _ _ _ _ _ _ _ (current_pair w + 1)) in Hrel; [|lia].
    apply (oc_acquire _ _ _ _ _ _ _ p) in Hrel; [|by rewrite Hkl, He|done].
    apply ci_request. exact Hrel.
  - subst v w' sl1.
    assert (Hlt := lookup_lt_Some _ _ _ Hp).
    assert (Hkl := keys_before_length _ w (current_pair w + 1) es He ltac:(lia)).
    apply (oc_advance _ _ _ _ _ _ _ _ (current_pair w + 1)) in Hrel; [|lia].
    apply (oc_deliver _ _ _ _ _ _ _ _ p) in Hrel;
      [|by rewrite Hkl, He|unfold wanted; by rewrite Hl].
    rewrite <- (keys_before_next _ _ _ _ _ He Hge Hp) in Hrel.
    apply ci_request. exact Hrel.
Qed.

Lemma course_inv_step this stp a sl sl' :
  slice_step this stp sl a sl' -> walkers_ok sl -> course_inv sl -> course_inv sl'.
Proof.
  intros Hstep [Hst Hsu] H.
  destruct Hstep as [sync m q sl' Hs Hq Hm|Hs Ha|k w wt Hs Hk|sync f rest sl' Hs Hf].
  - destruct Hm as [| |i Hstp Hfind]; [destruct sync| |]; exact H.
  - exact H.
  - apply (ci_request w wt true). unfold course_inv in H.
    apply (on_course_perm _ _ _ _ _ (staged_callback _ _ _ Hk)) in H. exact H.
  - unfold course_inv in H. rewrite (staged_pop _ _ _ Hs) in H.
    rewrite Hs in Hst. apply Forall_cons in Hst as [Hok _].
    destruct Hf as [root Hr|Hr Ht| |w b ps Hb|w b es sl' Hb Hc|w i b ps p Hb Hn Hp
                   |w i b ps sl' Hb Hn Hp Hd|w r k v Hl Hk Hv|w sl' Hc].
    + unfold branch_walker_t.new. apply ci_request. simpl.
      apply on_course_spawn_root. exact H.
    + exact H.
    + exact H.
    + simpl in H. apply oc_block in H. apply ci_push. exact H.
    + simpl in H. apply oc_block in H. eapply ci_copied; [exact Hc|simpl; lia|exact H].
    + unfold branch_walker_t.new. apply ci_request. simpl in *.
      by apply on_course_spawn.
    + simpl in H. rewrite Hb in H. eapply ci_delete; [exact Hd| |exact H].
      simpl in *. by rewrite Hn.
    + subst w'. simpl in H. destruct Hok as (b & es & p & Hb & Hn & Hge & Hp & Hck & Hcv & Hlg & Hlv).
      assert (He : leaf_pairs (tree sl) (buf w) = es) by (rewrite Hb; simpl; by rewrite Hn).
      assert (Hlt := lookup_lt_Some _ _ _ Hp).
      assert (Hkl := keys_before_length (tree sl) w (current_pair w) es He ltac:(lia)).
      assert (k = lp_key p) as -> by congruence.
      apply (oc_deliver _ _ _ _ _ _ _ _ p) in H;
        [|by rewrite Hkl, He|unfold wanted; by rewrite Hlg, Hlv].
      rewrite <- (keys_before_next _ _ _ _ _ He Hge Hp) in H.
      apply ci_request. exact H.
    + destruct Hok as (b & es & Hb & Hn & Hcp).
      eapply ci_copied; [exact Hc|lia|exact H].
Qed.

Lemma reachable_course this store ls s :
  run ls (btree_replicant_t.new this store) = Next s -> Forall course_inv (slices s).
Proof.
  intros Hr.
  pose proof (reachable_lift_cases this (fun (_ : bool) (_ : unit) sl => course_inv sl)
                any_label) as HL.
  assert (HF : Forall2 (fun (_ : unit) sl => course_inv sl) (map (fun _ => tt) store)
                 (slices s)).
  { apply HL with (ls := ls); try done.
    - intros stp x sl sl' a _ _ _ Hwo _ Hstep HR. by eapply course_inv_step.
    - intros x. unfold course_inv, staged. simpl.
      split_and!; try constructor. by eexists.
    - apply Forall_forall. intros l _. by destruct l. }
  clear -HF. induction HF; by constructor.
Qed.

Lemma reachable_on_course this store ls s i sl w :
  run ls (btree_replicant_t.new this store) = Next s -> slices s !! i = Some sl ->
  is_Some (course (tree sl) w (trace sl)).
Proof.
  intros Hr Hi. pose proof (reachable_course _ _ _ _ Hr) as Hall.
  rewrite Forall_lookup in Hall. destruct (Hall i sl Hi) as (HA & _). apply HA.
Qed.

(** *** What a trace that keeps a walker on course tells *)

Section told.
Variable t : btree_slice.
Variable w : nat.

Lemma course_cons e tr o :
  course t w (e :: tr) = Some o ->
  exists o', course t w tr = Some o' /\ course_observe t w e o' = Some o.
Proof. simpl. destruct (course t w tr); [eauto|done]. Qed.

Lemma course_suffix t2 t1 :
  is_Some (course t w (t2 ++ t1)) -> is_Some (course t w t1).
Proof.
  induction t2 as [|e t2 IH]; simpl; [done|].
  destruct (course t w (t2 ++ t1)); [intros _; apply IH; eauto|by intros [? ?]].
Qed.

Ltac course_cases H :=
  unfold course_observe in H;
  try match type of H with context [event_walker ?e] => is_var e; destruct e end;
  simpl in H; unfold check, idle in H;
  repeat case_bool_decide;
  repeat match type of H with
  | context [match ?e with _ => _ end] => destruct e eqn:?
  end; simplify_eq/=;
  repeat match goal with
  | H : _ && _ = true |- _ => apply andb_prop in H as [? ?]
  | H : bool_decide _ = true |- _ => apply bool_decide_eq_true in H
  | H : negb _ = true |- _ => apply negb_true_iff in H
  end.

Lemma handed_app h1 h2 : handed w (h1 ++ h2) = handed w h1 ++ handed w h2.
Proof.
  induction h1 as [|e h1 IH]; [done|]. destruct e; simpl; try done.
  case_bool_decide; simpl; by rewrite IH.
Qed.

Lemma observe_handed e o o' :
  course_observe t w e o = Some o' -> c_handed o' = c_handed o ++ handed w [e].
Proof.
  intros H. course_cases H; simpl; rewrite ?bool_decide_true, ?bool_decide_false by done;
    by rewrite ?app_nil_r.
Qed.

Lemma observe_block_kept e o o' b :
  course_observe t w e o = Some o' -> c_block o = Some b -> c_block o' = Some b.
Proof. intros H Hb. course_cases H; congruence. Qed.

Lemma observe_constructed parent b o o' :
  course_observe t w (EvConstruct w parent b) o = Some o' -> c_block o' = Some b.
Proof. intros H. by course_cases H. Qed.

Lemma observe_destroyed o o' :
  course_observe t w (EvDestroy w) o = Some o' -> c_dead o' = true.
Proof. intros H. by course_cases H. Qed.

Lemma observe_dead e o o' :
  course_observe t w e o = Some o' -> c_dead o = true ->
  c_dead o' = true /\ event_walker e <> w /\ event_parent e <> Some w.
Proof. intros H Hd. course_cases H; try congruence; by rewrite ?andb_false_r in *. Qed.

Lemma observe_awaited e o o' :
  course_observe t w e o = Some o' -> c_awaiting o = true ->
  (c_awaiting o' = true /\ event_walker e <> w /\ event_parent e <> Some w) \/
  e = EvDone w.
Proof. intros H Hd. course_cases H; try congruence; auto. Qed.

Lemma observe_held_since e o o' r :
  course_observe t w e o = Some o' -> c_held o' = Some r ->
  e = EvAcquireLarge w r \/
  (c_held o = Some r /\ forall r', e <> EvReleaseLarge w r').
Proof.
  intros H Hd. course_cases H; try congruence; auto.
  all: right; split; [done|congruence].
Qed.

Lemma observe_in_leaf_order e o o' :
  course_observe t w e o = Some o' -> in_leaf_order t o -> in_leaf_order t o'.
Proof.
  intros H [Hh Hd]. unfold in_leaf_order.
  course_cases H; simpl; try done; try (split; [done|congruence]).
  - match goal with H : c_block _ = None |- _ => rewrite H in Hh end.
    simpl in Hh. rewrite take_nil in Hh. rewrite Hh. by rewrite take_0.
  - split; [|done].
    match goal with H : _ <$> next_pair _ _ = Some _ |- _ => rename H into Hnp end.
    unfold next_pair in Hnp.
    destruct (leaf_pairs t (c_block o) !! length (c_handed o)) as [p|] eqn:Hp; [|done].
    simplify_eq/=.
    rewrite length_app. simpl. rewrite Nat.add_1_r, (take_S_r _ _ _ Hp), map_app.
    simpl. congruence.
Qed.

Lemma course_told tr o :
  course t w tr = Some o ->
  c_handed o = handed w (rev tr) /\ in_leaf_order t o /\
  (forall parent b, EvConstruct w parent b ∈ tr -> c_block o = Some b) /\
  (EvDestroy w ∈ tr -> c_dead o = true).
Proof.
  revert o. induction tr as [|e tr IH]; intros o Ho.
  - simpl in Ho. simplify_eq. split_and!; try done.
    + intros ? ? Hin. by apply elem_of_nil in Hin.
    + intros Hin. by apply elem_of_nil in Hin.
  - apply course_cons in Ho as (o0 & Ho0 & Hobs).
    destruct (IH o0 Ho0) as (Hh & Hg & Hb & Hd). split_and!.
    + simpl. rewrite handed_app, <- Hh. by apply observe_handed.
    + by eapply observe_in_leaf_order.
    + intros parent b [<-|Hin]%elem_of_cons.
      * by eapply observe_constructed.
      * eapply observe_block_kept; [exact Hobs|]. by eapply Hb.
    + intros [<-|Hin]%elem_of_cons.
      * by eapply observe_destroyed.
      * by destruct (observe_dead _ _ _ Hobs (Hd Hin)) as [? _].
Qed.

Lemma dead_for_good tA t2 oA :
  course t w tA = Some oA -> c_dead oA = true ->
  is_Some (course t w (t2 ++ tA)) ->
  forall e, e ∈ t2 -> event_walker e <> w /\ event_parent e <> Some w.
Proof.
  intros HA Hd.
  assert (Hgen : forall o, course t w (t2 ++ tA) = Some o ->
            c_dead o = true /\
            forall e, e ∈ t2 -> event_walker e <> w /\ event_parent e <> Some w).
  { induction t2 as [|e t2 IH]; intros o Ho; simpl in *.
    - simplify_eq. split; [done|]. intros e Hin. by apply elem_of_nil in Hin.
    - destruct (course t w (t2 ++ tA)) as [o'|] eqn:Ho'; [|done].
      destruct (IH o' eq_refl) as [Hd' Hall].
      destruct (observe_dead _ _ _ Ho Hd') as (? & ? & ?).
      split; [done|]. intros e' [->|Hin]%elem_of_cons; [done|by apply Hall]. }
  intros [o Ho]. by destruct (Hgen o Ho).
Qed.

Lemma awaited_until_done tA t2 oA :
  course t w tA = Some oA -> c_awaiting oA = true ->
  is_Some (course t w (t2 ++ tA)) ->
  EvDone w ∉ t2 ->
  forall e, e ∈ t2 -> event_walker e <> w /\ event_parent e <> Some w.
Proof.
  intros HA Hd.
  assert (Hgen : forall o, course t w (t2 ++ tA) = Some o -> EvDone w ∉ t2 ->
            c_awaiting o = true /\
            forall e, e ∈ t2 -> event_walker e <> w /\ event_parent e <> Some w).
  { induction t2 as [|e t2 IH]; intros o Ho Hnd; simpl in *.
    - simplify_eq. split; [done|]. intros e Hin. by apply elem_of_nil in Hin.
    - destruct (course t w (t2 ++ tA)) as [o'|] eqn:Ho'; [|done].
      apply not_elem_of_cons in Hnd as [Hne Hnd].
      destruct (IH o' eq_refl Hnd) as [Hd' Hall].
      destruct (observe_awaited _ _ _ Ho Hd') as [(? & ? & ?)|?]; [|done].
      split; [done|]. intros e' [->|Hin]%elem_of_cons; [done|by apply Hall]. }
  intros [o Ho] Hnd. by destruct (Hgen o Ho Hnd).
Qed.

Lemma held_since tr o r :
  course t w tr = Some o -> c_held o = Some r ->
  exists t2 t1, tr = t2 ++ EvAcquireLarge w r :: t1 /\
                forall r', EvReleaseLarge w r' ∉ t2.
Proof.
  revert o. induction tr as [|e tr IH]; intros o Ho Hh.
  - simpl in Ho. by simplify_eq.
  - apply course_cons in Ho as (o0 & Ho0 & Hobs).
    destruct (observe_held_since _ _ _ _ Hobs Hh) as [->|[Hh0 Hne]].
    + exists [], tr. split; [done|]. intros r' Hin. by apply elem_of_nil in Hin.
    + destruct (IH o0 Ho0 Hh0) as (t2 & t1 & -> & Hnr).
      exists (e :: t2), t1. split; [done|].
      intros r' [Heq|Hin]%elem_of_cons; [by apply (Hne r')|by apply (Hnr r')].
Qed.

Lemma observe_block_since e o o' b :
  course_observe t w e o = Some o' -> c_block o' = Some b ->
  c_block o = Some b \/ exists parent, e = EvConstruct w parent b.
Proof. intros H Hb. course_cases H; try congruence; auto. right. by eexists. Qed.

Lemma block_since tr o b :
  course t w tr = Some o -> c_block o = Some b ->
  exists parent, EvConstruct w parent b ∈ tr.
Proof.
  revert o. induction tr as [|e tr IH]; intros o Ho Hb.
  - simpl in Ho. by simplify_eq.
  - apply course_cons in Ho as (o0 & Ho0 & Hobs).
    destruct (observe_block_since _ _ _ _ Hobs Hb) as [Hb0|[parent ->]].
    + destruct (IH o0 Ho0 Hb0) as [parent Hin]. exists parent. by right.
    + exists parent. by left.
Qed.

Lemma observe_delivery k o o' :
  course_observe t w (EvDeliver w k) o = Some o' ->
  c_awaiting o' = true /\
  exists p, next_pair t o = Some p /\ lp_key p = k /\ wanted p = c_held o.
Proof.
  intros H. course_cases H; try done. split; [done|].
  match goal with H : _ <$> next_pair _ _ = Some _ |- _ => rename H into Hnp end.
  destruct (next_pair t o) as [p|]; [|done]. simplify_eq/=. eauto.
Qed.

End told.

Lemma count_if_zero {A} (p : A -> bool) (l : list A) x :
  count_if p l = 0%nat -> x ∈ l -> p x = false.
Proof.
  unfold count_if. induction l as [|y l IH]; intros Hc Hx; [by apply elem_of_nil in Hx|].
  simpl in Hc. destruct (p y) eqn:Hy; [simpl in Hc; lia|].
  apply elem_of_cons in Hx as [->|Hx]; [done|by apply IH].
Qed.

Lemma ex_stopping_run_ends :
  run ex_stopping_run ex_init = Next (after ex_stopping_run ex_init).
Proof. vm_compute. reflexivity. Qed.

(** X1. The life of a slice walker, at every point of every run: its read
    transaction has not begun exactly while its start message is queued; the
    transaction is open exactly while the superblock is awaited or being
    read with no branch walker alive, or some branch walker is alive; once
    it is committed no branch walker is alive and exactly one report has
    been sent; before that no report has been sent and the slice walker
    exists; and the slice walker is deleted only when its report has been
    handled. *)
Theorem slice_walker_life_cycle this store ls s i sl :
  run ls (btree_replicant_t.new this store) = Next s ->
  slices s !! i = Some sl ->
  (txn sl = TxnNone <-> MStart ∈ queue sl) /\
  (txn sl = TxnOpen <->
     (supers sl = 1%nat /\ live_walkers sl = []) \/
     (supers sl = 0%nat /\ live_walkers sl <> [])) /\
  (txn sl = TxnCommitted ->
     supers sl = 0%nat /\ live_walkers sl = [] /\ reports sl = 1%nat) /\
  (txn sl <> TxnCommitted -> reports sl = 0%nat /\ sw_alive sl = true) /\
  (sw_alive sl = false -> HReport ∉ outbox sl).
Proof.
  intros Hr Hi.
  destruct (reachable_slice _ _ _ _ _ _ Hr Hi) as (Hc & Hsi & Hok).
  pose proof (reports_inv _ _ _ Hsi) as Hrep.
  destruct Hsi as (n & Hq & Hn & Hreg & Hack & Hack1 & Hph).
  assert (Hl : forall l : list branch_walker, length l = 0%nat <-> l = []).
  { intros []; simpl; split; try done; lia. }
  assert (Hq0 : n = 0%nat <-> MStart ∈ queue sl).
  { rewrite Hq. unfold msgs_sent. split.
    - intros ->. by left.
    - destruct (stopping s), n as [|[|[|?]]]; simpl; rewrite ?drop_nil; try done.
      all: intros Hin; repeat (apply elem_of_cons in Hin as [Hin|Hin]; try done);
        by apply elem_of_nil in Hin. }
  destruct (txn sl) eqn:Htx.
  - destruct Hph as (-> & Hs & Hlv & Hrp & Hsw). apply Hl in Hlv.
    split_and!; try done.
    + split; [intros _; by apply Hq0|done].
    + split; [done|]. intros [[? _]|[_ ?]]; [lia|done].
    + by rewrite Hsw.
  - destruct Hph as (Hn0 & Hsl & Hrp & Hsw).
    split_and!; try done.
    + split; [done|]. intros Hin. by apply Hq0 in Hin.
    + split; [|done]. intros _. destruct Hsl as [[? ?%Hl]|[? Hlv]]; [by left|right].
      split; [done|]. intros Hnil. rewrite Hnil in Hlv. simpl in Hlv. lia.
    + by rewrite Hsw.
  - destruct Hph as (Hn0 & Hs & Hlv%Hl & Hrp).
    split_and!; try done.
    + split; [done|]. intros Hin. by apply Hq0 in Hin.
    + split; [done|]. intros [[? _]|[_ ?]]; [lia|done].
    + intros Hsw Hin. rewrite Hsw in Hrp. by apply (count_if_zero _ _ _ Hrp) in Hin.
Qed.

(** On the example: the second slice, with no root, has committed and
    reported once when the scans are over. *)
Lemma slice_walker_life_cycle_witness :
  reports (slice_after ex_sync_scan 1) = 1%nat.
Proof.
  pose proof (slice_walker_life_cycle 3%nat ex_store ex_sync_scan
                (after ex_sync_scan ex_init) 1%nat (slice_after ex_sync_scan 1)) as H.
  destruct H as (_ & _ & H & _).
  - exact ex_sync_scan_ends.
  - vm_compute. reflexivity.
  - destruct H as (_ & _ & H); [vm_compute; reflexivity|exact H].
Defined.

(** X2. What the counters of the coordinator count, at every point of every
    run: [active_slice_walkers] is the number of slices whose walker has not
    yet reported to the coordinator, between zero and the number of slices;
    and from [stop()] on [active_uninstallations] is the number of slices
    whose uninstall request is queued or whose acknowledgement has not been
    handled, at most the number of slices. *)
Theorem coordinator_counters_count this store ls s :
  run ls (btree_replicant_t.new this store) = Next s ->
  active_slice_walkers s = Z.of_nat (total scanning s) /\
  0 <= active_slice_walkers s <= Z.of_nat (length store) /\
  (stopping s = true ->
     active_uninstallations s = Some (Z.of_nat (total uninstalling s)) /\
     (total uninstalling s <= length store)%nat).
Proof.
  intros Hr. pose proof (reachable_inv _ _ _ _ Hr) as (Hall & Hasw & Hau & _).
  pose proof (reachable_length _ _ _ _ Hr) as Hlen.
  assert (Hsc : (total scanning s <= 1 * length (slices s))%nat).
  { apply sum_map_le. apply Forall_forall. intros sl _. unfold scanning.
    destruct (sw_alive sl); lia. }
  assert (Hun : (total uninstalling s <= 1 * length (slices s))%nat).
  { apply sum_map_le. eapply Forall_impl; [exact Hall|]. intros sl (_ & Hsi & _).
    by eapply uninstalling_le. }
  split_and!; try lia.
  intros Hs. rewrite Hs in Hau. split; [done|lia].
Qed.

(** On the example: when the scans are over and both slice walkers have
    reported, the counter of slice walkers is zero. *)
Lemma coordinator_counters_count_witness :
  total scanning (after ex_sync_scan ex_init) = 0%nat.
Proof.
  destruct (coordinator_counters_count 3%nat ex_store ex_sync_scan
              (after ex_sync_scan ex_init)) as (H & _).
  - exact ex_sync_scan_ends.
  - apply Nat2Z.inj. rewrite <- H. vm_compute. reflexivity.
Defined.

(** X3. When the stopped notification has been given nothing is left that
    could call the deleted coordinator or a deleted slice walker: on every
    slice the queue and the outbox are empty, no walker is alive or
    suspended, the transaction is committed, the slice walker is gone, and
    the only calls that may still be pending are releases of the
    superblock; no message is left for the home CPU. *)
Theorem finalized_is_drained this store ls s :
  run ls (btree_replicant_t.new this store) = Next s ->
  stopped_calls s = 1%nat ->
  Forall (fun sl =>
            queue sl = [] /\ outbox sl = [] /\ suspended sl = [] /\
            live_walkers sl = [] /\ awaiting_super sl = false /\
            txn sl = TxnCommitted /\ sw_alive sl = false /\
            Forall (fun f => f = FReleaseSuper) (stack sl)) (slices s) /\
  (forall i, step (LHome i) s = Disabled).
Proof.
  intros Hr Hst. destruct (finalized_slices _ _ _ _ Hr Hst) as [_ Hdr].
  split; [done|]. intros i. unfold step. simpl.
  destruct (slices s !! i) as [sl|] eqn:Hi; [|done].
  rewrite Forall_lookup in Hdr. destruct (Hdr i sl Hi) as (_ & -> & _). done.
Qed.

(** On the example, with [stop()] called first: at the end every slice is
    drained. *)
Lemma finalized_is_drained_witness :
  Forall (fun sl => queue sl = [] /\ outbox sl = [] /\ suspended sl = [])
         (slices (after ex_async_run ex_init)).
Proof.
  destruct (finalized_is_drained 3%nat ex_store ex_async_run (after ex_async_run ex_init))
    as [H _].
  - exact ex_async_run_ends.
  - vm_compute. reflexivity.
  - eapply Forall_impl; [exact H|]. intros sl (? & ? & ? & _). done.
Defined.

(** X4. [stop()] does not cut a scan short: on a store of trees of height
    at most [h] whose large values are tiled by their segments, when the
    stopped notification has been given every slice has handed the sink each
    of its pairs, and no done callback is outstanding. *)
Theorem stopped_after_all_deliveries (h : nat) this store ls s i sl :
  Forall (fun x => root_within h x.1 /\ larges_tile x.1) store ->
  run ls (btree_replicant_t.new this store) = Next s ->
  stopped_calls s = 1%nat ->
  slices s !! i = Some sl ->
  map delivery_view (delivered sl) ≡ₚ
    map (stored_view (tree sl)) (root_entries (tree sl) h) /\
  suspended sl = [].
Proof.
  intros Hst Hr Hsc Hi. apply Forall_and in Hst as [Hh Ht].
  destruct (reachable_slice _ _ _ _ _ _ Hr Hi) as (_ & Hsi & _).
  destruct (finalized_slices _ _ _ _ Hr Hsc) as [_ Hdr].
  rewrite Forall_lookup in Hdr. destruct (Hdr i sl Hi) as (_ & _ & Hsu & _ & _ & Htx & _).
  split; [|done].
  assert (Hscan : scanned h s).
  { eapply run_scanned; [exact Hr|apply state_inv_new|by apply within_new
                        |by apply scanned_new]. }
  unfold scanned in Hscan. rewrite Forall_lookup in Hscan.
  destruct (Hscan i sl Hi) as [Hs _]. unfold scan_inv, seen in Hs.
  rewrite (scan_complete h _ _ _ Hsi Htx) in Hs. simpl in Hs. by rewrite app_nil_r in Hs.
Qed.

(** On the example, with [stop()] called first: at the end the first slice
    has handed over its three pairs. *)
Lemma stopped_after_all_deliveries_witness :
  length (delivered (slice_after ex_async_run 0)) = 3%nat.
Proof.
  destruct (stopped_after_all_deliveries 2 3%nat ex_store ex_async_run
              (after ex_async_run ex_init) 0%nat (slice_after ex_async_run 0)) as [H _].
  - apply Forall_and. split; [exact ex_store_within|exact ex_store_tiled].
  - exact ex_async_run_ends.
  - vm_compute. reflexivity.
  - vm_compute. reflexivity.
  - apply Permutation_length in H. rewrite !length_map in H. rewrite H.
    vm_compute. reflexivity.
Defined.

(** X5. The registry of a slice over the life of the coordinator: it holds
    what it held when the coordinator was made while the install request is
    queued; then, until [stop()] and while the uninstall request is queued,
    the same with the coordinator appended; and when the stopped
    notification has been given, that list without its first entry equal to
    the coordinator, which is a reordering of what the registry held at
    first, and the very same list when the coordinator was not in it. *)
Theorem registry_restored_after_stop this store ls s i x sl :
  run ls (btree_replicant_t.new this store) = Next s ->
  store !! i = Some x -> slices s !! i = Some sl ->
  (MInstall ∈ queue sl -> replicants sl = x.2) /\
  (MInstall ∉ queue sl -> stopping s = false \/ MUninstall ∈ queue sl ->
     replicants sl = x.2 ++ [this]) /\
  (stopped_calls s = 1%nat ->
     replicants sl = remove_first this (x.2 ++ [this]) /\
     replicants sl ≡ₚ x.2 /\
     (this ∉ x.2 -> replicants sl = x.2)).
Proof.
  intros Hr Hx Hi.
  pose proof (reachable_registry _ _ _ _ Hr) as Hreg.
  destruct (Forall2_lookup_r _ _ _ _ _ Hreg Hi) as (o & Ho & (n & Hq & Hn & Hrp & Ht)).
  rewrite list_lookup_fmap, Hx in Ho. simpl in Ho. injection Ho as <-.
  unfold msgs_sent in *. rewrite Hrp.
  assert (Hmem : forall (m : slice_msg) l, m ∈ l -> Forall (fun y => y <> m) l -> False).
  { intros m l Hm Hf. rewrite Forall_forall in Hf. by apply (Hf m). }
  split_and!.
  - intros Hi'. rewrite Hq in Hi'.
    destruct (stopping s), n as [|[|[|[|?]]]]; simpl in *; try done; try lia.
    all: destruct (Hmem _ _ Hi'); by repeat constructor.
  - intros Hni Hor. rewrite Hq in Hni, Hor.
    destruct (stopping s), n as [|[|[|[|?]]]]; simpl in *; try done; try lia.
    all: try (destruct Hni; by repeat constructor).
    all: destruct Hor as [|Hu]; [done|]; destruct (Hmem _ _ Hu); by repeat constructor.
  - intros Hsc.
    destruct (finalized_slices _ _ _ _ Hr Hsc) as [Hs Hdr].
    rewrite Forall_lookup in Hdr. destruct (Hdr i sl Hi) as (Hq0 & _).
    rewrite Hs, Hq0 in Hq. rewrite Hs in Hn.
    destruct n as [|[|[|[|?]]]]; simpl in *; try done; try lia.
    split_and!; [done|apply remove_first_perm|apply remove_first_absent].
Qed.

(** On the example: when the stopped notification has been given the
    registry of the first slice holds what it held at first. *)
Lemma registry_restored_after_stop_witness :
  replicants (slice_after ex_sync_run 0) = [7%nat].
Proof.
  destruct (registry_restored_after_stop 3%nat ex_store ex_sync_run
              (after ex_sync_run ex_init) 0%nat (ex_A, [7%nat]) (slice_after ex_sync_run 0))
    as (_ & _ & H).
  - exact ex_sync_run_ends.
  - reflexivity.
  - vm_compute. reflexivity.
  - destruct H as (_ & _ & H); [vm_compute; reflexivity|].
    apply H. simpl. intros Hin. apply list_elem_of_singleton in Hin. discriminate.
Defined.

(** X6. On every slice the read transaction of the scan begins before the
    coordinator is installed as a trigger: while the transaction has not
    begun, the registry holds what it held when the coordinator was made and
    the install request is still queued behind the start of the scan. *)
Theorem transaction_begins_before_install this store ls s i x sl :
  run ls (btree_replicant_t.new this store) = Next s ->
  store !! i = Some x -> slices s !! i = Some sl ->
  (txn sl = TxnNone ->
     replicants sl = x.2 /\ exists q, queue sl = MStart :: MInstall :: q) /\
  (MInstall ∉ queue sl -> txn sl <> TxnNone).
Proof.
  intros Hr Hx Hi.
  pose proof (reachable_registry _ _ _ _ Hr) as Hreg.
  destruct (Forall2_lookup_r _ _ _ _ _ Hreg Hi) as (o & Ho & (n & Hq & Hn & Hrp & Ht)).
  rewrite list_lookup_fmap, Hx in Ho. simpl in Ho. injection Ho as <-.
  split.
  - intros Htx. apply Ht in Htx as ->. simpl in *. split; [done|]. rewrite Hq. eauto.
  - intros Hni Htx. apply Ht in Htx as ->. apply Hni. rewrite Hq. simpl.
    by repeat constructor.
Qed.

(** On the example: when the scans are over the coordinator is in the
    registry of the first slice, whose transaction has begun. *)
Lemma transaction_begins_before_install_witness :
  txn (slice_after ex_sync_scan 0) <> TxnNone.
Proof.
  destruct (transaction_begins_before_install 3%nat ex_store ex_sync_scan
              (after ex_sync_scan ex_init) 0%nat (ex_A, [7%nat]) (slice_after ex_sync_scan 0))
    as (_ & H).
  - exact ex_sync_scan_ends.
  - reflexivity.
  - vm_compute. reflexivity.
  - apply H. vm_compute. intros Hin. by apply elem_of_nil in Hin.
Defined.

(** X7. [stop()] may be called once only: called again when a slice has
    already uninstalled the coordinator, which was not in the registry of
    the slice to begin with, it sends the slice a second uninstall request,
    and this request ends the process with the fatal error of [uninstall]. *)
Theorem second_stop_is_fatal this store ls s i x sl s2 sync :
  run ls (btree_replicant_t.new this store) = Next s ->
  store !! i = Some x -> slices s !! i = Some sl ->
  this ∉ x.2 ->
  stopping s = true -> queue sl = [] -> stack sl = [] ->
  btree_replicant_t.stop s = Next s2 ->
  exec (LSlice i (SMsg sync)) s2 =
    Crash (Fatal "We were never installed on this slice.").
Proof.
  intros Hr Hx Hi Hnin Hs Hq0 Hst Hstop.
  pose proof (reachable_registry _ _ _ _ Hr) as Hreg.
  destruct (Forall2_lookup_r _ _ _ _ _ Hreg Hi) as (o & Ho & (n & Hq & Hn & Hrp & Ht)).
  rewrite list_lookup_fmap, Hx in Ho. simpl in Ho. injection Ho as <-.
  rewrite Hs, Hq0 in Hq. rewrite Hs in Hn. unfold msgs_sent in *.
  destruct n as [|[|[|[|?]]]]; simpl in *; try done; try lia.
  rewrite remove_first_absent in Hrp by done.
  unfold btree_replicant_t.stop in Hstop. destruct (r_alive s); [|done].
  simpl in Hstop. injection Hstop as <-. simpl.
  rewrite list_lookup_fmap, Hi. simpl.
  unfold slice_exec. simpl. rewrite Hst, Hq0. simpl.
  unfold uninstall. simpl. rewrite Hrp.
  rewrite (run_this_id _ _ _ Hr). simpl.
  apply find_replicant_None in Hnin. by rewrite Hnin.
Qed.

(** On the example: after the scans, [stop()] and the uninstall on the
    first slice, a second [stop()] makes the first slice fail. *)
Lemma second_stop_is_fatal_witness :
  exists s2,
    btree_replicant_t.stop (after ex_stopping_run ex_init) = Next s2 /\
    exec (LSlice 0 (SMsg true)) s2 =
      Crash (Fatal "We were never installed on this slice.").
Proof.
  eexists. split; [vm_compute; reflexivity|].
  apply (second_stop_is_fatal 3%nat ex_store ex_stopping_run
           (after ex_stopping_run ex_init) 0%nat (ex_A, [7%nat])
           (slice_after ex_stopping_run 0)).
  - exact ex_stopping_run_ends.
  - reflexivity.
  - vm_compute. reflexivity.
  - simpl. intros Hin. apply list_elem_of_singleton in Hin. discriminate.
  - vm_compute. reflexivity.
  - vm_compute. reflexivity.
  - vm_compute. reflexivity.
  - vm_compute. reflexivity.
Defined.

(** X8. A scan makes one walker per node of the tree: on a slice whose tree
    has height at most [h], the walkers made so far are never more than the
    nodes of the tree, and when the slice has committed as many walkers have
    been made, and as many destroyed, as the tree has nodes. *)
Theorem one_walker_per_node (h : nat) this store ls s i sl :
  Forall (fun x => root_within h x.1) store ->
  run ls (btree_replicant_t.new this store) = Next s ->
  slices s !! i = Some sl ->
  (constructions sl <= root_nodes (tree sl) h)%nat /\
  (txn sl = TxnCommitted ->
     constructions sl = root_nodes (tree sl) h /\
     destructions sl = root_nodes (tree sl) h).
Proof.
  intros Hh Hr Hi.
  pose proof (reachable_made h _ _ _ _ Hh Hr) as Hm.
  rewrite Forall_lookup in Hm. specialize (Hm i sl Hi). unfold made_inv in Hm.
  destruct (reachable_slice _ _ _ _ _ _ Hr Hi) as ((Hc & Hn) & Hsi & _).
  split; [lia|]. intros Htx.
  rewrite (committed_unmade h _ _ _ Hsi Htx) in Hm.
  destruct Hsi as (n & _ & _ & _ & _ & _ & Hph). rewrite Htx in Hph.
  destruct Hph as (_ & _ & Hl & _). lia.
Qed.

(** On the example: the first slice, a root over two leaves, made three
    walkers. *)
Lemma one_walker_per_node_witness :
  constructions (slice_after ex_sync_scan 0) = 3%nat.
Proof.
  destruct (one_walker_per_node 2 3%nat ex_store ex_sync_scan
              (after ex_sync_scan ex_init) 0%nat (slice_after ex_sync_scan 0)) as [_ H].
  - exact ex_store_within.
  - exact ex_sync_scan_ends.
  - vm_compute. reflexivity.
  - destruct H as [H _]; [vm_compute; reflexivity|]. rewrite H. vm_compute. reflexivity.
Defined.

(** X9. No large value is left acquired: at every point of every run, the
    large values a slice has acquired are those it has released and those
    its live walkers hold, at most one for each walker; and when the slice
    has committed it has released as many as it acquired. *)
Theorem large_values_are_released this store ls s i sl :
  run ls (btree_replicant_t.new this store) = Next s ->
  slices s !! i = Some sl ->
  count_if is_acquire (trace sl) = (count_if is_release (trace sl) + holding sl)%nat /\
  (holding sl <= length (live_walkers sl))%nat /\
  (txn sl = TxnCommitted ->
     count_if is_acquire (trace sl) = count_if is_release (trace sl)).
Proof.
  intros Hr Hi. pose proof (reachable_balance _ _ _ _ Hr) as Hb.
  rewrite Forall_lookup in Hb. destruct (Hb i sl Hi) as (Ha & _ & _).
  pose proof (holding_le_live sl) as Hle.
  split_and!; try done. intros Htx.
  destruct (reachable_slice _ _ _ _ _ _ Hr Hi) as (_ & (n & _ & _ & _ & _ & _ & Hph) & _).
  rewrite Htx in Hph. destruct Hph as (_ & _ & Hl & _). lia.
Qed.

(** On the example: the first slice acquired its one large value and
    released it. *)
Lemma large_values_are_released_witness :
  count_if is_release (trace (slice_after ex_sync_scan 0)) = 1%nat.
Proof.
  destruct (large_values_are_released 3%nat ex_store ex_sync_scan
              (after ex_sync_scan ex_init) 0%nat (slice_after ex_sync_scan 0))
    as (_ & _ & H).
  - exact ex_sync_scan_ends.
  - vm_compute. reflexivity.
  - rewrite <- H; vm_compute; reflexivity.
Defined.

(** X10. A slice waits for the sink: at every point of every run, the
    values handed to the sink are those recorded as delivered, and they are
    those the sink has called back for and those of the walkers suspended on
    the done callback; so when the slice has committed the sink has called
    back for every value it was handed. *)
Theorem commit_waits_for_the_sink this store ls s i sl :
  run ls (btree_replicant_t.new this store) = Next s ->
  slices s !! i = Some sl ->
  length (delivered sl) = count_if is_deliver (trace sl) /\
  count_if is_deliver (trace sl) = (count_if is_done (trace sl) + owed sl)%nat /\
  (owed sl <= length (suspended sl))%nat /\
  (txn sl = TxnCommitted -> count_if is_done (trace sl) = length (delivered sl)).
Proof.
  intros Hr Hi. pose proof (reachable_balance _ _ _ _ Hr) as Hb.
  rewrite Forall_lookup in Hb. destruct (Hb i sl Hi) as (_ & Hd & Hl).
  pose proof (owed_le_suspended sl) as Hle.
  split_and!; try done. intros Htx.
  destruct (reachable_slice _ _ _ _ _ _ Hr Hi) as (_ & (n & _ & _ & _ & _ & _ & Hph) & _).
  rewrite Htx in Hph. destruct Hph as (_ & _ & Hlv & _).
  unfold live_walkers in Hlv. rewrite length_app, length_map in Hlv. lia.
Qed.

(** On the example, with nothing at hand: at the end the sink has called
    back three times on the first slice. *)
Lemma commit_waits_for_the_sink_witness :
  count_if is_done (trace (slice_after ex_async_run 0)) = 3%nat.
Proof.
  destruct (commit_waits_for_the_sink 3%nat ex_store ex_async_run
              (after ex_async_run ex_init) 0%nat (slice_after ex_async_run 0))
    as (_ & _ & _ & H).
  - exact ex_async_run_ends.
  - vm_compute. reflexivity.
  - rewrite H; vm_compute; reflexivity.
Defined.



(** X12. When every block and every large value is at hand when it is
    acquired and the sink calls back before it returns, a slice hands its
    pairs to the sink in the order of the tree, left to right: at every
    point of such a run what the slice has delivered is the beginning of
    the in-order list of the pairs of its tree, and all of it when the
    slice has committed. *)
Theorem synchronous_scan_delivers_in_tree_order (h : nat) this store ls s i sl :
  Forall (fun x => root_within h x.1 /\ larges_tile x.1) store ->
  Forall (fun l => label_ok sync_label l = true) ls ->
  run ls (btree_replicant_t.new this store) = Next s ->
  slices s !! i = Some sl ->
  map delivery_view (delivered sl) `prefix_of`
    map (stored_view (tree sl)) (root_entries (tree sl) h) /\
  (txn sl = TxnCommitted ->
     map delivery_view (delivered sl) =
       map (stored_view (tree sl)) (root_entries (tree sl) h)).
Proof.
  intros Hst Hok Hr Hi.
  pose proof (reachable_in_order h _ _ _ _ Hok Hr) as Hord.
  destruct (Forall2_lookup_r _ _ _ _ _ Hord Hi) as (x & Hx & HR).
  rewrite Forall_lookup in Hst. destruct (HR (Hst i x Hx)) as ((_ & _ & Ho) & _).
  destruct (reachable_slice _ _ _ _ _ _ Hr Hi) as (_ & Hsi & _).
  destruct (txn sl) eqn:Htx.
  - destruct Ho as [_ ->]. split; [apply prefix_nil|done].
  - split; [|done]. exists (ahead h sl). by rewrite Ho.
  - rewrite (ahead_committed h _ _ _ Hsi Htx), app_nil_r in Ho. by rewrite Ho.
Qed.

(** On the example: with everything at hand the first slice delivers the
    keys a, b, c of its two leaves in this order. *)
Lemma synchronous_scan_delivers_in_tree_order_witness :
  map d_key (delivered (slice_after ex_sync_scan 0)) =
    map lp_key (root_entries ex_A 2).
Proof.
  destruct (synchronous_scan_delivers_in_tree_order 2 3%nat ex_store ex_sync_scan
              (after ex_sync_scan ex_init) 0%nat (slice_after ex_sync_scan 0)) as [_ H].
  - apply Forall_and. split; [exact ex_store_within|exact ex_store_tiled].
  - vm_compute. repeat constructor.
  - exact ex_sync_scan_ends.
  - vm_compute. reflexivity.
  - specialize (H ltac:(vm_compute; reflexivity)).
    apply (f_equal (map (fun v : view => v.1.1.1.1))) in H.
    rewrite !map_map in H. exact H.
Defined.

Lemma ex_async_prefix_ends :
  run (take 23 ex_async_run) ex_init = Next (after (take 23 ex_async_run) ex_init).
Proof. vm_compute. reflexivity. Qed.

Lemma ex_async_prefix_history :
  history (slice_after (take 23 ex_async_run) 0) =
    [EvConstruct 0 None 1%N; EvBlock 0; EvConstruct 1 (Some 0%nat) 2%N;
     EvConstruct 2 (Some 0%nat) 3%N; EvDestroy 0; EvBlock 1; EvAdvance 1 0] ++
    EvDeliver 1 [Byte.x61] :: [EvBlock 2; EvAdvance 2 0; EvDeliver 2 [Byte.x63]].
Proof. vm_compute. reflexivity. Qed.

(** X13. In every schedule the pairs of a leaf reach the sink in the order
    of the leaf: at every point of every run the keys that the walker made
    for block [b] has handed to the sink are, in this order, the keys of the
    first pairs of the leaf in [b] (none if [b] is an internal node), and
    the keys of all its pairs once the walker has been destroyed. *)
Theorem leaf_is_handed_over_in_order this store ls s i sl w parent b :
  run ls (btree_replicant_t.new this store) = Next s ->
  slices s !! i = Some sl ->
  EvConstruct w parent b ∈ history sl ->
  handed w (history sl) `prefix_of` map lp_key (leaf_pairs (tree sl) (Some b)) /\
  (EvDestroy w ∈ history sl ->
     handed w (history sl) = map lp_key (leaf_pairs (tree sl) (Some b))).
Proof.
  intros Hr Hi Hc. destruct (reachable_on_course _ _ _ _ _ _ w Hr Hi) as [o Ho].
  destruct (course_told _ _ _ _ Ho) as (Hh & [Hpre Hall] & Hb & Hd).
  unfold history in *. rewrite elem_of_rev in Hc. rewrite <- Hh.
  rewrite (Hb _ _ Hc) in Hpre, Hall. split.
  - rewrite Hpre. exists (map lp_key (drop (length (c_handed o)) (leaf_pairs (tree sl) (Some b)))).
    by rewrite <- map_app, take_drop.
  - intros Hin. rewrite elem_of_rev in Hin. specialize (Hall (Hd Hin)).
    rewrite Hpre, Hall. by rewrite firstn_all.
Qed.

(** On the example: the walker of leaf 2 hands over the keys a and b in
    this order. *)
Lemma leaf_is_handed_over_in_order_witness :
  handed 1 (history (slice_after ex_sync_scan 0)) = [[Byte.x61]; [Byte.x62]].
Proof.
  destruct (leaf_is_handed_over_in_order 3%nat ex_store ex_sync_scan
              (after ex_sync_scan ex_init) 0%nat (slice_after ex_sync_scan 0)
              1%nat (Some 0%nat) 2%N) as [_ H].
  - exact ex_sync_scan_ends.
  - vm_compute. reflexivity.
  - rewrite ex_sync_history. simpl. repeat constructor.
  - rewrite H; [vm_compute; reflexivity|].
    rewrite ex_sync_history. simpl. repeat constructor.
Defined.

(** X14. What the sink is handed stays as it is until the sink calls back:
    from the moment a walker hands a value to the sink until the sink
    invokes the done callback of this walker, the walker makes no move at
    all: it releases neither its block nor a large value, it is not
    destroyed, and it makes no child. *)
Theorem walker_is_still_until_done this store ls s i sl w k h1 h2 :
  run ls (btree_replicant_t.new this store) = Next s ->
  slices s !! i = Some sl ->
  history sl = h1 ++ EvDeliver w k :: h2 ->
  EvDone w ∉ h2 ->
  forall e, e ∈ h2 -> event_walker e <> w /\ event_parent e <> Some w.
Proof.
  intros Hr Hi Hh Hnd e He.
  pose proof (reachable_on_course _ _ _ _ _ _ w Hr Hi) as Hf.
  apply history_split in Hh. rewrite Hh in Hf.
  destruct (course_suffix _ _ _ _ Hf) as [oA HA].
  pose proof HA as HA'. apply course_cons in HA' as (o0 & _ & Hobs).
  destruct (observe_delivery _ _ _ _ _ Hobs) as [Hw _].
  apply (awaited_until_done _ _ _ (rev h2) _ HA Hw Hf).
  - by rewrite elem_of_rev.
  - by rewrite elem_of_rev.
Qed.

(** On the example, with nothing at hand: while the sink has the value of
    key a from walker 1, the events are those of walker 2. *)
Lemma walker_is_still_until_done_witness :
  event_walker (EvBlock 2) <> 1%nat /\ event_parent (EvBlock 2) <> Some 1%nat.
Proof.
  apply (walker_is_still_until_done 3%nat ex_store (take 23 ex_async_run)
           (after (take 23 ex_async_run) ex_init) 0%nat
           (slice_after (take 23 ex_async_run) 0) 1%nat [Byte.x61]
           [EvConstruct 0 None 1%N; EvBlock 0; EvConstruct 1 (Some 0%nat) 2%N;
            EvConstruct 2 (Some 0%nat) 3%N; EvDestroy 0; EvBlock 1; EvAdvance 1 0]
           [EvBlock 2; EvAdvance 2 0; EvDeliver 2 [Byte.x63]]).
  - exact ex_async_prefix_ends.
  - vm_compute. reflexivity.
  - exact ex_async_prefix_history.
  - intros Hin. repeat (apply elem_of_cons in Hin as [Hin|Hin]; [discriminate|]).
    by apply elem_of_nil in Hin.
  - by left.
Defined.

(** X15. A walker that has been destroyed is gone: after its destruction
    no event is of this walker, and no walker is made by it; so a walker is
    destroyed once. *)
Theorem destroyed_walker_is_gone this store ls s i sl w h1 h2 :
  run ls (btree_replicant_t.new this store) = Next s ->
  slices s !! i = Some sl ->
  history sl = h1 ++ EvDestroy w :: h2 ->
  forall e, e ∈ h2 -> event_walker e <> w /\ event_parent e <> Some w.
Proof.
  intros Hr Hi Hh e He.
  pose proof (reachable_on_course _ _ _ _ _ _ w Hr Hi) as Hf.
  apply history_split in Hh. rewrite Hh in Hf.
  destruct (course_suffix _ _ _ _ Hf) as [oA HA].
  pose proof HA as HA'. apply course_cons in HA' as (o0 & _ & Hobs).
  apply observe_destroyed in Hobs.
  apply (dead_for_good _ _ _ (rev h2) _ HA Hobs Hf). by rewrite elem_of_rev.
Qed.

(** On the example, with nothing at hand: the walker of the root is
    destroyed before its children read their leaves, and what follows is
    not of it. *)
Lemma destroyed_walker_is_gone_witness :
  event_walker (EvBlock 1) <> 0%nat /\ event_parent (EvBlock 1) <> Some 0%nat.
Proof.
  apply (destroyed_walker_is_gone 3%nat ex_store (take 23 ex_async_run)
           (after (take 23 ex_async_run) ex_init) 0%nat
           (slice_after (take 23 ex_async_run) 0) 0%nat
           [EvConstruct 0 None 1%N; EvBlock 0; EvConstruct 1 (Some 0%nat) 2%N;
            EvConstruct 2 (Some 0%nat) 3%N]
           [EvBlock 1; EvAdvance 1 0; EvDeliver 1 [Byte.x61];
            EvBlock 2; EvAdvance 2 0; EvDeliver 2 [Byte.x63]]).
  - exact ex_async_prefix_ends.
  - vm_compute. reflexivity.
  - rewrite ex_async_prefix_history. reflexivity.
  - by left.
Defined.

(** X16. What a walker hands to the sink is the next pair of the leaf it
    was made for, and a large value is handed over while it is acquired:
    when a walker hands over a key, the key is that of the pair of its leaf
    after those it has handed over, and if the value of this pair is large
    the walker has acquired the large value of the pair and has released no
    large value since. *)
Theorem handed_value_is_acquired this store ls s i sl w k h1 h2 :
  run ls (btree_replicant_t.new this store) = Next s ->
  slices s !! i = Some sl ->
  history sl = h1 ++ EvDeliver w k :: h2 ->
  exists parent b p,
    EvConstruct w parent b ∈ h1 /\
    leaf_pairs (tree sl) (Some b) !! length (handed w h1) = Some p /\
    lp_key p = k /\
    (is_large (lp_value p) = true ->
       exists h0 h0',
         h1 = h0 ++ EvAcquireLarge w (lb_ref (lp_value p)) :: h0' /\
         forall r, EvReleaseLarge w r ∉ h0').
Proof.
  intros Hr Hi Hh.
  pose proof (reachable_on_course _ _ _ _ _ _ w Hr Hi) as Hf.
  apply history_split in Hh. rewrite Hh in Hf.
  destruct (course_suffix _ _ _ _ Hf) as [oA HA].
  apply course_cons in HA as (o0 & Ho0 & Hobs).
  destruct (observe_delivery _ _ _ _ _ Hobs) as (_ & p & Hnp & Hk & Hw).
  destruct (course_told _ _ _ _ Ho0) as (Hhd & _ & _ & _).
  rewrite rev_involutive in Hhd. unfold next_pair in Hnp. rewrite Hhd in Hnp.
  destruct (c_block o0) as [b|] eqn:Hb;
    [|simpl in Hnp; by rewrite lookup_nil in Hnp].
  destruct (block_since _ _ _ _ _ Ho0 Hb) as [parent Hin].
  exists parent, b, p. split_and!; try done.
  - by rewrite elem_of_rev in Hin.
  - intros Hl. unfold wanted in Hw. rewrite Hl in Hw. symmetry in Hw.
    destruct (held_since _ _ _ _ _ Ho0 Hw) as (t2 & t1 & Heq & Hnr).
    exists (rev t1), (rev t2). split.
    + rewrite <- (rev_involutive h1), Heq, rev_app_distr. simpl.
      by rewrite <- app_assoc.
    + intros r. rewrite elem_of_rev. apply Hnr.
Qed.

(** On the example: when walker 1 hands over key b, whose value is large,
    it has acquired large value 7. *)
Lemma handed_value_is_acquired_witness :
  exists parent b p,
    EvConstruct 1 parent b ∈
      [EvConstruct 0 None 1%N; EvBlock 0; EvConstruct 1 (Some 0%nat) 2%N; EvBlock 1;
       EvAdvance 1 0; EvDeliver 1 [Byte.x61]; EvDone 1; EvAdvance 1 1;
       EvAcquireLarge 1 7%N] /\
    leaf_pairs ex_A (Some b) !! 1%nat = Some p /\
    lp_key p = [Byte.x62] /\
    (is_large (lp_value p) = true ->
       exists h0 h0',
         [EvConstruct 0 None 1%N; EvBlock 0; EvConstruct 1 (Some 0%nat) 2%N; EvBlock 1;
          EvAdvance 1 0; EvDeliver 1 [Byte.x61]; EvDone 1; EvAdvance 1 1;
          EvAcquireLarge 1 7%N] =
           h0 ++ EvAcquireLarge 1 (lb_ref (lp_value p)) :: h0' /\
         forall r, EvReleaseLarge 1 r ∉ h0').
Proof.
  apply (handed_value_is_acquired 3%nat ex_store ex_sync_scan
           (after ex_sync_scan ex_init) 0%nat (slice_after ex_sync_scan 0) 1%nat
           [Byte.x62]
           [EvConstruct 0 None 1%N; EvBlock 0; EvConstruct 1 (Some 0%nat) 2%N; EvBlock 1;
            EvAdvance 1 0; EvDeliver 1 [Byte.x61]; EvDone 1; EvAdvance 1 1;
            EvAcquireLarge 1 7%N]
           [EvDone 1; EvReleaseLarge 1 7%N;
            EvAdvance 1 2; EvDestroy 1; EvConstruct 2 (Some 0%nat) 3%N;
            EvBlock 2; EvAdvance 2 0; EvDeliver 2 [Byte.x63];
            EvDone 2; EvAdvance 2 1; EvDestroy 2; EvDestroy 0]).
  - exact ex_sync_scan_ends.
  - vm_compute. reflexivity.
  - rewrite ex_sync_history. reflexivity.
Defined.

(** X17. Nothing is handed to the sink twice, or made up, at any point of
    a scan: on a store of trees of height at most [h] whose large values
    are tiled by their segments, at every point of every run what a slice
    has handed to the sink (key, bytes, flags, expiry, cas) is part of the
    pairs stored in its tree, no pair more often than it is stored; so
    every delivery shows a stored pair and the deliveries are never more
    than the pairs. *)
Theorem deliveries_are_stored_pairs (h : nat) this store ls s i sl :
  Forall (fun x => root_within h x.1 /\ larges_tile x.1) store ->
  run ls (btree_replicant_t.new this store) = Next s ->
  slices s !! i = Some sl ->
  map delivery_view (delivered sl) ⊆+
    map (stored_view (tree sl)) (root_entries (tree sl) h) /\
  (forall d, d ∈ delivered sl ->
     exists p, p ∈ root_entries (tree sl) h /\ delivery_view d = stored_view (tree sl) p) /\
  (length (delivered sl) <= length (root_entries (tree sl) h))%nat.
Proof.
  intros Hst Hr Hi. apply Forall_and in Hst as [Hh Ht].
  assert (Hscan : scanned h s).
  { eapply run_scanned; [exact Hr|apply state_inv_new|by apply within_new
                        |by apply scanned_new]. }
  unfold scanned in Hscan. rewrite Forall_lookup in Hscan.
  destruct (Hscan i sl Hi) as [Hs _]. unfold scan_inv, seen in Hs.
  assert (Hsub : map delivery_view (delivered sl) ⊆+
                   map (stored_view (tree sl)) (root_entries (tree sl) h)).
  { rewrite <- Hs. by apply submseteq_inserts_r. }
  split_and!; [done| |].
  - intros d Hd.
    assert (Hin : delivery_view d ∈ map (stored_view (tree sl)) (root_entries (tree sl) h)).
    { eapply elem_of_submseteq; [|exact Hsub]. apply list_elem_of_fmap. by exists d. }
    apply list_elem_of_fmap in Hin as (p & Hp & Hin). by exists p.
  - apply submseteq_length in Hsub. by rewrite !length_map in Hsub.
Qed.

(** On the example, with nothing at hand: when two of the three pairs of
    the first slice have been handed over, the two are stored pairs. *)
Lemma deliveries_are_stored_pairs_witness :
  map delivery_view (delivered (slice_after (take 23 ex_async_run) 0)) ⊆+
    map (stored_view ex_A) (root_entries ex_A 2).
Proof.
  destruct (deliveries_are_stored_pairs 2 3%nat ex_store (take 23 ex_async_run)
              (after (take 23 ex_async_run) ex_init) 0%nat
              (slice_after (take 23 ex_async_run) 0)) as [H _].
  - apply Forall_and. split; [exact ex_store_within|exact ex_store_tiled].
  - exact ex_async_prefix_ends.
  - vm_compute. reflexivity.
  - exact H.
Defined.
